(** * bowtie2: SSE dynamic-programming matrix, backtrace masks and scoring bounds

    A shallow embedding of [aligner_swsse.h] (struct [SSEMatrix]: the striped
    element accessor, the 16-bit per-cell mask words, [analyzeCell]) and of
    [scoring.cpp] ([maxReadGaps], [maxRefGaps], [nFilter], [nFilterPair]),
    with the properties the design document states about them.

    Conventions.
    - C++ integers are [Z] with the wrap-around of their type written out:
      [usz] for [size_t], [s32] for [int], [s64] for [int64_t] (= [TAlScore]),
      [u16] for the [uint16_t] mask words.
    - A call either returns or stops: [assert] failures (only when the build
      keeps assertions), reads outside a buffer, division by zero, and loops
      that do not finish are outcomes of their own.
    - [EList<uint16_t> masks_] is a list updated by index; the vector buffer
      [bufal_] is the flat list of its bytes (sixteen per [__m128i]). *)

From Stdlib Require Import ZArith Lia Bool List SpecFloat.
From stdpp Require Import base tactics option list.

Local Open Scope Z_scope.

(** ** Outcomes of a call *)

Inductive fault : Set :=
| AssertionFailure   (* an [assert] of the source does not hold *)
| OutOfRange         (* an index outside the buffer it is applied to *)
| DivisionByZero
| OutOfFuel.         (* the loop did not finish within the given fuel *)

Inductive outcome (A : Type) : Type :=
| Ret (a : A)
| Stop (f : fault).
Arguments Ret {A} a.
Arguments Stop {A} f.

#[global] Instance outcome_ret : MRet outcome := fun _ a => Ret a.
#[global] Instance outcome_bind : MBind outcome := fun _ _ k o =>
  match o with
  | Ret a => k a
  | Stop f => Stop f
  end.

(** [assert(c)]: checked only in a build that keeps assertions. *)
Definition assert_ (assertions : bool) (c : bool) : outcome unit :=
  if assertions && negb c then Stop AssertionFailure else Ret tt.

(** Indexing a buffer; the source's containers do not extend on a miss. *)
Definition at_ (l : list Z) (i : Z) : outcome Z :=
  if i <? 0 then Stop OutOfRange else
  match l !! Z.to_nat i with
  | Some x => Ret x
  | None => Stop OutOfRange
  end.

Definition store_ (l : list Z) (i : Z) (x : Z) : outcome (list Z) :=
  if (0 <=? i) && (i <? Z.of_nat (length l))
  then Ret (<[Z.to_nat i := x]> l)
  else Stop OutOfRange.

(** ** Machine integers *)

Definition usz (z : Z) : Z := z mod 2 ^ 64.
Definition u16 (z : Z) : Z := z mod 2 ^ 16.
Definition s32 (z : Z) : Z := (z + 2 ^ 31) mod 2 ^ 32 - 2 ^ 31.
Definition s64 (z : Z) : Z := (z + 2 ^ 63) mod 2 ^ 64 - 2 ^ 63.
Definition s16 (z : Z) : Z := (z + 2 ^ 15) mod 2 ^ 16 - 2 ^ 15.

(** ** struct SSEMatrix *)

Definition E : Z := 0.
Definition F : Z := 1.
Definition H : Z := 2.
Definition TMP : Z := 3.

Record SSEMatrix : Type := mkSSEMatrix {
  inited_      : bool;
  nrow_        : Z;
  ncol_        : Z;
  nvecrow_     : Z;
  nveccol_     : Z;
  wperv_       : Z;
  vecshift_    : Z;
  nvecPerCol_  : Z;
  nvecPerCell_ : Z;
  colstride_   : Z;
  rowstride_   : Z;
  masks_       : list Z;   (* EList<uint16_t> *)
  bufal_       : list Z    (* the bytes of the __m128i buffer *)
}.

Definition with_masks (m : SSEMatrix) (ms : list Z) : SSEMatrix :=
  mkSSEMatrix (inited_ m) (nrow_ m) (ncol_ m) (nvecrow_ m) (nveccol_ m)
    (wperv_ m) (vecshift_ m) (nvecPerCol_ m) (nvecPerCell_ m)
    (colstride_ m) (rowstride_ m) ms (bufal_ m).

(** [row * ncol_ + col], in [size_t]. *)
Definition cell_index (m : SSEMatrix) (row col : Z) : Z :=
  usz (usz (row * ncol_ m) + col).

(** *** The mask word of a cell *)

Definition reportedThrough (m : SSEMatrix) (row col : Z) : outcome bool :=
  w ← at_ (masks_ m) (cell_index m row col);
  mret (negb (Z.land w (Z.shiftl 1 0) =? 0)).

Definition setReportedThrough (m : SSEMatrix) (row col : Z) : outcome SSEMatrix :=
  w ← at_ (masks_ m) (cell_index m row col);
  ms ← store_ (masks_ m) (cell_index m row col) (u16 (Z.lor w (Z.shiftl 1 0)));
  mret (with_masks m ms).

Definition isHMaskSet (m : SSEMatrix) (row col : Z) : outcome bool :=
  w ← at_ (masks_ m) (cell_index m row col);
  mret (negb (Z.land w (Z.shiftl 1 1) =? 0)).

(** The two compound assignments of a mask setter:
    [masks_[i] &= ~(clr); masks_[i] |= (bits);]. *)
Definition mask_update (m : SSEMatrix) (row col : Z) (clr bits : Z)
  : outcome SSEMatrix :=
  let i := cell_index m row col in
  w ← at_ (masks_ m) i;
  ms1 ← store_ (masks_ m) i (u16 (Z.land w (Z.lnot clr)));
  w1 ← at_ ms1 i;
  ms2 ← store_ ms1 i (u16 (Z.lor w1 bits));
  mret (with_masks m ms2).

Section Build.
(** [assertions]: the build keeps [assert] (no [NDEBUG]). *)
Variable assertions : bool.

Definition hMaskSet (m : SSEMatrix) (row col : Z) (mask : Z) : outcome SSEMatrix :=
  _ ← assert_ assertions (mask <? 32);
  mask_update m row col (Z.shiftl 31 1)
    (Z.lor (Z.shiftl 1 1) (s32 (Z.shiftl mask 2))).

Definition isEMaskSet (m : SSEMatrix) (row col : Z) : outcome bool :=
  w ← at_ (masks_ m) (cell_index m row col);
  mret (negb (Z.land w (Z.shiftl 1 7) =? 0)).

Definition eMaskSet (m : SSEMatrix) (row col : Z) (mask : Z) : outcome SSEMatrix :=
  _ ← assert_ assertions (mask <? 4);
  mask_update m row col (Z.shiftl 7 7)
    (Z.lor (Z.shiftl 1 7) (s32 (Z.shiftl mask 8))).

Definition isFMaskSet (m : SSEMatrix) (row col : Z) : outcome bool :=
  w ← at_ (masks_ m) (cell_index m row col);
  mret (negb (Z.land w (Z.shiftl 1 10) =? 0)).

Definition fMaskSet (m : SSEMatrix) (row col : Z) (mask : Z) : outcome SSEMatrix :=
  _ ← assert_ assertions (mask <? 4);
  mask_update m row col (Z.shiftl 7 10)
    (Z.lor (Z.shiftl 1 10) (s32 (Z.shiftl mask 11))).

(** The stored H mask as [analyzeCell] reads it:
    [(masks_[row * ncol_ + col] >> 2) & 31]. *)
Definition hMaskGet (m : SSEMatrix) (row col : Z) : outcome Z :=
  w ← at_ (masks_ m) (cell_index m row col);
  mret (Z.land (Z.shiftr w 2) 31).



(** *** Matrix elements

    [elt]: the two pointer casts read the buffer as bytes; vector [eltvec]
    starts at byte [16 * eltvec]. [(uint8_t* )&bufal_[eltvec])[rowelt]] is the
    byte [rowelt] places further, [((int16_t* )&bufal_[eltvec])[rowelt]] the
    little-endian signed halfword [2 * rowelt] places further. *)
Definition elt (m : SSEMatrix) (row col mat : Z) : outcome Z :=
  _ ← assert_ assertions (inited_ m);
  _ ← assert_ assertions (row <? nrow_ m);
  _ ← assert_ assertions (col <? ncol_ m);
  _ ← assert_ assertions (mat <? 3);
  if nvecrow_ m =? 0 then Stop DivisionByZero else
  let rowelt := row / nvecrow_ m in
  let rowvec := row mod nvecrow_ m in
  let eltvec := usz (usz (usz (col * colstride_ m) + usz (rowvec * rowstride_ m)) + mat) in
  if wperv_ m =? 16 then
    at_ (bufal_ m) (16 * eltvec + rowelt)
  else
    _ ← assert_ assertions (8 =? wperv_ m);
    lo ← at_ (bufal_ m) (16 * eltvec + 2 * rowelt);
    hi ← at_ (bufal_ m) (16 * eltvec + 2 * rowelt + 1);
    mret (s16 (lo + 256 * hi)).

Definition eelt (m : SSEMatrix) (row col : Z) : outcome Z := elt m row col E.
Definition felt (m : SSEMatrix) (row col : Z) : outcome Z := elt m row col F.
Definition helt (m : SSEMatrix) (row col : Z) : outcome Z := elt m row col H.

(** ** class Scoring

    Modelled from the spec: [scoring.h] is not among the sources. The fields
    are those [scoring.cpp] and [analyzeCell] use: the public members [match],
    [gapbar], [nCeilConst], [nCeilLinear], [ncatpair], and the values of the
    accessors [readGapOpen()], [readGapExtend()], [refGapOpen()],
    [refGapExtend()] (the affine gap costs of the data model). The two ceiling
    coefficients are C [float]s: IEEE-754 binary32 values. *)
Record Scoring : Type := mkScoring {
  match_        : Z;           (* int match *)
  gapbar        : Z;           (* int gapbar *)
  readGapOpen   : Z;
  readGapExtend : Z;
  refGapOpen    : Z;
  refGapExtend  : Z;
  nCeilConst    : spec_float;
  nCeilLinear   : spec_float;
  ncatpair      : bool
}.

(** ** Backtrace transitions and the tables of [mask.h] *)

Inductive SW_BT : Set :=
| SW_BT_OALL_DIAG
| SW_BT_OALL_REF_OPEN
| SW_BT_OALL_READ_OPEN
| SW_BT_RDGAP_EXTEND
| SW_BT_RFGAP_EXTEND.

(** Modelled from the spec: [mask.h] is not among the sources. [alts5[mask]]
    is the number of set bits of a 5-bit mask and [firsts5[mask]] the index of
    its lowest set bit; entry 0 of [firsts5], which no mask selects a bit
    from, is -1. *)
Definition alts5 : list Z :=
  [0; 1; 1; 2; 1; 2; 2; 3; 1; 2; 2; 3; 2; 3; 3; 4;
   1; 2; 2; 3; 2; 3; 3; 4; 2; 3; 3; 4; 3; 4; 4; 5].

Definition firsts5 : list Z :=
  [-1; 0; 1; 0; 2; 0; 1; 0; 3; 0; 1; 0; 2; 0; 1; 0;
    4; 0; 1; 0; 2; 0; 1; 0; 3; 0; 1; 0; 2; 0; 1; 0].

(** The out-parameters of [analyzeCell]; a parameter the call does not assign
    keeps the value the caller passed. *)
Record cell_out : Type := mkOut {
  empty        : bool;
  cur          : SW_BT;
  branch       : bool;
  canMoveThru  : bool;
  reportedThru : bool
}.

Definition set_empty (o : cell_out) (b : bool) : cell_out :=
  mkOut b (cur o) (branch o) (canMoveThru o) (reportedThru o).
Definition set_cur (o : cell_out) (c : SW_BT) : cell_out :=
  mkOut (empty o) c (branch o) (canMoveThru o) (reportedThru o).
Definition set_branch (o : cell_out) (b : bool) : cell_out :=
  mkOut (empty o) (cur o) b (canMoveThru o) (reportedThru o).
Definition set_canMoveThru (o : cell_out) (b : bool) : cell_out :=
  mkOut (empty o) (cur o) (branch o) b (reportedThru o).
Definition set_reportedThru (o : cell_out) (b : bool) : cell_out :=
  mkOut (empty o) (cur o) (branch o) (canMoveThru o) b.

(** [gapsAllowed] of [analyzeCell]: both comparisons are in [size_t]. *)
Definition gapsAllowed (m : SSEMatrix) (sc : Scoring) (row : Z) : bool :=
  let rowFromEnd := usz (usz (nrow_ m - row) - 1) in
  negb ((row <? usz (gapbar sc)) || (rowFromEnd <? usz (gapbar sc))).

(** [if(c) mask |= (1 << k);] *)
Definition or_bit (c : bool) (k : Z) (mask : Z) : Z :=
  if c then Z.lor mask (Z.shiftl 1 k) else mask.

(** ** analyzeCell

    The body is the one the header carries. [RandomSource] with its
    [nextU2], [randFromMask] of [mask.h] and [Scoring::score] are not among
    the sources: the model takes them as parameters and constrains none. *)
Section AnalyzeCell.
Variable RandomSource : Type.
Variable nextU2 : RandomSource -> Z * RandomSource.
Variable randFromMask : RandomSource -> Z -> Z * RandomSource.
Variable score : Scoring -> Z -> Z -> Z -> Z.

Definition cell_state : Type := SSEMatrix * RandomSource * cell_out.

(** [ct == E]: from [sc_cur] to [origMask = mask]. *)
Definition origMaskE (m : SSEMatrix) (sc : Scoring) (row col : Z)
    (offsetsc floorsc : Z) : outcome (Z * Z) :=
  e ← eelt m row col;
  let sc_cur := s64 (e + offsetsc) in
  _ ← assert_ assertions (gapsAllowed m sc row);
  _ ← assert_ assertions (0 <? col);
  h ← helt m row (usz (col - 1));
  let sc_h_left := s64 (h + offsetsc) in
  let mask :=
    or_bit ((floorsc <? sc_h_left) && (s64 (sc_h_left - readGapOpen sc) =? sc_cur)) 0 0 in
  e' ← eelt m row (usz (col - 1));
  let sc_e_left := s64 (e' + offsetsc) in
  let mask :=
    or_bit ((floorsc <? sc_e_left) && (s64 (sc_e_left - readGapExtend sc) =? sc_cur)) 1 mask in
  mret (sc_cur, mask).

(** [ct == F]: from [sc_cur] to [origMask = mask]. *)
Definition origMaskF (m : SSEMatrix) (sc : Scoring) (row col : Z)
    (offsetsc floorsc : Z) : outcome (Z * Z) :=
  f ← felt m row col;
  let sc_cur := s64 (f + offsetsc) in
  _ ← assert_ assertions (gapsAllowed m sc row);
  _ ← assert_ assertions (0 <? row);
  h ← helt m (usz (row - 1)) col;
  let sc_h_up := s64 (h + offsetsc) in
  let mask :=
    or_bit ((floorsc <? sc_h_up) && (s64 (sc_h_up - refGapOpen sc) =? sc_cur)) 0 0 in
  f' ← felt m (usz (row - 1)) col;
  let sc_f_up := s64 (f' + offsetsc) in
  let mask :=
    or_bit ((floorsc <? sc_f_up) && (s64 (sc_f_up - refGapExtend sc) =? sc_cur)) 1 mask in
  mret (sc_cur, mask).

(** [col > 0 ? (xelt(r, col-1) + offsetsc) : floorsc] *)
Definition left_score (x : outcome Z) (col offsetsc floorsc : Z) : outcome Z :=
  if 0 <? col then v ← x; mret (s64 (v + offsetsc)) else mret floorsc.

(** The H case: from [sc_cur] to [origMask = mask]. *)
Definition origMaskH (m : SSEMatrix) (sc : Scoring) (row col ct : Z)
    (refc readc readq : Z) (offsetsc floorsc : Z) : outcome (Z * Z) :=
  h ← helt m row col;
  let sc_cur := s64 (h + offsetsc) in
  _ ← assert_ assertions (H =? ct);
  f ← felt m (usz (row - 1)) col;
  let sc_f_up := s64 (f + offsetsc) in
  h' ← helt m (usz (row - 1)) col;
  let sc_h_up := s64 (h' + offsetsc) in
  sc_h_left ← left_score (helt m row (usz (col - 1))) col offsetsc floorsc;
  sc_e_left ← left_score (eelt m row (usz (col - 1))) col offsetsc floorsc;
  sc_h_upleft ← left_score (helt m (usz (row - 1)) (usz (col - 1))) col offsetsc floorsc;
  let sc_diag := score sc readc refc (s32 (readq - 33)) in
  let mask :=
    if gapsAllowed m sc row then
      or_bit ((floorsc <? sc_e_left) && (sc_cur =? s64 (sc_e_left - readGapExtend sc))) 3
     (or_bit ((floorsc <? sc_f_up) && (sc_cur =? s64 (sc_f_up - refGapExtend sc))) 2
     (or_bit ((floorsc <? sc_h_left) && (sc_cur =? s64 (sc_h_left - readGapOpen sc))) 1
     (or_bit ((floorsc <? sc_h_up) && (sc_cur =? s64 (sc_h_up - refGapOpen sc))) 0 0)))
    else 0 in
  let mask :=
    or_bit ((floorsc <? sc_h_upleft) && (sc_cur =? s64 (sc_h_upleft + sc_diag))) 4 mask in
  mret (sc_cur, mask).

(** The working mask: the stored field when its initialised bit is set, the
    freshly computed one otherwise. *)
Definition working_mask (set : bool) (m : SSEMatrix) (row col : Z)
    (shift width origMask : Z) : outcome Z :=
  if set then
    w ← at_ (masks_ m) (cell_index m row col);
    mret (Z.land (Z.shiftr w shift) width)
  else mret origMask.

(** The selection of the E and F cases; [open_] and [extend] are the two
    transitions, [setter] is [eMaskSet] or [fMaskSet]. *)
Definition select2 (setter : SSEMatrix -> Z -> Z -> Z -> outcome SSEMatrix)
    (open_ extend : SW_BT) (m : SSEMatrix) (row col : Z)
    (mask origMask : Z) (rand : RandomSource) (o : cell_out) : outcome cell_state :=
  if mask =? 3 then
    let '(u, rand') := nextU2 rand in
    if negb (u =? 0) then
      m' ← setter m row col 2;
      mret (m', rand', set_branch (set_cur o open_) true)
    else
      m' ← setter m row col 1;
      mret (m', rand', set_branch (set_cur o extend) true)
  else if mask =? 2 then
    m' ← setter m row col 0;
    mret (m', rand, set_cur o extend)
  else if mask =? 1 then
    m' ← setter m row col 0;
    mret (m', rand, set_cur o open_)
  else
    mret (m, rand, set_canMoveThru (set_empty o true) (origMask =? 0)).

Definition analyzeE (m : SSEMatrix) (sc : Scoring) (row col : Z)
    (offsetsc floorsc : Z) (rand : RandomSource) (o : cell_out) : outcome cell_state :=
  '(sc_cur, origMask) ← origMaskE m sc row col offsetsc floorsc;
  _ ← assert_ assertions ((0 <? origMask) || (sc_cur <=? match_ sc));
  set ← isEMaskSet m row col;
  mask ← working_mask set m row col 8 3 origMask;
  '(m', rand', o') ← select2 eMaskSet SW_BT_OALL_READ_OPEN SW_BT_RDGAP_EXTEND
                       m row col mask origMask rand o;
  _ ← assert_ assertions (negb (empty o') || negb (canMoveThru o'));
  mret (m', rand', o').

Definition analyzeF (m : SSEMatrix) (sc : Scoring) (row col : Z)
    (offsetsc floorsc : Z) (rand : RandomSource) (o : cell_out) : outcome cell_state :=
  '(sc_cur, origMask) ← origMaskF m sc row col offsetsc floorsc;
  _ ← assert_ assertions ((0 <? origMask) || (sc_cur <=? match_ sc));
  set ← isFMaskSet m row col;
  mask ← working_mask set m row col 11 3 origMask;
  '(m', rand', o') ← select2 fMaskSet SW_BT_OALL_REF_OPEN SW_BT_RFGAP_EXTEND
                       m row col mask origMask rand o;
  _ ← assert_ assertions (negb (empty o') || negb (canMoveThru o'));
  mret (m', rand', o').

(** [if(select != -1) { cur = ... } else { empty = true; canMoveThru = ... }] *)
Definition transitionH (select origMask : Z) (o : cell_out) : outcome cell_out :=
  if negb (select =? -1) then
    if select =? 4 then mret (set_cur o SW_BT_OALL_DIAG)
    else if select =? 0 then mret (set_cur o SW_BT_OALL_REF_OPEN)
    else if select =? 1 then mret (set_cur o SW_BT_OALL_READ_OPEN)
    else if select =? 2 then mret (set_cur o SW_BT_RFGAP_EXTEND)
    else
      _ ← assert_ assertions (3 =? select);
      mret (set_cur o SW_BT_RDGAP_EXTEND)
  else mret (set_canMoveThru (set_empty o true) (origMask =? 0)).

(** The selection of the H case, from [int opts = alts5[mask]] on. *)
Definition selectH (m : SSEMatrix) (sc : Scoring) (row col : Z)
    (mask origMask : Z) (rand : RandomSource) (o : cell_out) : outcome cell_state :=
  opts ← at_ alts5 mask;
  if opts =? 1 then
    select ← at_ firsts5 mask;
    _ ← assert_ assertions (0 <=? mask);
    m' ← hMaskSet m row col 0;
    o' ← transitionH select origMask o;
    mret (m', rand, o')
  else if 1 <? opts then
    let '(select, rand') := randFromMask rand mask in
    _ ← assert_ assertions (0 <=? mask);
    let mask' := Z.land mask (Z.lnot (s32 (Z.shiftl 1 select))) in
    _ ← assert_ assertions
          (gapsAllowed m sc row || (mask' =? Z.shiftl 1 4) || (mask' =? 0));
    m' ← hMaskSet m row col mask';
    o' ← transitionH select origMask (set_branch o true);
    mret (m', rand', o')
  else
    o' ← transitionH (-1) origMask o;
    mret (m, rand, o').

Definition analyzeH (m : SSEMatrix) (sc : Scoring) (row col ct : Z)
    (refc readc readq : Z) (offsetsc floorsc : Z)
    (rand : RandomSource) (o : cell_out) : outcome cell_state :=
  '(sc_cur, origMask) ← origMaskH m sc row col ct refc readc readq offsetsc floorsc;
  _ ← assert_ assertions ((0 <? origMask) || (sc_cur <=? match_ sc));
  set ← isHMaskSet m row col;
  mask ← working_mask set m row col 2 31 origMask;
  _ ← assert_ assertions
        (gapsAllowed m sc row || (mask =? Z.shiftl 1 4) || (mask =? 0));
  selectH m sc row col mask origMask rand o.

Definition analyzeCell (m : SSEMatrix) (row col ct : Z) (refc readc readq : Z)
    (sc : Scoring) (offsetsc floorsc : Z) (rand : RandomSource)
    (o : cell_out) : outcome cell_state :=
  rt ← reportedThrough m row col;
  let o := set_canMoveThru (set_reportedThru o rt) true in
  if rt then mret (m, rand, set_canMoveThru o false) else
  let o := set_empty o false in
  if row =? 0 then mret (m, rand, o) else
  _ ← assert_ assertions (0 <? row);
  '(m', rand', o') ←
    (if ct =? E then analyzeE m sc row col offsetsc floorsc rand o
     else if ct =? F then analyzeF m sc row col offsetsc floorsc rand o
     else analyzeH m sc row col ct refc readc readq offsetsc floorsc rand o);
  _ ← assert_ assertions (negb (empty o') || negb (canMoveThru o') || (ct =? H));
  mret (m', rand', o').

End AnalyzeCell.

(** ** scoring.cpp *)

(** The [while(sc >= minsc)] loop of [maxReadGaps]; [fuel] bounds the number
    of iterations the model follows. The result is [num] at the exit. *)
Fixpoint maxReadGaps_loop (fuel : nat) (sc : Scoring) (minsc : Z)
    (s : Z) (first : bool) (num : Z) : outcome Z :=
  match fuel with
  | O => Stop OutOfFuel
  | S fuel' =>
    if minsc <=? s then
      let s := s64 (s - match_ sc) in
      let s := if first then s64 (s - readGapOpen sc)
               else s64 (s - readGapExtend sc) in
      maxReadGaps_loop fuel' sc minsc s false (s32 (num + 1))
    else Ret num
  end.

Definition maxReadGaps (fuel : nat) (sc : Scoring) (minsc rdlen : Z) : outcome Z :=
  let s := s64 (usz (rdlen * usz (match_ sc))) in
  _ ← assert_ assertions (minsc <=? s);
  num ← maxReadGaps_loop fuel sc minsc s true 0;
  _ ← assert_ assertions (0 <? num);
  mret (s32 (num - 1)).

(** The loop of [maxRefGaps]: no match is given up for a reference gap. *)
Fixpoint maxRefGaps_loop (fuel : nat) (sc : Scoring) (minsc : Z)
    (s : Z) (first : bool) (num : Z) : outcome Z :=
  match fuel with
  | O => Stop OutOfFuel
  | S fuel' =>
    if minsc <=? s then
      let s := if first then s64 (s - refGapOpen sc)
               else s64 (s - refGapExtend sc) in
      maxRefGaps_loop fuel' sc minsc s false (s32 (num + 1))
    else Ret num
  end.

Definition maxRefGaps (fuel : nat) (sc : Scoring) (minsc rdlen : Z) : outcome Z :=
  let s := s64 (usz (rdlen * usz (match_ sc))) in
  _ ← assert_ assertions (minsc <=? s);
  num ← maxRefGaps_loop fuel sc minsc s true 0;
  _ ← assert_ assertions (0 <? num);
  mret (s32 (num - 1)).

(** *** C [float]: IEEE-754 binary32, round to nearest even *)

Definition f32_add : spec_float -> spec_float -> spec_float := SFadd 24 128.
Definition f32_mul : spec_float -> spec_float -> spec_float := SFmul 24 128.
(** [x < y]; false when either side is a NaN. *)
Definition f32_ltb : spec_float -> spec_float -> bool := SFltb.
(** The conversion [(float)n] of an integer. *)
Definition f32_of_Z (n : Z) : spec_float := binary_normalize 24 128 n 0 false.
Definition f32_zero : spec_float := S754_zero false.               (* 0.0f *)
Definition f32_one : spec_float := S754_finite false 8388608 (-23). (* 1.0f *)

(** A [BTDnaString] is the list of its base codes (A, C, G, T = 0..3, N = 4). *)
Definition BTDnaString : Type := list Z.

(** The [for] loop of [nFilter] from position [i] on, [rd] being the bases
    from [i] to the end and [ns] the count so far. *)
Fixpoint nFilter_loop (maxns : spec_float) (rd : BTDnaString) (ns : spec_float) : bool :=
  match rd with
  | [] => true
  | c :: rd' =>
    if c =? 4 then
      let ns := f32_add ns f32_one in
      if f32_ltb maxns ns then false else nFilter_loop maxns rd' ns
    else nFilter_loop maxns rd' ns
  end.

Definition nFilter (sc : Scoring) (rd : BTDnaString) : outcome bool :=
  let ns := f32_zero in
  let rdlen := Z.of_nat (length rd) in
  let maxns := f32_add (nCeilConst sc) (f32_mul (nCeilLinear sc) (f32_of_Z rdlen)) in
  let maxns := if f32_ltb maxns f32_zero then f32_zero else maxns in
  _ ← assert_ assertions (0 <? Z.of_nat (length rd));
  mret (nFilter_loop maxns rd ns).

(** One [for] loop of the [ncatpair] case: [None] is the early [return],
    [Some ns] the count the loop ends with. *)
Fixpoint nFilterPair_loop (maxns : spec_float) (rd : BTDnaString) (ns : Z) : option Z :=
  match rd with
  | [] => Some ns
  | c :: rd' =>
    let ns := if c =? 4 then usz (ns + 1) else ns in
    if f32_ltb maxns (f32_of_Z ns) then None else nFilterPair_loop maxns rd' ns
  end.

(** [rd1], [rd2]: [None] is the null pointer. The result is [(filt1, filt2)]. *)
Definition nFilterPair (sc : Scoring) (rd1 rd2 : option BTDnaString)
  : outcome (bool * bool) :=
  match rd1, rd2, ncatpair sc with
  | Some r1, Some r2, true =>
    let rdlen1 := Z.of_nat (length r1) in
    let rdlen2 := Z.of_nat (length r2) in
    let maxns := f32_add (nCeilConst sc)
                   (f32_mul (nCeilLinear sc) (f32_of_Z (usz (rdlen1 + rdlen2)))) in
    match nFilterPair_loop maxns r1 0 with
    | None => mret (false, false)
    | Some ns =>
      match nFilterPair_loop maxns r2 ns with
      | None => mret (false, false)
      | Some _ => mret (true, true)
      end
    end
  | _, _, _ =>
    filt1 ← match rd1 with Some r1 => nFilter sc r1 | None => mret false end;
    filt2 ← match rd2 with Some r2 => nFilter sc r2 | None => mret false end;
    mret (filt1, filt2)
  end.

End Build.

Arguments analyzeCell assertions {RandomSource} nextU2 randFromMask score
  m row col ct refc readc readq sc offsetsc floorsc rand o.
Arguments analyzeH assertions {RandomSource} randFromMask score
  m sc row col ct refc readc readq offsetsc floorsc rand o.
Arguments analyzeE assertions {RandomSource} nextU2 m sc row col offsetsc floorsc rand o.
Arguments analyzeF assertions {RandomSource} nextU2 m sc row col offsetsc floorsc rand o.
Arguments selectH assertions {RandomSource} randFromMask m sc row col mask origMask rand o.
Arguments select2 {RandomSource} nextU2 setter open_ extend m row col mask origMask rand o.

(** ** Auxiliary notions for the statements *)

(** A mask word after a setter, as a function of the word before. *)
Definition updated (w clr bits : Z) : Z :=
  u16 (Z.lor (u16 (Z.land w (Z.lnot clr))) bits).

(** The H field of a word: [(w >> 2) & 31]. *)
Definition hfield (w : Z) : Z := Z.land (Z.shiftr w 2) 31.

(** The two tables in the document's words: the number of set bits of a
    5-bit mask, and the index of its lowest set bit (-1 when there is none). *)
Definition popcount5 (mask : Z) : Z :=
  foldr (fun i n => (if Z.testbit mask i then 1 else 0) + n) 0 [0; 1; 2; 3; 4].

Definition lowest_bit5 (mask : Z) : Z :=
  foldr (fun i r => if Z.testbit mask i then i else r) (-1) [0; 1; 2; 3; 4].

(** The predecessor mask [analyzeCell] computes from the scores for a cell
    of type [ct] ([origMask], with [sc_cur]), and the mask its selection then
    works on: the stored field when the cell's initialised bit is set. *)
Definition origMask_of (assertions : bool) (score : Scoring -> Z -> Z -> Z -> Z)
    (m : SSEMatrix) (sc : Scoring) (row col ct refc readc readq : Z)
    (offsetsc floorsc : Z) : outcome (Z * Z) :=
  if ct =? E then origMaskE assertions m sc row col offsetsc floorsc
  else if ct =? F then origMaskF assertions m sc row col offsetsc floorsc
  else origMaskH assertions score m sc row col ct refc readc readq offsetsc floorsc.

Definition mask_lookup (m : SSEMatrix) (row col ct origMask : Z) : outcome Z :=
  if ct =? E then
    set ← isEMaskSet m row col; working_mask set m row col 8 3 origMask
  else if ct =? F then
    set ← isFMaskSet m row col; working_mask set m row col 11 3 origMask
  else
    set ← isHMaskSet m row col; working_mask set m row col 2 31 origMask.

(** Modelled from the spec: the body of [initMasks] is not among the sources.
    It zeroes the entire array of mask words, one word per cell. *)
Definition initMasks (m : SSEMatrix) : SSEMatrix :=
  with_masks m (repeat 0 (Z.to_nat (nrow_ m * ncol_ m))).

(** The dimensions fit [size_t], so that [row * ncol_ + col] does not wrap. *)
Definition dims_ok (m : SSEMatrix) : Prop :=
  0 <= nrow_ m /\ 0 <= ncol_ m /\ nrow_ m * ncol_ m < 2 ^ 64.

(** Every stored H mask of a row in which gaps are not allowed is the
    diagonal-only mask or the empty mask. *)
Definition barrier_masks_ok (m : SSEMatrix) (sc : Scoring) : Prop :=
  forall row col w,
    0 <= row < nrow_ m -> 0 <= col < ncol_ m ->
    gapsAllowed m sc row = false ->
    masks_ m !! Z.to_nat (cell_index m row col) = Some w ->
    Z.land w (Z.shiftl 1 1) <> 0 ->
    hfield w = Z.shiftl 1 4 \/ hfield w = 0.

(** What a step keeps: the dimensions and the invariant of the barrier rows. *)
Definition kept (sc : Scoring) (m m' : SSEMatrix) : Prop :=
  nrow_ m' = nrow_ m /\ ncol_ m' = ncol_ m /\
  (barrier_masks_ok m sc -> barrier_masks_ok m' sc).

Section Backtracing.
Context {RandomSource : Type}.
Variable assertions : bool.
Variable nextU2 : RandomSource -> Z * RandomSource.
Variable randFromMask : RandomSource -> Z -> Z * RandomSource.
Variable score : Scoring -> Z -> Z -> Z -> Z.
Variable sc : Scoring.

(** The states of the mask array during the backtraces of one DP fill of
    the matrix [m0]: [initMasks], then calls of [analyzeCell] and of
    [setReportedThrough] on cells of the matrix. *)
Inductive backtrace_state (m0 : SSEMatrix) : SSEMatrix -> Prop :=
| bs_init : backtrace_state m0 (initMasks m0)
| bs_analyze m row col ct refc readc readq offsetsc floorsc rand o m' rand' o' :
    backtrace_state m0 m ->
    0 <= row < nrow_ m -> 0 <= col < ncol_ m ->
    analyzeCell assertions nextU2 randFromMask score m row col ct refc readc
      readq sc offsetsc floorsc rand o = Ret (m', rand', o') ->
    backtrace_state m0 m'
| bs_report m row col m' :
    backtrace_state m0 m ->
    0 <= row < nrow_ m -> 0 <= col < ncol_ m ->
    setReportedThrough m row col = Ret m' ->
    backtrace_state m0 m'.

End Backtracing.

(** *** The striped layout of the design document *)

(** The mapping of a logical row to its striped index and its lane, for
    stride [S]: [(row mod S, row / S)]. *)
Definition striped (S row : Z) : Z * Z := (row mod S, row / S).

(** The number of the vector that holds quartet slot [slot] of striped row
    [sidx] in column [col]: a cell is four vectors, a column [S] cells. *)
Definition vector_at (S col sidx slot : Z) : Z := col * (S * 4) + sidx * 4 + slot.

(** Lane [lane] of vector [v]: an unsigned byte when the vector holds
    sixteen words, a signed little-endian halfword when it holds eight. *)
Definition lane_u8 (buf : list Z) (v lane : Z) : outcome Z :=
  at_ buf (16 * v + lane).

Definition lane_s16 (buf : list Z) (v lane : Z) : outcome Z :=
  lo ← at_ buf (16 * v + 2 * lane);
  hi ← at_ buf (16 * v + 2 * lane + 1);
  mret (s16 (lo + 256 * hi)).

(** The element of cell [(row, col)] of matrix [mat] as the design document
    places it. *)
Definition striped_elt (m : SSEMatrix) (row col mat : Z) : outcome Z :=
  let '(sidx, lane) := striped (nvecrow_ m) row in
  let v := vector_at (nvecrow_ m) col sidx mat in
  if wperv_ m =? 16 then lane_u8 (bufal_ m) v lane
  else lane_s16 (bufal_ m) v lane.

(** Modelled from the spec: the body of [init] is not among the sources.
    What it establishes: [wperv] is 16 or 8, [nvecrow = ceil(nrow / wperv)],
    the stride between columns is [nvecrow * 4] vectors and between striped
    rows 4 vectors, and the buffer holds the vectors of all columns. *)
Definition init_layout (m : SSEMatrix) : Prop :=
  inited_ m = true /\
  (wperv_ m = 16 \/ wperv_ m = 8) /\
  0 < nrow_ m /\ 0 < ncol_ m /\
  nvecrow_ m = (nrow_ m + (wperv_ m - 1)) / wperv_ m /\
  colstride_ m = nvecrow_ m * 4 /\
  rowstride_ m = 4 /\
  16 * (ncol_ m * colstride_ m) <= Z.of_nat (length (bufal_ m)) /\
  16 * (ncol_ m * colstride_ m) < 2 ^ 64 /\
  Forall (fun b => 0 <= b < 256) (bufal_ m).

(** *** The gap bounds of the design document *)

(** The algorithm in the document's words, on unbounded integers: start from
    [s = read_len * match]; until [s < min_score], subtract [loss] (one
    match) and then the open cost for the first gap or the extend cost for
    a later one, counting; the caller returns the count minus one. [None]
    when [fuel] iterations do not reach the exit. *)
Fixpoint gap_loop (fuel : nat) (loss open_ extend minsc s : Z) (first : bool)
    (count : Z) : option Z :=
  match fuel with
  | O => None
  | S fuel' =>
    if s <? minsc then Some count
    else
      let s := s - loss in
      let s := if first then s - open_ else s - extend in
      gap_loop fuel' loss open_ extend minsc s false (count + 1)
  end.

(** The document's [max_ref_gaps]: one match is subtracted for every gap. *)
Definition spec_max_ref_gaps (fuel : nat) (sc : Scoring) (minsc rdlen : Z) : option Z :=
  count ← gap_loop fuel (match_ sc) (refGapOpen sc) (refGapExtend sc) minsc
            (rdlen * match_ sc) true 0;
  Some (count - 1).

(** The same algorithm without the subtraction of a match. *)
Definition ref_gaps_no_match_loss (fuel : nat) (sc : Scoring) (minsc rdlen : Z)
  : option Z :=
  count ← gap_loop fuel 0 (refGapOpen sc) (refGapExtend sc) minsc
            (rdlen * match_ sc) true 0;
  Some (count - 1).

(** The score of an alignment of [start / match] positions, all matches,
    with [k] gaps, each of which gives up [loss]: affine cost
    [open + (k - 1) * extend] for [k >= 1]. *)
Definition gapped_score (start loss open_ extend k : Z) : Z :=
  if k <=? 0 then start
  else start - k * loss - (open_ + (k - 1) * extend).

(** The score [j] gaps after a state [(s, first)] of the loop. *)
Definition after_gaps (loss open_ extend s : Z) (first : bool) (j : Z) : Z :=
  if j <=? 0 then s
  else s - j * loss - (if first then open_ + (j - 1) * extend else j * extend).

(** The two scoring schemes of the tests in [scoring.cpp]; the gap costs
    are those the comments of the tests compute with. [0.1f] and [0.4f]
    are the binary32 values nearest to 0.1 and 0.4. *)
Definition bwaSwLike : Scoring :=
  mkScoring 1 5 15 4 15 4
    (S754_finite false 8388608 (-22))     (* 2.0f *)
    (S754_finite false 13421773 (-27))    (* 0.1f *)
    false.

Definition scoring_case2 : Scoring :=
  mkScoring 4 5 35 10 35 10
    (S754_finite false 12582912 (-22))    (* 3.0f *)
    (S754_finite false 13421773 (-25))    (* 0.4f *)
    true.

(** *** A small matrix for the examples

    Three rows, two columns, sixteen byte lanes per vector, so one striped
    row: a column is one quartet of vectors (64 bytes), and the H vector of
    column [c] starts at byte [64 * c + 32], row [r] being its byte [r].
    H(0,0) = H(1,0) = 1 and H(1,1) = H(2,1) = 2; all other elements are 0. *)
Definition demo_matrix : SSEMatrix :=
  mkSSEMatrix true 3 2 1 2 16 4 1 4 4 4
    (repeat 0 6)
    (<[98%nat := 2]> (<[97%nat := 2]> (<[33%nat := 1]> (<[32%nat := 1]>
       (repeat 0 128))))).

(** Gap barrier 1: in the three rows of [demo_matrix], gaps are allowed in
    row 1 only. *)
Definition demo_scoring : Scoring :=
  mkScoring 1 1 5 3 5 3
    (S754_finite false 8388608 (-22))     (* 2.0f *)
    (S754_finite false 13421773 (-27))    (* 0.1f *)
    false.

(** Stand-ins for the parameters of [analyzeCell] in the examples: a
    random source that always draws 0, and match 1 / mismatch -1. *)
Definition demo_nextU2 (r : unit) : Z * unit := (0, r).
Definition demo_randFromMask (r : unit) (mask : Z) : Z * unit := (0, r).
Definition demo_score (sc : Scoring) (readc refc q : Z) : Z :=
  if readc =? refc then match_ sc else -1.
Definition demo_out : cell_out := mkOut false SW_BT_RDGAP_EXTEND false false false.

(** *** Values of binary32 numbers

    A finite binary32 number is [m * 2^e] with [e >= -149]: it is a whole
    number of units of [2^-149]. [f32_floor] is the floor of the value,
    [f32_finite] says that the number is a zero or a well-formed finite
    number (no infinity, no NaN), and [f32_int n] is the number that
    represents the integer [n] of at most 24 bits exactly. *)
Definition f32_units (x : spec_float) : Z :=
  match x with
  | S754_finite s m e => cond_Zopp s (Zpos m * 2 ^ (e + 149))
  | _ => 0
  end.
Definition f32_floor (x : spec_float) : Z := f32_units x / 2 ^ 149.
Definition f32_finite (x : spec_float) : bool :=
  match x with
  | S754_zero _ => true
  | S754_finite _ m e => bounded 24 128 m e
  | _ => false
  end.
Definition f32_int (n : Z) : spec_float :=
  match n with
  | Zpos p => S754_finite false (Pos.shiftl_nat p (24 - Pos.size_nat p))
                (Z.of_nat (Pos.size_nat p) - 24)
  | _ => S754_zero false
  end.


(** The number of Ns (code 4) of a read. *)
Fixpoint countN (rd : BTDnaString) : Z :=
  match rd with
  | [] => 0
  | c :: rd' => (if c =? 4 then 1 else 0) + countN rd'
  end.

(** [nCeilConst + nCeilLinear * len], computed in [float]. *)
Definition nCeil_f32 (sc : Scoring) (len : Z) : spec_float :=
  f32_add (nCeilConst sc) (f32_mul (nCeilLinear sc) (f32_of_Z len)).

(** * The rest of [aligner_swsse.h] *)

(** ** struct SSEMetrics

    Fourteen [uint64_t] counters. [merge] takes its lock through
    [ThreadSafe]; the model is the effect on the counters. *)
Record SSEMetrics : Type := mkSSEMetrics {
  dp : Z; dpsat : Z; dpfail : Z; dpsucc : Z;
  col : Z; cell : Z; inner : Z; fixup : Z;
  gathcell : Z; gathsol : Z;
  bt : Z; btfail : Z; btsucc : Z; btcell : Z
}.

Definition u64 (z : Z) : Z := z mod 2 ^ 64.

Definition SSEMetrics_reset (this : SSEMetrics) : SSEMetrics :=
  mkSSEMetrics 0 0 0 0 0 0 0 0 0 0 0 0 0 0.

Definition SSEMetrics_clear (this : SSEMetrics) : SSEMetrics :=
  SSEMetrics_reset this.

(** [this->x += o.x] for every counter. *)
Definition SSEMetrics_merge (this o : SSEMetrics) : SSEMetrics :=
  mkSSEMetrics
    (u64 (dp this + dp o)) (u64 (dpsat this + dpsat o))
    (u64 (dpfail this + dpfail o)) (u64 (dpsucc this + dpsucc o))
    (u64 (col this + col o)) (u64 (cell this + cell o))
    (u64 (inner this + inner o)) (u64 (fixup this + fixup o))
    (u64 (gathcell this + gathcell o)) (u64 (gathsol this + gathsol o))
    (u64 (bt this + bt o)) (u64 (btfail this + btfail o))
    (u64 (btsucc this + btsucc o)) (u64 (btcell this + btcell o)).

(** Every counter is a [uint64_t] value. *)
Definition SSEMetrics_ok (x : SSEMetrics) : Prop :=
  Forall (fun c => 0 <= c < 2 ^ 64)
    [dp x; dpsat x; dpfail x; dpsucc x; col x; cell x; inner x; fixup x;
     gathcell x; gathsol x; bt x; btfail x; btsucc x; btcell x].

(** ** The vector accessors of SSEMatrix

    A [__m128i*] into the buffer is the number of the vector it points to
    (the pointer minus [bufal_]); a [void*] is a byte offset from [bufal_]. *)
Section Accessors.
Variable assertions : bool.

Definition ptr (m : SSEMatrix) : outcome Z :=
  _ ← assert_ assertions (inited_ m);
  mret 0.

Definition rowstride (m : SSEMatrix) : Z := rowstride_ m.
Definition colstride (m : SSEMatrix) : Z := colstride_ m.

(** [ptr() + row * rowstride() + col * colstride() + slot], after the two
    assertions; [col_ok] is what is asserted of [col]. *)
Definition vec_at (m : SSEMatrix) (col_ok : bool) (row col slot : Z) : outcome Z :=
  _ ← assert_ assertions (row <? nvecrow_ m);
  _ ← assert_ assertions col_ok;
  p ← ptr m;
  mret (p + usz (row * rowstride m) + usz (col * colstride m) + slot).

Definition evec (m : SSEMatrix) (row col : Z) : outcome Z :=
  vec_at m (col <? nveccol_ m) row col E.
Definition evecUnsafe (m : SSEMatrix) (row col : Z) : outcome Z :=
  vec_at m (col <=? nveccol_ m) row col E.
Definition fvec (m : SSEMatrix) (row col : Z) : outcome Z :=
  vec_at m (col <? nveccol_ m) row col F.
Definition hvec (m : SSEMatrix) (row col : Z) : outcome Z :=
  vec_at m (col <? nveccol_ m) row col H.
Definition tmpvec (m : SSEMatrix) (row col : Z) : outcome Z :=
  vec_at m (col <? nveccol_ m) row col TMP.
Definition tmpvecUnsafe (m : SSEMatrix) (row col : Z) : outcome Z :=
  vec_at m (col <=? nveccol_ m) row col TMP.

(** [eltptr]: [&bufal_[eltvec] + rowelt] is arithmetic on a [__m128i*], so
    [rowelt] counts vectors; the result, a [void*], is given in bytes. *)
Definition eltptr (m : SSEMatrix) (row col mat : Z) : outcome Z :=
  _ ← assert_ assertions (inited_ m);
  _ ← assert_ assertions (row <? nrow_ m);
  _ ← assert_ assertions (col <? ncol_ m);
  _ ← assert_ assertions (mat <? 3);
  if nvecrow_ m =? 0 then Stop DivisionByZero else
  let rowelt := row / nvecrow_ m in
  let rowvec := row mod nvecrow_ m in
  let eltvec := usz (usz (usz (col * colstride_ m) + usz (rowvec * rowstride_ m)) + mat) in
  mret (16 * (eltvec + rowelt)).

End Accessors.

Definition nrow (m : SSEMatrix) : Z := nrow_ m.
Definition ncol (m : SSEMatrix) : Z := ncol_ m.

(** The byte at which [elt] starts to read lane [lane] of vector [v]: lanes
    are [16 / wperv] bytes wide. *)
Definition lane_byte (wperv v lane : Z) : Z := 16 * v + (16 / wperv) * lane.

(** The stored E and F masks as [analyzeCell] reads them. *)
Definition efield (w : Z) : Z := Z.land (Z.shiftr w 8) 3.
Definition ffield (w : Z) : Z := Z.land (Z.shiftr w 11) 3.

(** The mask word of a cell. *)
Definition mask_word (m : SSEMatrix) (row col : Z) : option Z :=
  masks_ m !! Z.to_nat (cell_index m row col).


(** ** Notions for the statements about [analyzeCell] *)

(** The bits of the mask word that belong to a cell type: the initialised
    bit and the mask of E (7..9), of F (10..12) and of H (1..6). *)
Definition field_bits (ct : Z) : Z * Z :=
  if ct =? E then (7, 10) else if ct =? F then (10, 13) else (1, 7).

(** [m'] is [m], or [m] with bits [lo .. hi - 1] of the word of cell
    [(row, col)] rewritten and nothing else. *)
Definition rewrites_bits (lo hi : Z) (m m' : SSEMatrix) (row col : Z) : Prop :=
  m' = m \/
  exists w w', mask_word m row col = Some w /\
    m' = with_masks m (<[Z.to_nat (cell_index m row col) := w']> (masks_ m)) /\
    0 <= w' < 2 ^ 16 /\
    forall i, 0 <= i < 16 -> ~ lo <= i < hi -> Z.testbit w' i = Z.testbit w i.

(** The two transitions of a gap cell (E: read gap, F: reference gap): bit 0
    of its mask is the gap open from H, bit 1 the gap extension. *)
Definition gap_open (ct : Z) : SW_BT :=
  if ct =? E then SW_BT_OALL_READ_OPEN else SW_BT_OALL_REF_OPEN.
Definition gap_extend (ct : Z) : SW_BT :=
  if ct =? E then SW_BT_RDGAP_EXTEND else SW_BT_RFGAP_EXTEND.
Definition gap_init_bit (ct : Z) : Z := if ct =? E then 7 else 10.

(** The transition of an H cell for bit [k] of its mask. *)
Definition h_transition (k : Z) : SW_BT :=
  if k =? 4 then SW_BT_OALL_DIAG
  else if k =? 0 then SW_BT_OALL_REF_OPEN
  else if k =? 1 then SW_BT_OALL_READ_OPEN
  else if k =? 2 then SW_BT_RFGAP_EXTEND
  else SW_BT_RDGAP_EXTEND.

(** What the selection of [analyzeCell] does to the out-parameters and to
    the random source: [reportedThru] is kept; [branch] is kept, with the
    random source, or set; and a call either keeps [empty] and
    [canMoveThru] (it assigns a transition) or sets [empty] and keeps
    [cur]. *)
Definition selection_ok {R : Type} (rand rand' : R) (o o' : cell_out) : Prop :=
  reportedThru o' = reportedThru o /\
  (rand' = rand /\ branch o' = branch o \/ branch o' = true) /\
  (empty o' = empty o /\ canMoveThru o' = canMoveThru o \/
   empty o' = true /\ cur o' = cur o).

(** The matrix with the word of cell [(row, col)] replaced. *)
Definition set_word (m : SSEMatrix) (row col w : Z) : SSEMatrix :=
  with_masks m (<[Z.to_nat (cell_index m row col) := w]> (masks_ m)).

(** The word of a gap cell after its setter ([eMaskSet] for E, [fMaskSet]
    for F) has stored [mask], and the field the cell type reads. *)
Definition gap_word_set (ct w mask : Z) : Z :=
  if ct =? E
  then updated w (Z.shiftl 7 7) (Z.lor (Z.shiftl 1 7) (s32 (Z.shiftl mask 8)))
  else updated w (Z.shiftl 7 10) (Z.lor (Z.shiftl 1 10) (s32 (Z.shiftl mask 11))).
Definition gap_field (ct w : Z) : Z := if ct =? E then efield w else ffield w.

(** The word of a cell after [hMaskSet] has stored [mask]. *)
Definition h_word_set (w mask : Z) : Z :=
  updated w (Z.shiftl 31 1) (Z.lor (Z.shiftl 1 1) (s32 (Z.shiftl mask 2))).

(** The out-parameters of a call of [analyzeCell] that found transition [c],
    and of a call that found the cell exhausted. *)
Definition found (c : SW_BT) (br : bool) : cell_out := mkOut false c br true false.
Definition exhausted (o : cell_out) : cell_out :=
  mkOut true (cur o) (branch o) false false.

(** A second matrix for the examples, with gap cells: the layout of
    [demo_matrix]; F(0,0) = 7, F(1,0) = 4 and H(0,0) = 9, so that with open
    cost 5 and extension cost 3 the F cell (1,0) has both predecessors;
    E(1,0) = 7, H(1,0) = 9 and E(1,1) = 4, so that the same holds of the
    E cell (1,1). *)
Definition demo_gap_matrix : SSEMatrix :=
  mkSSEMatrix true 3 2 1 2 16 4 1 4 4 4
    (repeat 0 6)
    (<[65%nat := 4]> (<[33%nat := 9]> (<[32%nat := 9]> (<[17%nat := 4]>
       (<[16%nat := 7]> (<[1%nat := 7]> (repeat 0 128))))))).

(** The read [elt] makes at byte [b] of the buffer: an unsigned byte when a
    vector holds sixteen words, a signed little-endian halfword otherwise. *)
Definition read_word (buf : list Z) (wperv b : Z) : outcome Z :=
  if wperv =? 16 then at_ buf b
  else lo ← at_ buf b; hi ← at_ buf (b + 1); mret (s16 (lo + 256 * hi)).

(** ** Notions for the statements about [scoring.cpp] *)

(** The gap bound in closed form: no gap fits when already the first one
    (which gives up [loss] and costs [open_]) takes the score below
    [minsc]; otherwise one gap and as many more as whole steps of
    [loss + extend] fit above [minsc]. *)
Definition gap_bound (start loss open_ extend minsc : Z) : Z :=
  if start - loss - open_ <? minsc then 0
  else (start - loss - open_ - minsc) / (loss + extend) + 1.

(** A NaN or plus infinity: a ceiling that no count exceeds. *)
Definition f32_unbounded (x : spec_float) : bool :=
  match x with
  | S754_nan => true
  | S754_infinity false => true
  | _ => false
  end.

(** A scoring scheme whose ceiling is plus infinity, for the examples. *)
Definition scoring_no_ceiling : Scoring :=
  mkScoring 1 5 15 4 15 4 (S754_infinity false) f32_zero true.

(** A scoring scheme with the negative ceiling -1, with [ncatpair], for the
    examples. *)
Definition scoring_negative_ceiling : Scoring :=
  mkScoring 1 5 15 4 15 4 (S754_finite true 8388608 (-23)) f32_zero true.

(** [demo_matrix] with H(0,1) = 7: with reference-gap open cost 5, the H
    cell (1,1), of score 2, has the diagonal (from H(0,0) = 1, match 1) and
    the reference-gap open (from H(0,1)) as predecessors. *)
Definition demo_branch_matrix : SSEMatrix :=
  mkSSEMatrix true 3 2 1 2 16 4 1 4 4 4
    (repeat 0 6) (<[96%nat := 7]> (bufal_ demo_matrix)).
(** * Properties *)

(** ** Outcomes *)

Lemma bind_Ret {A B} (o : outcome A) (k : A -> outcome B) (b : B) :
  o ≫= k = Ret b -> exists a, o = Ret a /\ k a = Ret b.
Proof. destruct o as [a|f]; simpl; [eauto | discriminate]. Qed.

Lemma assert_Ret a c : assert_ a c = Ret tt <-> (a = true -> c = true).
Proof. unfold assert_. destruct a, c; simpl; intuition congruence. Qed.

Lemma assert_off c : assert_ false c = Ret tt.
Proof. reflexivity. Qed.

Lemma assert_holds a : assert_ a true = Ret tt.
Proof. destruct a; reflexivity. Qed.

Lemma at_Ret (l : list Z) (i x : Z) :
  at_ l i = Ret x <-> 0 <= i /\ l !! Z.to_nat i = Some x.
Proof.
  unfold at_. destruct (Z.ltb_spec i 0).
  - split; [discriminate | lia].
  - destruct (l !! Z.to_nat i) eqn:E; split; intros; try discriminate;
      intuition congruence.
Qed.

Lemma store_Ret (l : list Z) (i x : Z) :
  0 <= i -> is_Some (l !! Z.to_nat i) ->
  store_ l i x = Ret (<[Z.to_nat i := x]> l).
Proof.
  intros Hi Hs. apply lookup_lt_is_Some in Hs. unfold store_.
  destruct (Z.leb_spec 0 i); [|lia].
  destruct (Z.ltb_spec i (Z.of_nat (length l))); [reflexivity | lia].
Qed.

(** ** Bits of machine words *)

Lemma testbit_bounded w n i : 0 <= w < 2 ^ n -> n <= i -> Z.testbit w i = false.
Proof.
  intros [H0 H1] Hi. destruct (Z.eq_dec w 0) as [->|Hw]; [apply Z.bits_0|].
  assert (0 <= n) by (destruct (Z_lt_le_dec n 0); [rewrite Z.pow_neg_r in H1; lia|lia]).
  apply Z.bits_above_log2; [lia|].
  apply Z.lt_le_trans with n; [|lia]. apply Z.log2_lt_pow2; lia.
Qed.

Lemma bounded_of_testbit w n : 0 <= n -> 0 <= w ->
  (forall i, n <= i -> Z.testbit w i = false) -> w < 2 ^ n.
Proof.
  intros Hn Hw Hb. destruct (Z_lt_le_dec w (2 ^ n)); [done|].
  assert (0 < w) by (pose proof (Z.pow_pos_nonneg 2 n); lia).
  pose proof (Z.bit_log2 w ltac:(lia)) as Hl.
  rewrite Hb in Hl; [done|]. apply Z.log2_le_pow2; lia.
Qed.

Lemma bits_eq_below n a b :
  0 <= a < 2 ^ n -> 0 <= b < 2 ^ n ->
  (forall i, 0 <= i < n -> Z.testbit a i = Z.testbit b i) -> a = b.
Proof.
  intros Ha Hb Hbits. apply Z.bits_inj'. intros i Hi.
  destruct (Z_lt_le_dec i n); [apply Hbits; lia|].
  rewrite (testbit_bounded a n), (testbit_bounded b n); auto.
Qed.

Lemma lor_bound a b n :
  0 <= n -> 0 <= a < 2 ^ n -> 0 <= b < 2 ^ n -> 0 <= Z.lor a b < 2 ^ n.
Proof.
  intros Hn Ha Hb. assert (0 <= Z.lor a b) by (apply Z.lor_nonneg; lia).
  split; [done|]. apply bounded_of_testbit; [done..|].
  intros i Hi. rewrite Z.lor_spec, (testbit_bounded a n), (testbit_bounded b n); auto.
Qed.

Lemma land_bound_r a b n : 0 <= n -> 0 <= b < 2 ^ n -> 0 <= Z.land a b < 2 ^ n.
Proof.
  intros Hn Hb. assert (0 <= Z.land a b) by (apply Z.land_nonneg; lia).
  split; [done|]. apply bounded_of_testbit; [done..|].
  intros i Hi. rewrite Z.land_spec, (testbit_bounded b n), andb_false_r; auto.
Qed.

Lemma s32_small z : - 2 ^ 31 <= z < 2 ^ 31 -> s32 z = z.
Proof. intros. unfold s32. rewrite Z.mod_small; lia. Qed.

Lemma s64_small z : - 2 ^ 63 <= z < 2 ^ 63 -> s64 z = z.
Proof. intros. unfold s64. rewrite Z.mod_small; lia. Qed.

Lemma usz_small z : 0 <= z < 2 ^ 64 -> usz z = z.
Proof. intros. unfold usz. rewrite Z.mod_small; lia. Qed.

(** Bit [i] of a mask word after [w &= ~clr; w |= bits]. *)
Lemma update_testbit w clr bits i : 0 <= i < 16 ->
  Z.testbit (u16 (Z.lor (u16 (Z.land w (Z.lnot clr))) bits)) i
  = Z.testbit w i && negb (Z.testbit clr i) || Z.testbit bits i.
Proof.
  intros Hi. unfold u16.
  rewrite Z.mod_pow2_bits_low, Z.lor_spec, Z.mod_pow2_bits_low,
    Z.land_spec, Z.lnot_spec by lia.
  reflexivity.
Qed.

(** Goals that compare single bits at a literal position: the bits of the
    variables become booleans, those of the constants are computed. *)
Ltac norm_bit_index :=
  repeat match goal with
  | |- context [Z.testbit ?x ?k] =>
    is_var x; lazymatch k with Zpos _ => fail | Z0 => fail | _ => idtac end;
    let k' := eval cbv in k in change (Z.testbit x k) with (Z.testbit x k')
  end.

Ltac abstract_bits :=
  repeat match goal with
  | |- context [Z.testbit ?x ?k] => is_var x; generalize (Z.testbit x k); intro
  end.

Ltac solve_bits :=
  repeat first
    [ rewrite update_testbit by lia
    | rewrite Z.land_spec | rewrite Z.lor_spec
    | rewrite Z.shiftr_spec by lia | rewrite Z.shiftl_spec by lia ];
  norm_bit_index;
  repeat match goal with
  | |- context [Z.testbit ?x (Zneg ?p)] => change (Z.testbit x (Zneg p)) with false
  end;
  abstract_bits; cbv;
  repeat match goal with b : bool |- _ => destruct b end; reflexivity.

(** ** The mask setters *)

Lemma mask_update_Ret m row col clr bits w :
  masks_ m !! Z.to_nat (cell_index m row col) = Some w ->
  mask_update m row col clr bits
  = Ret (with_masks m (<[Z.to_nat (cell_index m row col) := updated w clr bits]> (masks_ m))).
Proof.
  intros Hw. unfold mask_update.
  assert (0 <= cell_index m row col) as Hi
    by (unfold cell_index, usz; apply Z.mod_pos_bound; lia).
  set (i := cell_index m row col) in *.
  assert (Z.to_nat i < length (masks_ m))%nat as Hlt by (eapply lookup_lt_Some; eauto).
  rewrite (proj2 (at_Ret _ _ w)) by auto. simpl.
  rewrite store_Ret by eauto. simpl.
  rewrite (proj2 (at_Ret _ _ (u16 (Z.land w (Z.lnot clr)))))
    by (split; [done | apply list_lookup_insert_eq; done]).
  simpl. rewrite store_Ret
    by (try done; rewrite list_lookup_insert_eq by done; eauto).
  simpl. rewrite list_insert_insert_eq. reflexivity.
Qed.

Lemma mask_update_inv m row col clr bits m' :
  mask_update m row col clr bits = Ret m' ->
  exists w, masks_ m !! Z.to_nat (cell_index m row col) = Some w /\
    m' = with_masks m (<[Z.to_nat (cell_index m row col) := updated w clr bits]> (masks_ m)).
Proof.
  intros Hu. destruct (masks_ m !! Z.to_nat (cell_index m row col)) as [w|] eqn:Hw.
  - exists w. split; [done|]. rewrite (mask_update_Ret _ _ _ _ _ w Hw) in Hu. congruence.
  - unfold mask_update in Hu. apply bind_Ret in Hu as (w & Hat & _).
    apply at_Ret in Hat as [_ Hat]. congruence.
Qed.

(** What [hMaskSet] leaves in the H field: bit 4 of the field (bit 6 of the
    word) is outside [~(31 << 1)], so it survives the clearing. *)
Lemma hfield_updated w mask : 0 <= mask < 32 ->
  hfield (updated w (Z.shiftl 31 1) (Z.lor (Z.shiftl 1 1) (s32 (Z.shiftl mask 2))))
  = Z.lor mask (Z.land (hfield w) 16).
Proof.
  intros Hm. unfold hfield, updated.
  rewrite s32_small by (rewrite Z.shiftl_mul_pow2 by lia; lia).
  apply (bits_eq_below 5).
  - apply (land_bound_r _ 31 5); lia.
  - apply lor_bound; [lia|lia|]. apply land_bound_r; lia.
  - intros i Hi.
    assert (i = 0 \/ i = 1 \/ i = 2 \/ i = 3 \/ i = 4)
      as [->|[->|[->|[->| ->]]]] by lia; solve_bits.
Qed.

Lemma hinit_updated w mask : 0 <= mask < 32 ->
  Z.land (updated w (Z.shiftl 31 1) (Z.lor (Z.shiftl 1 1) (s32 (Z.shiftl mask 2))))
         (Z.shiftl 1 1) = 2.
Proof.
  intros Hm. unfold updated.
  rewrite s32_small by (rewrite Z.shiftl_mul_pow2 by lia; lia).
  apply (bits_eq_below 2);
    [apply land_bound_r; [lia | change (Z.shiftl 1 1) with 2; lia] | lia |].
  intros i Hi. assert (i = 0 \/ i = 1) as [->| ->] by lia; solve_bits.
Qed.

(** Outside bits 1..6 [hMaskSet] changes nothing. *)
Lemma hset_other_bits w mask i : 0 <= mask < 32 -> 0 <= i < 16 -> i = 0 \/ 7 <= i ->
  Z.testbit (updated w (Z.shiftl 31 1) (Z.lor (Z.shiftl 1 1) (s32 (Z.shiftl mask 2)))) i
  = Z.testbit w i.
Proof.
  intros Hm Hi Hout. unfold updated.
  rewrite s32_small by (rewrite Z.shiftl_mul_pow2 by lia; lia).
  rewrite update_testbit by lia.
  change (Z.shiftl 31 1) with (Z.shiftl (Z.ones 5) 1).
  change (Z.shiftl 1 1) with (Z.shiftl (Z.ones 1) 1).
  rewrite Z.lor_spec, !Z.shiftl_spec by lia.
  destruct Hout as [->|Hge].
  - simpl. destruct (Z.odd w); reflexivity.
  - rewrite !Z.testbit_ones_nonneg by lia.
    rewrite (testbit_bounded mask 5) by lia.
    destruct (Z.ltb_spec (i - 1) 5), (Z.ltb_spec (i - 1) 1); try lia.
    destruct (Z.leb_spec 0 (i - 1)); [|lia].
    simpl. destruct (Z.testbit w i); reflexivity.
Qed.

(** [eMaskSet] and [fMaskSet] leave bits 0..6 of the word as they are. *)
Lemma eset_low_bits w mask i : 0 <= mask < 4 -> 0 <= i < 7 ->
  Z.testbit (updated w (Z.shiftl 7 7) (Z.lor (Z.shiftl 1 7) (s32 (Z.shiftl mask 8)))) i
  = Z.testbit w i.
Proof.
  intros Hm Hi. unfold updated.
  rewrite s32_small by (rewrite Z.shiftl_mul_pow2 by lia; lia).
  assert (i = 0 \/ i = 1 \/ i = 2 \/ i = 3 \/ i = 4 \/ i = 5 \/ i = 6)
    as [->|[->|[->|[->|[->|[->| ->]]]]]] by lia; solve_bits.
Qed.

Lemma fset_low_bits w mask i : 0 <= mask < 4 -> 0 <= i < 7 ->
  Z.testbit (updated w (Z.shiftl 7 10) (Z.lor (Z.shiftl 1 10) (s32 (Z.shiftl mask 11)))) i
  = Z.testbit w i.
Proof.
  intros Hm Hi. unfold updated.
  rewrite s32_small by (rewrite Z.shiftl_mul_pow2 by lia; lia).
  assert (i = 0 \/ i = 1 \/ i = 2 \/ i = 3 \/ i = 4 \/ i = 5 \/ i = 6)
    as [->|[->|[->|[->|[->|[->| ->]]]]]] by lia; solve_bits.
Qed.

(** The H field and the H-initialised bit depend on bits 1..6 only. *)
Lemma hfield_ext w w' :
  (forall i, 1 <= i < 7 -> Z.testbit w' i = Z.testbit w i) -> hfield w' = hfield w.
Proof.
  intros Hb. unfold hfield. apply (bits_eq_below 5);
    [apply (land_bound_r _ 31 5); lia | apply (land_bound_r _ 31 5); lia |].
  intros i Hi. rewrite !Z.land_spec, !Z.shiftr_spec by lia.
  rewrite Hb by lia. reflexivity.
Qed.

Lemma hinit_ext w w' :
  (forall i, 1 <= i < 7 -> Z.testbit w' i = Z.testbit w i) ->
  Z.land w' (Z.shiftl 1 1) = Z.land w (Z.shiftl 1 1).
Proof.
  intros Hb. change (Z.shiftl 1 1) with 2.
  apply (bits_eq_below 2); [apply land_bound_r; lia | apply land_bound_r; lia |].
  intros i Hi. rewrite !Z.land_spec.
  assert (i = 0 \/ i = 1) as [-> | ->] by lia.
  - change (Z.testbit 2 0) with false. rewrite !andb_false_r. reflexivity.
  - rewrite Hb by lia. reflexivity.
Qed.

Lemma hMaskSet_Ret a m row col mask w :
  masks_ m !! Z.to_nat (cell_index m row col) = Some w -> mask < 32 ->
  hMaskSet a m row col mask
  = Ret (with_masks m (<[Z.to_nat (cell_index m row col) :=
           updated w (Z.shiftl 31 1) (Z.lor (Z.shiftl 1 1) (s32 (Z.shiftl mask 2)))]>
           (masks_ m))).
Proof.
  intros Hw Hm. unfold hMaskSet.
  destruct (Z.ltb_spec mask 32); [|lia]. rewrite assert_holds. simpl.
  apply mask_update_Ret; done.
Qed.

Lemma hMaskGet_Ret m row col w :
  masks_ m !! Z.to_nat (cell_index m row col) = Some w ->
  hMaskGet m row col = Ret (hfield w).
Proof.
  intros Hw. unfold hMaskGet.
  rewrite (proj2 (at_Ret _ _ w)); [reflexivity|].
  split; [unfold cell_index, usz; apply Z.mod_pos_bound; lia | done].
Qed.

(** What a read of the H mask gives after [hMaskSet(row, col, mask)]: the
    mask written, together with bit 4 of the mask stored before. *)
Lemma hMaskGet_after_hMaskSet a m row col mask w :
  masks_ m !! Z.to_nat (cell_index m row col) = Some w -> 0 <= mask < 32 ->
  (m' ← hMaskSet a m row col mask; hMaskGet m' row col)
  = Ret (Z.lor mask (Z.land (hfield w) 16)).
Proof.
  intros Hw Hm. rewrite (hMaskSet_Ret a m row col mask w) by (done || lia). simpl.
  erewrite hMaskGet_Ret; [rewrite hfield_updated by done; reflexivity|].
  simpl. unfold cell_index at 1. simpl. fold (cell_index m row col).
  apply list_lookup_insert_eq. eapply lookup_lt_Some; eauto.
Qed.

(** C1 (the code departs from it). The claim: after [hMaskSet(r, c, m)] with
    [m] in [0,32), whatever H mask was stored before, [isHMaskSet(r, c)] holds
    and the H field [(masks_ >> 2) & 31] reads exactly [m]. The code at a
    one-cell matrix: [hMaskSet(0, 0, 16)] followed by [hMaskSet(0, 0, 0)]
    leaves the H-initialised bit set and the H field equal to 16, not 0,
    in either build: [~(31 << 1)] clears bits 1..5 of the word and leaves
    bit 6, the top bit of the field. *)
Theorem hMaskSet_leaves_stale_bit : forall assertions : bool,
  (m1 ← hMaskSet assertions
          (mkSSEMatrix true 1 1 1 1 16 4 1 4 4 4 [0] (repeat 0 64)) 0 0 16;
   m2 ← hMaskSet assertions m1 0 0 0;
   set ← isHMaskSet m2 0 0;
   mask ← hMaskGet m2 0 0;
   mret (set, mask, masks_ m2))
  = Ret (true, 16, [66]).
Proof. intros []; reflexivity. Qed.

(** ** analyzeCell *)

Section AnalyzeCellFacts.
Context {RandomSource : Type}.
Variable nextU2 : RandomSource -> Z * RandomSource.
Variable randFromMask : RandomSource -> Z -> Z * RandomSource.
Variable score : Scoring -> Z -> Z -> Z -> Z.

(** C7. When the reported-through bit of the cell is set, [analyzeCell]
    returns at once with [canMoveThru = false] and [reportedThru = true]:
    the matrix (so every mask word) and the random source come back as they
    were, [empty], [cur] and [branch] keep the caller's values, and the
    result is the same for any other scores, scoring scheme and characters
    (any matrix with the same mask words and [ncol_]). *)
Theorem analyzeCell_reported_through :
  forall a m row col ct refc readc readq sc offsetsc floorsc
         (rand : RandomSource) o,
  reportedThrough m row col = Ret true ->
  analyzeCell a nextU2 randFromMask score m row col ct refc readc readq
              sc offsetsc floorsc rand o
  = Ret (m, rand, mkOut (empty o) (cur o) (branch o) false true) /\
  forall m2 ct2 refc2 readc2 readq2 sc2 offsetsc2 floorsc2,
    masks_ m2 = masks_ m -> ncol_ m2 = ncol_ m ->
    analyzeCell a nextU2 randFromMask score m2 row col ct2 refc2 readc2 readq2
                sc2 offsetsc2 floorsc2 rand o
    = Ret (m2, rand, mkOut (empty o) (cur o) (branch o) false true).
Proof.
  intros a m row col ct refc readc readq sc offsetsc floorsc rand o Hrt.
  split.
  - unfold analyzeCell. rewrite Hrt. reflexivity.
  - intros m2 ct2 refc2 readc2 readq2 sc2 offsetsc2 floorsc2 Hm Hn.
    assert (reportedThrough m2 row col = Ret true) as Hrt2.
    { unfold reportedThrough, cell_index in *. rewrite Hm, Hn. exact Hrt. }
    unfold analyzeCell. rewrite Hrt2. reflexivity.
Qed.

Example mask_tables :
  alts5 = map popcount5 (seqZ 0 32) /\ firsts5 = map lowest_bit5 (seqZ 0 32).
Proof. split; reflexivity. Qed.

Lemma or_bit_cases c k mask : or_bit c k mask = mask \/ or_bit c k mask = Z.lor mask (Z.shiftl 1 k).
Proof. destruct c; simpl; auto. Qed.

Lemma origMaskE_range a m sc row col offsetsc floorsc sc_cur om :
  origMaskE a m sc row col offsetsc floorsc = Ret (sc_cur, om) -> 0 <= om < 4.
Proof.
  unfold origMaskE. intros Ho.
  repeat (apply bind_Ret in Ho as (? & _ & Ho)). simpl in Ho.
  injection Ho as _ <-.
  repeat match goal with |- context [or_bit ?c ?k ?x] =>
    destruct (or_bit_cases c k x) as [-> | ->] end;
    (split; [apply Z.leb_le | apply Z.ltb_lt]; reflexivity).
Qed.

Lemma origMaskF_range a m sc row col offsetsc floorsc sc_cur om :
  origMaskF a m sc row col offsetsc floorsc = Ret (sc_cur, om) -> 0 <= om < 4.
Proof.
  unfold origMaskF. intros Ho.
  repeat (apply bind_Ret in Ho as (? & _ & Ho)). simpl in Ho.
  injection Ho as _ <-.
  repeat match goal with |- context [or_bit ?c ?k ?x] =>
    destruct (or_bit_cases c k x) as [-> | ->] end;
    (split; [apply Z.leb_le | apply Z.ltb_lt]; reflexivity).
Qed.

(** C6. A cell that is not reported through, below row 0, whose working
    mask (after the lookup of the stored field) has no bit set: the call
    leaves the matrix and the random source alone and sets [empty = true]
    and [canMoveThru = (origMask == 0)], [origMask] being the mask computed
    from the scores. This is the result in a build without assertions; with
    assertions the same values are returned unless an assertion stops the
    call, which happens exactly for an E or F cell with [origMask == 0] and
    for an H cell with [origMask == 0] and [sc_cur > match]. *)
Theorem analyzeCell_empty_mask :
  forall a m row col ct refc readc readq sc offsetsc floorsc
         (rand : RandomSource) o sc_cur origMask,
  reportedThrough m row col = Ret false ->
  0 < row ->
  origMask_of a score m sc row col ct refc readc readq offsetsc floorsc
    = Ret (sc_cur, origMask) ->
  mask_lookup m row col ct origMask = Ret 0 ->
  analyzeCell a nextU2 randFromMask score m row col ct refc readc readq
              sc offsetsc floorsc rand o
  = if a && (if (ct =? E) || (ct =? F) then origMask =? 0
             else negb ((0 <? origMask) || (sc_cur <=? match_ sc)))
    then Stop AssertionFailure
    else Ret (m, rand, mkOut true (cur o) (branch o) (origMask =? 0) false).
Proof.
  intros a m row col ct refc readc readq sc offsetsc floorsc rand o sc_cur om
         Hrt Hrow Hom Hlk.
  unfold analyzeCell. rewrite Hrt. simpl.
  destruct (Z.eqb_spec row 0); [lia|].
  destruct (Z.ltb_spec 0 row); [|lia]. rewrite assert_holds. simpl.
  unfold origMask_of, mask_lookup in *.
  destruct (Z.eqb_spec ct E) as [HE|HE]; [|destruct (Z.eqb_spec ct F) as [HF|HF]].
  - (* E *)
    pose proof (origMaskE_range _ _ _ _ _ _ _ _ _ Hom) as Hrange.
    apply bind_Ret in Hlk as (set & Hset & Hwm).
    unfold analyzeE. rewrite Hom. simpl.
    destruct (Z.ltb_spec 0 om); simpl.
    + rewrite assert_holds. simpl. rewrite Hset. simpl. rewrite Hwm. simpl.
      destruct (Z.eqb_spec om 0); [lia|]. simpl.
      rewrite assert_holds. simpl.
      rewrite andb_false_r. simpl. rewrite assert_holds. reflexivity.
    + assert (om = 0) as -> by lia. simpl. rewrite andb_true_r.
      destruct a; simpl.
      * unfold assert_. simpl. destruct (sc_cur <=? match_ sc); simpl; [|reflexivity].
        rewrite Hset. simpl. rewrite Hwm. reflexivity.
      * rewrite Hset. simpl. rewrite Hwm. reflexivity.
  - (* F *)
    pose proof (origMaskF_range _ _ _ _ _ _ _ _ _ Hom) as Hrange.
    apply bind_Ret in Hlk as (set & Hset & Hwm).
    unfold analyzeF. rewrite Hom. simpl.
    destruct (Z.ltb_spec 0 om); simpl.
    + rewrite assert_holds. simpl. rewrite Hset. simpl. rewrite Hwm. simpl.
      destruct (Z.eqb_spec om 0); [lia|]. simpl.
      rewrite assert_holds. simpl.
      rewrite andb_false_r. simpl.
      destruct (ct =? H); rewrite ?orb_true_r, ?orb_false_r; rewrite assert_holds; reflexivity.
    + assert (om = 0) as -> by lia. simpl. rewrite andb_true_r.
      destruct a; simpl.
      * unfold assert_. simpl. destruct (sc_cur <=? match_ sc); simpl; [|reflexivity].
        rewrite Hset. simpl. rewrite Hwm. simpl.
        subst ct. reflexivity.
      * rewrite Hset. simpl. rewrite Hwm. reflexivity.
  - (* H *)
    apply bind_Ret in Hlk as (set & Hset & Hwm).
    unfold analyzeH. rewrite Hom. simpl.
    destruct ((0 <? om) || (sc_cur <=? match_ sc)) eqn:Hassert; simpl.
    + rewrite assert_holds, andb_false_r. simpl. rewrite Hset. simpl.
      rewrite Hwm. simpl.
      rewrite orb_true_r, assert_holds. simpl.
      rewrite orb_true_r || idtac.
      destruct (ct =? H) eqn:Hct; rewrite ?orb_true_r, ?orb_false_r.
      * rewrite assert_holds. reflexivity.
      * destruct a; [|reflexivity].
        exfalso. unfold origMaskH in Hom.
        apply bind_Ret in Hom as (h & _ & Hom).
        rewrite (Z.eqb_sym H ct), Hct in Hom. discriminate.
    + rewrite andb_true_r. destruct a; simpl; [reflexivity|].
      rewrite Hset. simpl. rewrite Hwm. simpl. reflexivity.
Qed.

End AnalyzeCellFacts.

(** ** The gap barrier *)

Lemma cell_index_small m row col :
  dims_ok m -> 0 <= row < nrow_ m -> 0 <= col < ncol_ m ->
  cell_index m row col = row * ncol_ m + col /\
  row * ncol_ m + col < nrow_ m * ncol_ m.
Proof.
  intros (Hr & Hc & Hrc) Hrow Hcol.
  assert (row * ncol_ m + col < nrow_ m * ncol_ m) by nia.
  split; [|done]. unfold cell_index.
  rewrite (usz_small (row * ncol_ m)) by nia. apply usz_small. nia.
Qed.

Lemma cell_index_inj m row col row' col' :
  dims_ok m -> 0 <= row < nrow_ m -> 0 <= col < ncol_ m ->
  0 <= row' < nrow_ m -> 0 <= col' < ncol_ m ->
  Z.to_nat (cell_index m row col) = Z.to_nat (cell_index m row' col') ->
  row = row' /\ col = col'.
Proof.
  intros Hd Hr Hc Hr' Hc' Heq.
  destruct (cell_index_small m row col Hd Hr Hc) as [E1 _].
  destruct (cell_index_small m row' col' Hd Hr' Hc') as [E2 _].
  rewrite E1, E2 in Heq. apply Z2Nat.inj in Heq; [|nia|nia].
  assert (row = row') as ->.
  { destruct (Z.lt_trichotomy row row') as [Hlt|[->|Hgt]]; [exfalso|done|exfalso].
    - assert ((row + 1) * ncol_ m <= row' * ncol_ m) by nia. nia.
    - assert ((row' + 1) * ncol_ m <= row * ncol_ m) by nia. nia. }
  split; [done|lia].
Qed.

(** [gapsAllowed] in plain integers. *)
Lemma gapsAllowed_spec m sc row :
  dims_ok m -> 0 <= gapbar sc < 2 ^ 64 -> 0 <= row < nrow_ m -> nrow_ m < 2 ^ 64 ->
  gapsAllowed m sc row = true <->
  gapbar sc <= row /\ gapbar sc <= nrow_ m - row - 1.
Proof.
  intros Hd Hg Hrow Hn. unfold gapsAllowed.
  rewrite (usz_small (gapbar sc)) by lia.
  rewrite (usz_small (nrow_ m - row)) by lia.
  rewrite (usz_small (nrow_ m - row - 1)) by lia.
  rewrite negb_true_iff, orb_false_iff, !Z.ltb_ge. reflexivity.
Qed.

Lemma land16_cases x : Z.land x 16 = 0 \/ Z.land x 16 = 16.
Proof.
  destruct (Z.testbit x 4) eqn:Hb; [right | left];
    (apply (bits_eq_below 5); [apply land_bound_r; lia | lia |]);
    intros i Hi; rewrite Z.land_spec;
    assert (i = 0 \/ i = 1 \/ i = 2 \/ i = 3 \/ i = 4)
      as [->|[->|[->|[->| ->]]]] by lia;
    rewrite ?Hb; try (rewrite andb_false_r; reflexivity); reflexivity.
Qed.

Lemma with_masks_masks m ms : masks_ (with_masks m ms) = ms.
Proof. reflexivity. Qed.

(** One word of the array changes: the invariant is kept when the new
    word satisfies it. *)
Lemma barrier_ok_insert m sc row col w' :
  dims_ok m -> 0 <= row < nrow_ m -> 0 <= col < ncol_ m ->
  barrier_masks_ok m sc ->
  (gapsAllowed m sc row = false -> Z.land w' (Z.shiftl 1 1) <> 0 ->
   hfield w' = Z.shiftl 1 4 \/ hfield w' = 0) ->
  barrier_masks_ok
    (with_masks m (<[Z.to_nat (cell_index m row col) := w']> (masks_ m))) sc.
Proof.
  intros Hd Hr Hc Hok Hnew r c x Hr' Hc' Hga Hx Hinit.
  simpl in Hr', Hc'.
  change (gapsAllowed (with_masks m _) sc r) with (gapsAllowed m sc r) in Hga.
  change (cell_index (with_masks m _) r c) with (cell_index m r c) in Hx.
  rewrite with_masks_masks in Hx.
  destruct (decide (Z.to_nat (cell_index m row col) = Z.to_nat (cell_index m r c)))
    as [Heq|Hne].
  - destruct (cell_index_inj m row col r c Hd Hr Hc Hr' Hc' Heq) as [-> ->].
    rewrite list_lookup_insert_eq in Hx by (eapply lookup_lt_is_Some;
      destruct (masks_ m !! Z.to_nat (cell_index m r c)) eqn:E;
      [eauto | rewrite list_insert_ge in Hx by (apply lookup_ge_None; done); congruence]).
    injection Hx as <-. auto.
  - rewrite list_lookup_insert_ne in Hx by done. eapply Hok; eauto.
Qed.

(** A setter that leaves bits 1..6 of the word alone keeps the invariant. *)
Lemma barrier_ok_low_bits m sc row col w w' :
  dims_ok m -> 0 <= row < nrow_ m -> 0 <= col < ncol_ m ->
  barrier_masks_ok m sc ->
  masks_ m !! Z.to_nat (cell_index m row col) = Some w ->
  (forall i, 1 <= i < 7 -> Z.testbit w' i = Z.testbit w i) ->
  barrier_masks_ok
    (with_masks m (<[Z.to_nat (cell_index m row col) := w']> (masks_ m))) sc.
Proof.
  intros Hd Hr Hc Hok Hw Hbits. apply barrier_ok_insert; try done.
  intros Hga Hinit. rewrite (hfield_ext w w') by done.
  rewrite (hinit_ext w w') in Hinit by done. eapply Hok; eauto.
Qed.

(** The same matrix up to the mask words. *)
Lemma with_masks_id m : with_masks m (masks_ m) = m.
Proof. destruct m; reflexivity. Qed.

Lemma hMaskSet_inv a m row col mask m' :
  hMaskSet a m row col mask = Ret m' ->
  exists w, masks_ m !! Z.to_nat (cell_index m row col) = Some w /\
    m' = with_masks m (<[Z.to_nat (cell_index m row col) :=
           updated w (Z.shiftl 31 1) (Z.lor (Z.shiftl 1 1) (s32 (Z.shiftl mask 2)))]>
           (masks_ m)).
Proof.
  unfold hMaskSet. intros Hs. apply bind_Ret in Hs as (_ & _ & Hs).
  apply mask_update_inv in Hs. exact Hs.
Qed.

Lemma eMaskSet_inv a m row col mask m' :
  eMaskSet a m row col mask = Ret m' ->
  exists w, masks_ m !! Z.to_nat (cell_index m row col) = Some w /\
    m' = with_masks m (<[Z.to_nat (cell_index m row col) :=
           updated w (Z.shiftl 7 7) (Z.lor (Z.shiftl 1 7) (s32 (Z.shiftl mask 8)))]>
           (masks_ m)).
Proof.
  unfold eMaskSet. intros Hs. apply bind_Ret in Hs as (_ & _ & Hs).
  apply mask_update_inv in Hs. exact Hs.
Qed.

Lemma fMaskSet_inv a m row col mask m' :
  fMaskSet a m row col mask = Ret m' ->
  exists w, masks_ m !! Z.to_nat (cell_index m row col) = Some w /\
    m' = with_masks m (<[Z.to_nat (cell_index m row col) :=
           updated w (Z.shiftl 7 10) (Z.lor (Z.shiftl 1 10) (s32 (Z.shiftl mask 11)))]>
           (masks_ m)).
Proof.
  unfold fMaskSet. intros Hs. apply bind_Ret in Hs as (_ & _ & Hs).
  apply mask_update_inv in Hs. exact Hs.
Qed.

Lemma kept_refl sc m : kept sc m m.
Proof. repeat split; auto. Qed.

Lemma eMaskSet_kept a sc m row col mask m' :
  dims_ok m -> 0 <= row < nrow_ m -> 0 <= col < ncol_ m -> 0 <= mask < 4 ->
  eMaskSet a m row col mask = Ret m' -> kept sc m m'.
Proof.
  intros Hd Hr Hc Hm Hs. apply eMaskSet_inv in Hs as (w & Hw & ->).
  repeat split; try reflexivity. intros Hok.
  eapply barrier_ok_low_bits; eauto. intros i Hi. apply eset_low_bits; lia.
Qed.

Lemma fMaskSet_kept a sc m row col mask m' :
  dims_ok m -> 0 <= row < nrow_ m -> 0 <= col < ncol_ m -> 0 <= mask < 4 ->
  fMaskSet a m row col mask = Ret m' -> kept sc m m'.
Proof.
  intros Hd Hr Hc Hm Hs. apply fMaskSet_inv in Hs as (w & Hw & ->).
  repeat split; try reflexivity. intros Hok.
  eapply barrier_ok_low_bits; eauto. intros i Hi. apply fset_low_bits; lia.
Qed.

(** [hMaskSet] keeps the invariant where gaps are allowed, and in a barrier
    row when the mask written is the empty or the diagonal-only one. *)
Lemma hMaskSet_kept a sc m row col mask m' :
  dims_ok m -> 0 <= row < nrow_ m -> 0 <= col < ncol_ m ->
  (gapsAllowed m sc row = false -> mask = 0 \/ mask = 16) ->
  hMaskSet a m row col mask = Ret m' -> kept sc m m'.
Proof.
  intros Hd Hr Hc Hm Hs. apply hMaskSet_inv in Hs as (w & Hw & ->).
  repeat split; try reflexivity. intros Hok.
  apply barrier_ok_insert; try done. intros Hga _.
  destruct (Hm Hga) as [-> | ->]; rewrite hfield_updated by lia;
    destruct (land16_cases (hfield w)) as [-> | ->]; simpl; auto.
Qed.

Section GapBarrier.
Context {RandomSource : Type}.
Variable nextU2 : RandomSource -> Z * RandomSource.
Variable randFromMask : RandomSource -> Z -> Z * RandomSource.
Variable score : Scoring -> Z -> Z -> Z -> Z.

Lemma select2_kept sc setter open_ extend m row col mask origMask
    (rand : RandomSource) o m' rand' o' :
  (forall k m1, 0 <= k < 4 -> setter m row col k = Ret m1 -> kept sc m m1) ->
  select2 nextU2 setter open_ extend m row col mask origMask rand o
    = Ret (m', rand', o') ->
  kept sc m m'.
Proof.
  intros Hset. unfold select2.
  destruct (mask =? 3).
  - destruct (nextU2 rand) as [u r]. destruct (negb (u =? 0)); intros Hs;
      apply bind_Ret in Hs as (m1 & Hm1 & Hs); injection Hs as <- _ _;
      eapply Hset; eauto; lia.
  - destruct (mask =? 2); [|destruct (mask =? 1)]; intros Hs.
    + apply bind_Ret in Hs as (m1 & Hm1 & Hs); injection Hs as <- _ _.
      eapply Hset; eauto; lia.
    + apply bind_Ret in Hs as (m1 & Hm1 & Hs); injection Hs as <- _ _.
      eapply Hset; eauto; lia.
    + injection Hs as <- _ _. apply kept_refl.
Qed.

(** The freshly computed H mask of a barrier row: empty or diagonal-only. *)
Lemma origMaskH_barrier a m sc row col ct refc readc readq offsetsc floorsc sc_cur om :
  gapsAllowed m sc row = false ->
  origMaskH a score m sc row col ct refc readc readq offsetsc floorsc
    = Ret (sc_cur, om) ->
  om = 0 \/ om = Z.shiftl 1 4.
Proof.
  intros Hga. unfold origMaskH. intros Ho.
  repeat (apply bind_Ret in Ho as (? & _ & Ho)). simpl in Ho.
  injection Ho as _ <-. rewrite Hga.
  match goal with |- context [or_bit ?c ?k ?x] =>
    destruct (or_bit_cases c k x) as [-> | ->] end; auto.
Qed.

(** The selection on an H cell with the empty or the diagonal-only mask:
    no random draw, no branch, and the transition, if any, is the diagonal. *)
Lemma selectH_diag_only a m sc row col mask origMask (rand : RandomSource) o m' rand' o' :
  mask = 0 \/ mask = Z.shiftl 1 4 ->
  selectH a randFromMask m sc row col mask origMask rand o = Ret (m', rand', o') ->
  rand' = rand /\ branch o' = branch o /\
  (mask = 0 /\ m' = m /\ empty o' = true /\ cur o' = cur o \/
   mask = Z.shiftl 1 4 /\ hMaskSet a m row col 0 = Ret m' /\
     empty o' = empty o /\ cur o' = SW_BT_OALL_DIAG).
Proof.
  intros [-> | ->] Hs.
  - injection Hs as <- <- <-. split; [|split]; auto.
  - unfold selectH in Hs. simpl in Hs. rewrite assert_holds in Hs. simpl in Hs.
    apply bind_Ret in Hs as (m1 & Hm1 & Hs). injection Hs as <- <- <-.
    split; [|split]; auto.
Qed.

Lemma selectH_kept a sc m row col mask origMask (rand : RandomSource) o m' rand' o' :
  dims_ok m -> 0 <= row < nrow_ m -> 0 <= col < ncol_ m ->
  (gapsAllowed m sc row = false -> mask = 0 \/ mask = Z.shiftl 1 4) ->
  selectH a randFromMask m sc row col mask origMask rand o = Ret (m', rand', o') ->
  kept sc m m'.
Proof.
  intros Hd Hr Hc Hmask Hs.
  destruct (gapsAllowed m sc row) eqn:Hga.
  - unfold selectH in Hs. apply bind_Ret in Hs as (opts & _ & Hs).
    destruct (opts =? 1); [|destruct (1 <? opts)].
    + apply bind_Ret in Hs as (sel & _ & Hs). apply bind_Ret in Hs as (_ & _ & Hs).
      apply bind_Ret in Hs as (m1 & Hm1 & Hs). apply bind_Ret in Hs as (o1 & _ & Hs).
      injection Hs as <- _ _.
      apply (hMaskSet_kept _ sc _ _ _ _ _ Hd Hr Hc) in Hm1; [done | congruence].
    + destruct (randFromMask rand mask) as [sel r].
      apply bind_Ret in Hs as (_ & _ & Hs). apply bind_Ret in Hs as (_ & _ & Hs).
      apply bind_Ret in Hs as (m1 & Hm1 & Hs). apply bind_Ret in Hs as (o1 & _ & Hs).
      injection Hs as <- _ _.
      apply (hMaskSet_kept _ sc _ _ _ _ _ Hd Hr Hc) in Hm1; [done | congruence].
    + apply bind_Ret in Hs as (o1 & _ & Hs). injection Hs as <- _ _. apply kept_refl.
  - destruct (selectH_diag_only _ _ _ _ _ _ _ _ _ _ _ _ (Hmask eq_refl) Hs)
      as (_ & _ & [(_ & -> & _) | (_ & Hm1 & _)]).
    + apply kept_refl.
    + apply (hMaskSet_kept _ sc _ _ _ _ _ Hd Hr Hc) in Hm1; [done | auto].
Qed.

(** The mask [analyzeH] selects from in a barrier row, under the invariant. *)
Lemma working_mask_barrier m sc row col om set mask :
  dims_ok m -> 0 <= row < nrow_ m -> 0 <= col < ncol_ m ->
  barrier_masks_ok m sc -> gapsAllowed m sc row = false ->
  om = 0 \/ om = Z.shiftl 1 4 ->
  isHMaskSet m row col = Ret set ->
  working_mask set m row col 2 31 om = Ret mask ->
  mask = 0 \/ mask = Z.shiftl 1 4.
Proof.
  intros Hd Hr Hc Hok Hga Hom Hset Hwm.
  unfold isHMaskSet in Hset. apply bind_Ret in Hset as (w & Hw & Hset).
  injection Hset as <-. apply at_Ret in Hw as [_ Hw].
  unfold working_mask in Hwm.
  destruct (Z.eqb_spec (Z.land w (Z.shiftl 1 1)) 0) as [Hz|Hnz]; simpl in Hwm.
  - injection Hwm as <-. exact Hom.
  - rewrite (proj2 (at_Ret _ _ w)) in Hwm
      by (split; [unfold cell_index, usz; apply Z.mod_pos_bound; lia | done]).
    injection Hwm as <-.
    destruct (Hok row col w Hr Hc Hga Hw Hnz) as [Hf | Hf];
      unfold hfield in Hf; rewrite Hf; auto.
Qed.

Lemma analyzeH_kept a sc m row col ct refc readc readq offsetsc floorsc
    (rand : RandomSource) o m' rand' o' :
  dims_ok m -> 0 <= row < nrow_ m -> 0 <= col < ncol_ m ->
  barrier_masks_ok m sc ->
  analyzeH a randFromMask score m sc row col ct refc readc readq offsetsc floorsc rand o
    = Ret (m', rand', o') ->
  kept sc m m'.
Proof.
  intros Hd Hr Hc Hok Ha. unfold analyzeH in Ha.
  apply bind_Ret in Ha as ([sc_cur om] & Hom & Ha).
  apply bind_Ret in Ha as (_ & _ & Ha).
  apply bind_Ret in Ha as (set & Hset & Ha).
  apply bind_Ret in Ha as (mask & Hwm & Ha).
  apply bind_Ret in Ha as (_ & _ & Ha).
  apply (selectH_kept _ sc _ _ _ _ _ _ _ _ _ _ Hd Hr Hc) in Ha; [done|].
  intros Hga. apply (working_mask_barrier m sc row col om set mask); auto.
  eapply origMaskH_barrier; eauto.
Qed.

Lemma analyzeCell_kept a sc m row col ct refc readc readq offsetsc floorsc
    (rand : RandomSource) o m' rand' o' :
  dims_ok m -> 0 <= row < nrow_ m -> 0 <= col < ncol_ m ->
  barrier_masks_ok m sc ->
  analyzeCell a nextU2 randFromMask score m row col ct refc readc readq
    sc offsetsc floorsc rand o = Ret (m', rand', o') ->
  kept sc m m'.
Proof.
  intros Hd Hr Hc Hok Ha. unfold analyzeCell in Ha.
  apply bind_Ret in Ha as (rt & _ & Ha).
  destruct rt; [injection Ha as <- _ _; apply kept_refl|].
  destruct (row =? 0); [injection Ha as <- _ _; apply kept_refl|].
  apply bind_Ret in Ha as (_ & _ & Ha).
  apply bind_Ret in Ha as ([[m1 r1] o1] & Hbr & Ha).
  apply bind_Ret in Ha as (_ & _ & Ha). injection Ha as <- _ _.
  destruct (ct =? E); [|destruct (ct =? F)].
  - unfold analyzeE in Hbr.
    apply bind_Ret in Hbr as ([sc_cur om] & _ & Hbr).
    apply bind_Ret in Hbr as (_ & _ & Hbr).
    apply bind_Ret in Hbr as (set & _ & Hbr).
    apply bind_Ret in Hbr as (mask & _ & Hbr).
    apply bind_Ret in Hbr as ([[m2 r2] o2] & Hsel & Hbr).
    apply bind_Ret in Hbr as (_ & _ & Hbr). injection Hbr as <- _ _.
    eapply select2_kept; [|exact Hsel]. intros k m3 Hk Hm3.
    eapply eMaskSet_kept; eauto.
  - unfold analyzeF in Hbr.
    apply bind_Ret in Hbr as ([sc_cur om] & _ & Hbr).
    apply bind_Ret in Hbr as (_ & _ & Hbr).
    apply bind_Ret in Hbr as (set & _ & Hbr).
    apply bind_Ret in Hbr as (mask & _ & Hbr).
    apply bind_Ret in Hbr as ([[m2 r2] o2] & Hsel & Hbr).
    apply bind_Ret in Hbr as (_ & _ & Hbr). injection Hbr as <- _ _.
    eapply select2_kept; [|exact Hsel]. intros k m3 Hk Hm3.
    eapply fMaskSet_kept; eauto.
  - eapply analyzeH_kept; eauto.
Qed.

Lemma setReportedThrough_kept sc m row col m' :
  dims_ok m -> 0 <= row < nrow_ m -> 0 <= col < ncol_ m ->
  setReportedThrough m row col = Ret m' -> kept sc m m'.
Proof.
  intros Hd Hr Hc Hs. unfold setReportedThrough in Hs.
  apply bind_Ret in Hs as (w & Hw & Hs). apply at_Ret in Hw as [Hi Hw].
  rewrite store_Ret in Hs by eauto. injection Hs as <-.
  repeat split; try reflexivity. intros Hok.
  eapply barrier_ok_low_bits; eauto. intros i Hi'. unfold u16.
  rewrite Z.mod_pow2_bits_low, Z.lor_spec by lia.
  change (Z.shiftl 1 0) with (Z.ones 1).
  rewrite Z.testbit_ones_nonneg by lia.
  destruct (Z.ltb_spec i 1); [lia|]. apply orb_false_r.
Qed.

(** The invariant of the barrier rows holds in every state of the
    backtraces of one DP fill. *)
Lemma backtrace_state_barrier a sc m0 m :
  dims_ok m0 ->
  backtrace_state a nextU2 randFromMask score sc m0 m ->
  nrow_ m = nrow_ m0 /\ ncol_ m = ncol_ m0 /\ barrier_masks_ok m sc.
Proof.
  intros Hd Hbs. induction Hbs as
    [ | m row col ct refc readc readq offsetsc floorsc rand o m' rand' o' _ IH Hr Hc Ha
      | m row col m' _ IH Hr Hc Hs ].
  - repeat split; try reflexivity.
    intros row col w _ _ _ Hw Hinit. simpl in Hw.
    apply list_elem_of_lookup_2, list_elem_of_In, repeat_spec in Hw. subst w.
    simpl in Hinit. done.
  - destruct IH as (Hn & Hc' & Hok).
    assert (dims_ok m) as Hdm by (unfold dims_ok in *; rewrite Hn, Hc'; done).
    destruct (analyzeCell_kept a sc m row col ct refc
                readc readq offsetsc floorsc rand o m' rand' o' Hdm Hr Hc Hok Ha)
      as (Hn' & Hc'' & Hk).
    repeat split; [congruence | congruence | auto].
  - destruct IH as (Hn & Hc' & Hok).
    assert (dims_ok m) as Hdm by (unfold dims_ok in *; rewrite Hn, Hc'; done).
    destruct (setReportedThrough_kept sc _ _ _ _ Hdm Hr Hc Hs) as (Hn' & Hc'' & Hk).
    repeat split; [congruence | congruence | auto].
Qed.

(** C8. On an H cell below row 0, gaps are allowed exactly when
    [row >= gapbar] and [nrow - row - 1 >= gapbar]. When they are not:
    the mask computed from the scores has at most the diagonal bit (bit 4);
    in every state reached from [initMasks] by calls of [analyzeCell] and
    [setReportedThrough], the mask the selection works on (stored or fresh)
    is the diagonal-only or the empty mask, which is what the assertion
    after the lookup asks; and a call that returns has drawn no randomness,
    has not branched, and either leaves [cur] as it was or returns the
    diagonal transition, never a gap open or gap extend. *)
Theorem analyzeCell_gap_barrier :
  forall a m0 m sc row col refc readc readq offsetsc floorsc
         (rand : RandomSource) o,
  dims_ok m0 -> 0 <= gapbar sc < 2 ^ 31 ->
  backtrace_state a nextU2 randFromMask score sc m0 m ->
  0 < row < nrow_ m -> 0 <= col < ncol_ m ->
  (gapsAllowed m sc row = true <->
   gapbar sc <= row /\ gapbar sc <= nrow_ m - row - 1) /\
  (gapsAllowed m sc row = false ->
   (forall sc_cur origMask,
      origMaskH a score m sc row col H refc readc readq offsetsc floorsc
        = Ret (sc_cur, origMask) ->
      origMask = 0 \/ origMask = Z.shiftl 1 4) /\
   (forall origMask mask,
      origMask = 0 \/ origMask = Z.shiftl 1 4 ->
      mask_lookup m row col H origMask = Ret mask ->
      mask = Z.shiftl 1 4 \/ mask = 0) /\
   (forall m' rand' o',
      analyzeCell a nextU2 randFromMask score m row col H refc readc readq
                  sc offsetsc floorsc rand o = Ret (m', rand', o') ->
      rand' = rand /\ branch o' = branch o /\
      (cur o' = cur o \/ empty o' = false /\ cur o' = SW_BT_OALL_DIAG))).
Proof.
  intros a m0 m sc row col refc readc readq offsetsc floorsc rand o
         Hd0 Hgb Hbs Hrow Hcol.
  destruct (backtrace_state_barrier a sc m0 m Hd0 Hbs) as (Hn & Hc & Hok).
  assert (dims_ok m) as Hd by (unfold dims_ok in *; rewrite Hn, Hc; done).
  assert (nrow_ m < 2 ^ 64) as Hnr by (destruct Hd as (? & ? & ?); nia).
  split; [apply gapsAllowed_spec; (done || lia)|].
  intros Hga. split; [|split].
  - intros sc_cur om Hom. eapply origMaskH_barrier; eauto.
  - intros om mask Hom Hlk. unfold mask_lookup in Hlk. simpl in Hlk.
    apply bind_Ret in Hlk as (set & Hset & Hwm).
    destruct (working_mask_barrier m sc row col om set mask) as [-> | ->];
      auto; lia.
  - intros m' rand' o' Ha. unfold analyzeCell in Ha.
    apply bind_Ret in Ha as (rt & _ & Ha).
    destruct rt; [injection Ha as _ <- <-; auto|].
    destruct (Z.eqb_spec row 0); [lia|].
    apply bind_Ret in Ha as (_ & _ & Ha).
    apply bind_Ret in Ha as ([[m1 r1] o1] & Hbr & Ha).
    apply bind_Ret in Ha as (_ & _ & Ha). injection Ha as <- <- <-.
    simpl in Hbr. unfold analyzeH in Hbr.
    apply bind_Ret in Hbr as ([sc_cur om] & Hom & Hbr).
    apply bind_Ret in Hbr as (_ & _ & Hbr).
    apply bind_Ret in Hbr as (set & Hset & Hbr).
    apply bind_Ret in Hbr as (mask & Hwm & Hbr).
    apply bind_Ret in Hbr as (_ & _ & Hbr).
    assert (mask = 0 \/ mask = Z.shiftl 1 4) as Hmask.
    { apply (working_mask_barrier m sc row col om set mask); auto; try lia.
      eapply origMaskH_barrier; eauto. }
    destruct (selectH_diag_only a m sc row col mask om rand _ _ _ _ Hmask Hbr)
      as (-> & Hb & [(_ & _ & He & Hcur) | (_ & _ & He & Hcur)]).
    + split; [done|]. split; [rewrite Hb; reflexivity|]. left. rewrite Hcur. reflexivity.
    + split; [done|]. split; [rewrite Hb; reflexivity|]. right.
      split; [rewrite He; reflexivity | done].
Qed.

End GapBarrier.

(** ** The striped element accessor *)

Lemma at_in_range (l : list Z) (i : Z) :
  0 <= i < Z.of_nat (length l) -> exists x, at_ l i = Ret x /\ l !! Z.to_nat i = Some x.
Proof.
  intros Hi. destruct (lookup_lt_is_Some_2 l (Z.to_nat i)) as [x Hx]; [lia|].
  exists x. split; [apply at_Ret; split; [lia | done] | done].
Qed.

Lemma nvecrow_bounds nrow wperv :
  0 < nrow -> 0 < wperv ->
  let S := (nrow + (wperv - 1)) / wperv in
  0 < S /\ nrow <= S * wperv.
Proof.
  intros Hn Hw S. subst S.
  pose proof (Z.div_mod (nrow + (wperv - 1)) wperv ltac:(lia)) as Hdm.
  pose proof (Z.mod_pos_bound (nrow + (wperv - 1)) wperv Hw) as Hmod.
  split; nia.
Qed.

(** C9. In a matrix laid out by [init], for a cell of the matrix and one of
    the three matrices E, F, H, [elt(row, col, mat)] reads what the striped
    mapping with stride [S = nvecrow_] designates: in column [col], slot
    [mat] of the quartet at striped index [row mod S], lane [row / S] of that
    vector (a byte when [wperv_ = 16], a signed halfword when [wperv_ = 8]).
    The lane lies inside the vector, [row] is [lane * S + index], and the
    read returns a value of the lane's type. *)
Theorem elt_striped :
  forall a m row col mat,
  init_layout m ->
  0 <= row < nrow_ m -> 0 <= col < ncol_ m -> 0 <= mat < 3 ->
  elt a m row col mat = striped_elt m row col mat /\
  (let '(sidx, lane) := striped (nvecrow_ m) row in
   0 <= sidx < nvecrow_ m /\ 0 <= lane < wperv_ m /\
   row = lane * nvecrow_ m + sidx) /\
  exists v, elt a m row col mat = Ret v /\
    (if wperv_ m =? 16 then 0 <= v < 256 else - 32768 <= v < 32768).
Proof.
  intros a m row col mat (Hin & Hw & Hnr & Hnc & HS & Hcs & Hrs & Hlen & Hsz & Hbytes)
         Hrow Hcol Hmat.
  assert (0 < wperv_ m) as Hwpos by (destruct Hw; lia).
  destruct (nvecrow_bounds (nrow_ m) (wperv_ m) Hnr Hwpos) as [HSpos HSw].
  rewrite <- HS in HSpos, HSw.
  set (S := nvecrow_ m) in *.
  pose proof (Z.mod_pos_bound row S HSpos) as Hmod.
  pose proof (Z.div_mod row S ltac:(lia)) as Hdm.
  assert (0 <= row / S < wperv_ m) as Hlane.
  { split; [apply Z.div_pos; lia | apply Z.div_lt_upper_bound; nia]. }
  assert (elt a m row col mat = striped_elt m row col mat) as Heq.
  { unfold elt, striped_elt, striped, vector_at, lane_u8, lane_s16.
    rewrite Hin, assert_holds. simpl.
    destruct (Z.ltb_spec row (nrow_ m)); [|lia]. rewrite assert_holds. simpl.
    destruct (Z.ltb_spec col (ncol_ m)); [|lia]. rewrite assert_holds. simpl.
    destruct (Z.ltb_spec mat 3); [|lia]. rewrite assert_holds. simpl.
    fold S. destruct (Z.eqb_spec S 0); [lia|].
    rewrite Hcs, Hrs. fold S.
    rewrite (usz_small (col * (S * 4))) by nia.
    rewrite (usz_small (row mod S * 4)) by nia.
    rewrite (usz_small (col * (S * 4) + row mod S * 4)) by nia.
    rewrite (usz_small (col * (S * 4) + row mod S * 4 + mat)) by nia.
    destruct (Z.eqb_spec (wperv_ m) 16); [reflexivity|].
    destruct Hw as [?|Hw8]; [lia|]. rewrite Hw8. rewrite assert_holds. reflexivity. }
  split; [exact Heq|]. split.
  { unfold striped. split; [lia|]. split; [lia|]. nia. }
  rewrite Heq. unfold striped_elt, striped, vector_at, lane_u8, lane_s16. fold S.
  rewrite Hcs in Hlen. fold S in Hlen.
  destruct (Z.eqb_spec (wperv_ m) 16) as [H16|H16].
  - destruct (at_in_range (bufal_ m) (16 * (col * (S * 4) + row mod S * 4 + mat) + row / S))
      as (x & Hx & Hlk); [nia|].
    exists x. split; [done|].
    rewrite Forall_forall in Hbytes. apply Hbytes.
    eapply list_elem_of_lookup_2; eauto.
  - destruct Hw as [?|Hw8]; [lia|].
    destruct (at_in_range (bufal_ m)
                (16 * (col * (S * 4) + row mod S * 4 + mat) + 2 * (row / S)))
      as (lo & Hlo & _); [nia|].
    destruct (at_in_range (bufal_ m)
                (16 * (col * (S * 4) + row mod S * 4 + mat) + 2 * (row / S) + 1))
      as (hi & Hhi & _); [nia|].
    rewrite Hlo. simpl. rewrite Hhi. simpl.
    eexists. split; [reflexivity|]. unfold s16.
    pose proof (Z.mod_pos_bound (lo + 256 * hi + 2 ^ 15) (2 ^ 16) ltac:(lia)). lia.
Qed.

(** ** The gap bounds *)

(** The loop leaves at the first count whose score is below [minsc]. *)
Lemma gap_loop_exit fuel loss open_ extend minsc :
  forall s first count n,
  gap_loop fuel loss open_ extend minsc s first count = Some n ->
  exists j, 0 <= j /\ n = count + j /\
    after_gaps loss open_ extend s first j < minsc /\
    (1 <= j -> minsc <= after_gaps loss open_ extend s first (j - 1)).
Proof.
  induction fuel as [|fuel IH]; intros s first count n Hl; [discriminate|].
  simpl in Hl. destruct (Z.ltb_spec s minsc) as [Hlt|Hge].
  - injection Hl as <-. exists 0. repeat split; try lia. unfold after_gaps. simpl. lia.
  - apply IH in Hl as (j & Hj & -> & Hbelow & Hprev).
    exists (j + 1). split; [lia|]. split; [lia|].
    unfold after_gaps in *.
    destruct (Z.leb_spec (j + 1) 0); [lia|].
    replace (j + 1 - 1) with j by lia.
    destruct (Z.leb_spec j 0) as [Hj0|Hj0].
    + assert (j = 0) as -> by lia. simpl in *. split; [destruct first; lia|]. lia.
    + split; [destruct first; lia|]. intros _.
      destruct (Z.eq_dec j 1) as [->|Hne].
      * simpl in *. specialize (Hprev ltac:(lia)). destruct first; lia.
      * specialize (Hprev ltac:(lia)).
        destruct (Z.leb_spec (j - 1) 0); [lia|]. destruct first; lia.
Qed.

Lemma gap_loop_more_fuel fuel loss open_ extend minsc :
  forall (s : Z) (first : bool) (count n : Z) (fuel' : nat),
  gap_loop fuel loss open_ extend minsc s first count = Some n ->
  (fuel <= fuel')%nat ->
  gap_loop fuel' loss open_ extend minsc s first count = Some n.
Proof.
  induction fuel as [|fuel IH]; intros s first count n fuel' Hl Hle; [discriminate|].
  destruct fuel' as [|fuel']; [lia|]. simpl in *.
  destruct (s <? minsc); [done|]. apply IH; [done | lia].
Qed.

(** With a positive cost per further gap the loop ends. *)
Lemma gap_loop_ends fuel loss open_ extend minsc :
  0 <= loss + open_ -> 0 < loss + extend ->
  forall (s : Z) (first : bool) (count : Z),
  (Z.to_nat (s - minsc + 1)%Z + 1 + (if first then 1 else 0) <= fuel)%nat ->
  exists n, gap_loop fuel loss open_ extend minsc s first count = Some n.
Proof.
  intros Hopen Hext.
  induction fuel as [|fuel IH]; intros s first count Hf; [lia|].
  simpl. destruct (Z.ltb_spec s minsc) as [Hlt|Hge]; [eauto|].
  apply IH. destruct first; cbv zeta; lia.
Qed.

(** The loops of [scoring.cpp] compute what [gap_loop] computes as long as
    no intermediate value leaves its machine type. *)
Lemma maxReadGaps_loop_refines sc minsc :
  0 <= match_ sc -> 0 <= readGapOpen sc -> 0 <= readGapExtend sc ->
  - 2 ^ 63 + match_ sc + readGapOpen sc + readGapExtend sc <= minsc ->
  forall (fuel : nat) (s : Z) (first : bool) (num n : Z),
  s < 2 ^ 63 -> 0 <= num -> n < 2 ^ 31 ->
  gap_loop fuel (match_ sc) (readGapOpen sc) (readGapExtend sc) minsc s first num
    = Some n ->
  maxReadGaps_loop fuel sc minsc s first num = Ret n.
Proof.
  intros Hm Ho He Hmin.
  induction fuel as [|fuel IH]; intros s first num n Hs Hnum Hn Hg; [discriminate|].
  simpl in *. destruct (Z.ltb_spec s minsc) as [Hlt|Hge].
  - injection Hg as <-. destruct (Z.leb_spec minsc s); [lia | reflexivity].
  - destruct (Z.leb_spec minsc s); [|lia].
    pose proof (gap_loop_exit _ _ _ _ _ _ _ _ _ Hg) as (j & Hj & Hnj & _).
    rewrite (s64_small (s - match_ sc)) by lia.
    rewrite (s32_small (num + 1)) by lia.
    destruct first.
    + rewrite (s64_small (s - match_ sc - readGapOpen sc)) by lia.
      apply IH; (done || lia).
    + rewrite (s64_small (s - match_ sc - readGapExtend sc)) by lia.
      apply IH; (done || lia).
Qed.

Lemma maxRefGaps_loop_refines sc minsc :
  0 <= refGapOpen sc -> 0 <= refGapExtend sc ->
  - 2 ^ 63 + refGapOpen sc + refGapExtend sc <= minsc ->
  forall (fuel : nat) (s : Z) (first : bool) (num n : Z),
  s < 2 ^ 63 -> 0 <= num -> n < 2 ^ 31 ->
  gap_loop fuel 0 (refGapOpen sc) (refGapExtend sc) minsc s first num = Some n ->
  maxRefGaps_loop fuel sc minsc s first num = Ret n.
Proof.
  intros Ho He Hmin.
  induction fuel as [|fuel IH]; intros s first num n Hs Hnum Hn Hg; [discriminate|].
  simpl in *. destruct (Z.ltb_spec s minsc) as [Hlt|Hge].
  - injection Hg as <-. destruct (Z.leb_spec minsc s); [lia | reflexivity].
  - destruct (Z.leb_spec minsc s); [|lia].
    pose proof (gap_loop_exit _ _ _ _ _ _ _ _ _ Hg) as (j & Hj & Hnj & _).
    rewrite (s32_small (num + 1)) by lia.
    rewrite Z.sub_0_r in Hg.
    destruct first.
    + rewrite (s64_small (s - refGapOpen sc)) by lia. apply IH; (done || lia).
    + rewrite (s64_small (s - refGapExtend sc)) by lia. apply IH; (done || lia).
Qed.

(** The count at which [gap_loop] leaves, when it starts at or above
    [minsc] and every further gap costs something. *)
Lemma gap_loop_result loss open_ extend minsc start :
  0 <= loss -> 0 <= open_ -> 0 <= extend -> 0 < loss + extend ->
  minsc <= start ->
  exists k, 0 <= k /\ k <= start - minsc + 1 /\
    minsc <= gapped_score start loss open_ extend k /\
    gapped_score start loss open_ extend (k + 1) < minsc /\
    forall fuel : nat, (Z.to_nat (start - minsc + 1) + 2 <= fuel)%nat ->
      gap_loop fuel loss open_ extend minsc start true 0 = Some (k + 1).
Proof.
  intros Hl Ho He Hpos Hstart.
  destruct (gap_loop_ends (Z.to_nat (start - minsc + 1) + 2) loss open_ extend minsc
              ltac:(lia) Hpos start true 0 ltac:(cbv iota; lia)) as [n Hn].
  destruct (gap_loop_exit _ _ _ _ _ _ _ _ _ Hn) as (j & Hj & -> & Hbelow & Hprev).
  assert (1 <= j) as Hj1.
  { destruct (Z.eq_dec j 0) as [->|]; [|lia]. unfold after_gaps in Hbelow.
    simpl in Hbelow. lia. }
  specialize (Hprev Hj1).
  assert (forall i, after_gaps loss open_ extend start true i
                  = gapped_score start loss open_ extend i) as Hag by reflexivity.
  rewrite Hag in Hbelow, Hprev.
  exists (j - 1). replace (j - 1 + 1) with j by lia.
  split; [lia|]. split.
  { unfold gapped_score in Hprev. destruct (Z.leb_spec (j - 1) 0); [lia|]. nia. }
  split; [done|]. split; [done|].
  intros fuel Hf. replace j with (0 + j) at 1 by lia.
  eapply gap_loop_more_fuel; eauto.
Qed.

(** C3. Under the precondition [read_len * match >= min_score], for a
    scoring scheme with non-negative match bonus and read-gap costs in which
    a further read gap costs something ([match + readGapExtend > 0], so that
    the loop ends) and for arguments that keep the [int64_t] score and the
    [int] counter in range, [maxReadGaps] returns a [k >= 0] at the boundary:
    the all-match score with [k] read gaps is at least [min_score], the one
    with [k + 1] read gaps is below it. *)
Theorem maxReadGaps_boundary :
  forall a sc minsc rdlen,
  0 <= match_ sc -> 0 <= readGapOpen sc -> 0 <= readGapExtend sc ->
  0 < match_ sc + readGapExtend sc ->
  0 <= rdlen ->
  minsc <= rdlen * match_ sc ->
  rdlen * match_ sc < 2 ^ 63 ->
  - 2 ^ 63 + match_ sc + readGapOpen sc + readGapExtend sc <= minsc ->
  rdlen * match_ sc - minsc < 2 ^ 31 - 2 ->
  exists k, 0 <= k /\
    minsc <= gapped_score (rdlen * match_ sc) (match_ sc)
               (readGapOpen sc) (readGapExtend sc) k /\
    gapped_score (rdlen * match_ sc) (match_ sc)
      (readGapOpen sc) (readGapExtend sc) (k + 1) < minsc /\
    exists fuel0 : nat, forall fuel : nat, (fuel0 <= fuel)%nat ->
      maxReadGaps a fuel sc minsc rdlen = Ret k.
Proof.
  intros a sc minsc rdlen Hm Ho He Hpos Hlen Hpre Hs Hmin Hcnt.
  destruct (gap_loop_result (match_ sc) (readGapOpen sc) (readGapExtend sc) minsc
              (rdlen * match_ sc) Hm Ho He Hpos Hpre)
    as (k & Hk & Hkb & Hfeas & Hinf & Hloop).
  exists k. repeat (split; [done|]).
  exists (Z.to_nat (rdlen * match_ sc - minsc + 1) + 2)%nat. intros fuel Hf.
  unfold maxReadGaps.
  assert (match_ sc <= rdlen * match_ sc \/ rdlen = 0) as Hmr by nia.
  rewrite (usz_small (match_ sc)) by (destruct Hmr; [lia | subst; lia]).
  rewrite (usz_small (rdlen * match_ sc)) by nia.
  rewrite (s64_small (rdlen * match_ sc)) by nia.
  destruct (Z.leb_spec minsc (rdlen * match_ sc)); [|lia].
  rewrite assert_holds. simpl.
  rewrite (maxReadGaps_loop_refines sc minsc Hm Ho He Hmin fuel _ _ _ (k + 1));
    [| lia | lia | lia | auto].
  simpl. destruct (Z.ltb_spec 0 (k + 1)); [|lia].
  rewrite assert_holds. simpl. replace (k + 1 - 1) with k by lia.
  rewrite s32_small by lia. reflexivity.
Qed.

(** Without a cost for a further gap (match 0, extend 0) the loop of
    [maxReadGaps] has no exit: no fuel is enough. *)
Remark maxReadGaps_free_gaps_no_exit :
  forall fuel : nat,
  maxReadGaps false fuel (mkScoring 0 5 0 0 0 0 f32_zero f32_zero false) 0 5
  = Stop OutOfFuel.
Proof.
  intros fuel. unfold maxReadGaps.
  change (s64 (usz (5 * usz (match_ (mkScoring 0 5 0 0 0 0 f32_zero f32_zero false)))))
    with 0.
  rewrite assert_off. simpl.
  assert (forall first num,
            maxReadGaps_loop fuel (mkScoring 0 5 0 0 0 0 f32_zero f32_zero false)
              0 0 first num = Stop OutOfFuel) as ->; [|reflexivity].
  induction fuel as [|fuel IH]; intros first num; [reflexivity|].
  simpl. destruct first; apply IH.
Qed.

(** C2 (as stated, it fails). The claim: [maxRefGaps] returns what the
    document's algorithm returns, which subtracts one match for every gap.
    With the scheme of the first test of [scoring.cpp] (match 1, first gap
    15), a read of 15 bases and [minsc = 0], [maxRefGaps] returns 1, as the
    test there expects ("15 - 0 - 15 = 0"), and the document's algorithm 0. *)
Lemma maxRefGaps_keeps_matches :
  maxRefGaps true 8 bwaSwLike 0 15 = Ret 1 /\
  spec_max_ref_gaps 8 bwaSwLike 0 15 = Some 0.
Proof. split; reflexivity. Qed.

(** C2, amended. Under the precondition, for non-negative reference-gap
    costs with a positive extend cost and arguments that keep the [int64_t]
    score and the [int] counter in range, [maxRefGaps] returns the value of
    the algorithm that subtracts no match: from [read_len * match], subtract
    the open cost for the first gap and the extend cost for each later one
    until the score is below [min_score], and return the count minus one.
    That value [k] is the boundary for reference gaps, which give up no
    match: [k] gaps keep the score at or above [min_score], [k + 1] do not. *)
Theorem maxRefGaps_no_match_loss :
  forall a sc minsc rdlen,
  0 <= match_ sc < 2 ^ 31 -> 0 <= refGapOpen sc -> 0 < refGapExtend sc ->
  0 <= rdlen ->
  minsc <= rdlen * match_ sc ->
  rdlen * match_ sc < 2 ^ 63 ->
  - 2 ^ 63 + refGapOpen sc + refGapExtend sc <= minsc ->
  rdlen * match_ sc - minsc < 2 ^ 31 - 2 ->
  exists k, 0 <= k /\
    minsc <= gapped_score (rdlen * match_ sc) 0 (refGapOpen sc) (refGapExtend sc) k /\
    gapped_score (rdlen * match_ sc) 0 (refGapOpen sc) (refGapExtend sc) (k + 1)
      < minsc /\
    exists fuel0 : nat, forall fuel : nat, (fuel0 <= fuel)%nat ->
      maxRefGaps a fuel sc minsc rdlen = Ret k /\
      ref_gaps_no_match_loss fuel sc minsc rdlen = Some k.
Proof.
  intros a sc minsc rdlen Hm Ho He Hlen Hpre Hs Hmin Hcnt.
  destruct (gap_loop_result 0 (refGapOpen sc) (refGapExtend sc) minsc
              (rdlen * match_ sc) ltac:(lia) Ho ltac:(lia) ltac:(lia) Hpre)
    as (k & Hk & Hkb & Hfeas & Hinf & Hloop).
  exists k. repeat (split; [done|]).
  exists (Z.to_nat (rdlen * match_ sc - minsc + 1) + 2)%nat. intros fuel Hf.
  split.
  - unfold maxRefGaps.
    assert (match_ sc <= rdlen * match_ sc \/ rdlen = 0) as Hmr by nia.
    rewrite (usz_small (match_ sc)) by (destruct Hmr; [lia | subst; lia]).
    rewrite (usz_small (rdlen * match_ sc)) by nia.
    rewrite (s64_small (rdlen * match_ sc)) by nia.
    destruct (Z.leb_spec minsc (rdlen * match_ sc)); [|lia].
    rewrite assert_holds. simpl.
    rewrite (maxRefGaps_loop_refines sc minsc Ho ltac:(lia) Hmin fuel _ _ _ (k + 1));
      [| lia | lia | lia | auto].
    simpl. destruct (Z.ltb_spec 0 (k + 1)); [|lia].
    rewrite assert_holds. simpl. replace (k + 1 - 1) with k by lia.
    rewrite s32_small by lia. reflexivity.
  - unfold ref_gaps_no_match_loss. rewrite Hloop by done. simpl.
    f_equal. lia.
Qed.

(** The values the tests of [scoring.cpp] assert, on the model. *)
Example maxReadGaps_case1 :
  map (maxReadGaps true 16 bwaSwLike 0) [10; 11; 12; 13; 14; 15; 16; 17; 18; 19; 20; 21]
  = map Ret [0; 0; 0; 0; 0; 0; 1; 1; 1; 1; 1; 2].
Proof. reflexivity. Qed.

Example maxRefGaps_case1 :
  map (maxRefGaps true 16 bwaSwLike 0) [10; 11; 12; 13; 14; 15; 16; 17; 18; 19; 20; 21]
  = map Ret [0; 0; 0; 0; 0; 1; 1; 1; 1; 2; 2; 2].
Proof. reflexivity. Qed.

Example maxReadGaps_case2 :
  map (maxReadGaps true 16 scoring_case2 0) [8; 9; 10; 11; 12; 13; 14]
  = map Ret [0; 0; 1; 1; 1; 1; 2].
Proof. reflexivity. Qed.

Example maxRefGaps_case2 :
  map (maxRefGaps true 16 scoring_case2 0) [8; 9; 10; 11; 12; 13; 14]
  = map Ret [0; 1; 1; 1; 2; 2; 3].
Proof. reflexivity. Qed.

(** ** Binary32 arithmetic on small integers *)

Lemma shiftl_nat_Z p n : Zpos (Pos.shiftl_nat p n) = Zpos p * 2 ^ Z.of_nat n.
Proof.
  induction n as [|n IH]; [simpl; lia|].
  change (Pos.shiftl_nat p (S n)) with ((Pos.shiftl_nat p n)~0)%positive.
  rewrite Pos2Z.inj_xO, IH, Nat2Z.inj_succ, Z.pow_succ_r by lia. lia.
Qed.

Lemma shiftl_nat_add p a b :
  Pos.shiftl_nat (Pos.shiftl_nat p a) b = Pos.shiftl_nat p (a + b).
Proof.
  induction b as [|b IH]; [rewrite Nat.add_0_r; reflexivity|].
  rewrite Nat.add_succ_r.
  change (Pos.shiftl_nat ?q (S ?n)) with ((Pos.shiftl_nat q n)~0)%positive.
  rewrite IH. reflexivity.
Qed.

Lemma digits2_size_nat p : Zpos (digits2_pos p) = Z.of_nat (Pos.size_nat p).
Proof.
  induction p as [p IH|p IH|]; simpl digits2_pos; simpl Pos.size_nat;
    rewrite ?Pos2Z.inj_succ, ?Nat2Z.inj_succ, ?IH; reflexivity.
Qed.

Lemma digits2_shiftl_nat p n :
  Zpos (digits2_pos (Pos.shiftl_nat p n)) = Zpos (digits2_pos p) + Z.of_nat n.
Proof.
  induction n as [|n IH]; [simpl; lia|].
  change (Pos.shiftl_nat p (S n)) with ((Pos.shiftl_nat p n)~0)%positive.
  simpl digits2_pos. rewrite Pos2Z.inj_succ, IH. lia.
Qed.

Lemma digits2_bounds p :
  2 ^ (Zpos (digits2_pos p) - 1) <= Zpos p < 2 ^ Zpos (digits2_pos p).
Proof.
  induction p as [p IH|p IH|]; simpl digits2_pos; rewrite ?Pos2Z.inj_succ.
  - replace (Z.succ (Zpos (digits2_pos p)) - 1) with (Z.succ (Zpos (digits2_pos p) - 1)) by lia.
    rewrite !Z.pow_succ_r by lia. lia.
  - replace (Z.succ (Zpos (digits2_pos p)) - 1) with (Z.succ (Zpos (digits2_pos p) - 1)) by lia.
    rewrite !Z.pow_succ_r by lia. lia.
  - simpl. lia.
Qed.

Lemma iter_pos_nat {A} (f : A -> A) p x :
  SpecFloat.iter_pos f p x = Nat.iter (Pos.to_nat p) f x.
Proof.
  assert (forall n y, Nat.iter n f (f y) = f (Nat.iter n f y)) as Hc
    by (intros n y; rewrite <- Nat.iter_succ_r; reflexivity).
  revert x. induction p as [p IH|p IH|]; intros x; simpl SpecFloat.iter_pos.
  - rewrite !IH, Pos2Nat.inj_xI.
    replace (S (2 * Pos.to_nat p)) with (S (Pos.to_nat p + Pos.to_nat p)) by lia.
    rewrite Nat.iter_succ, Nat.iter_add, !Hc. reflexivity.
  - rewrite !IH, Pos2Nat.inj_xO.
    replace (2 * Pos.to_nat p)%nat with (Pos.to_nat p + Pos.to_nat p)%nat by lia.
    rewrite Nat.iter_add. reflexivity.
  - reflexivity.
Qed.

Lemma shr_exact n p :
  Nat.iter n shr_1 {| shr_m := Zpos (Pos.shiftl_nat p n); shr_r := false; shr_s := false |}
  = {| shr_m := Zpos p; shr_r := false; shr_s := false |}.
Proof.
  induction n as [|n IH]; [reflexivity|].
  rewrite Nat.iter_succ_r.
  change (Pos.shiftl_nat p (S n)) with ((Pos.shiftl_nat p n)~0)%positive.
  simpl shr_1. exact IH.
Qed.

Lemma Zdigits2_pos m : Zdigits2 (Zpos m) = Zpos (digits2_pos m).
Proof. reflexivity. Qed.

Lemma fexp32 e : fexp 24 128 e = Z.max (e - 24) (-149).
Proof. reflexivity. Qed.

Lemma shr_fexp_canonical m e :
  Zpos (digits2_pos m) = 24 -> -149 <= e ->
  shr_fexp 24 128 (Zpos m) e loc_Exact
  = ({| shr_m := Zpos m; shr_r := false; shr_s := false |}, e).
Proof.
  intros Hd He. unfold shr_fexp. rewrite Zdigits2_pos, Hd, fexp32.
  replace (Z.max (24 + e - 24) (-149) - e) with 0 by lia. reflexivity.
Qed.

Lemma round_aux_canonical sx m e :
  Zpos (digits2_pos m) = 24 -> -149 <= e <= 104 ->
  binary_round_aux 24 128 sx (Zpos m) e loc_Exact = S754_finite sx m e.
Proof.
  intros Hd He. unfold binary_round_aux.
  rewrite shr_fexp_canonical by (done || lia). simpl shr_m. simpl loc_of_shr_record.
  simpl round_nearest_even. rewrite shr_fexp_canonical by (done || lia).
  simpl shr_m. destruct (Z.leb_spec e (128 - 24)); [reflexivity | lia].
Qed.

(** Trailing zeros are shifted out without rounding. *)
Lemma round_aux_shifted sx q (d : nat) e :
  Zpos (digits2_pos q) = 24 -> -149 <= e + Z.of_nat d <= 104 ->
  binary_round_aux 24 128 sx (Zpos (Pos.shiftl_nat q d)) e loc_Exact
  = S754_finite sx q (e + Z.of_nat d).
Proof.
  intros Hd He. destruct d as [|d].
  { simpl Pos.shiftl_nat. rewrite Z.add_0_r in *. apply round_aux_canonical; done. }
  unfold binary_round_aux.
  assert (shr_fexp 24 128 (Zpos (Pos.shiftl_nat q (S d))) e loc_Exact
          = ({| shr_m := Zpos q; shr_r := false; shr_s := false |}, e + Z.of_nat (S d)))
    as ->.
  { unfold shr_fexp. rewrite Zdigits2_pos, digits2_shiftl_nat, Hd, fexp32.
    replace (Z.max (24 + Z.of_nat (S d) + e - 24) (-149) - e) with (Z.of_nat (S d)) by lia.
    rewrite Nat2Z.inj_succ, <- Zpos_P_of_succ_nat. unfold shr.
    rewrite iter_pos_nat, SuccNat2Pos.id_succ.
    change (shr_record_of_loc (Zpos (Pos.shiftl_nat q (S d))) loc_Exact)
      with {| shr_m := Zpos (Pos.shiftl_nat q (S d)); shr_r := false; shr_s := false |}.
    rewrite shr_exact. reflexivity. }
  simpl shr_m. simpl loc_of_shr_record. simpl round_nearest_even.
  rewrite shr_fexp_canonical by (done || lia).
  simpl shr_m. destruct (Z.leb_spec (e + Z.of_nat (S d)) (128 - 24)); [reflexivity | lia].
Qed.

(** Integers of at most 24 bits, scaled by a power of two, are rounded to
    themselves. *)
Lemma binary_round_int p (t : nat) :
  (Pos.size_nat p <= 24)%nat ->
  binary_round 24 128 false (Pos.shiftl_nat p t) (- Z.of_nat t) = f32_int (Zpos p).
Proof.
  intros HL. unfold binary_round, f32_int.
  pose proof (digits2_size_nat p) as Hsz.
  assert (1 <= Pos.size_nat p)%nat as HL1 by (destruct p; simpl; lia).
  rewrite digits2_shiftl_nat, Hsz, fexp32.
  replace (Z.max (Z.of_nat (Pos.size_nat p) + Z.of_nat t + - Z.of_nat t - 24) (-149))
    with (Z.of_nat (Pos.size_nat p) - 24) by lia.
  unfold shl_align.
  destruct (Z.of_nat (Pos.size_nat p) - 24 - - Z.of_nat t) as [|d|d] eqn:Hdiff.
  - (* no shift: t = 24 - L *)
    assert (t = 24 - Pos.size_nat p)%nat as -> by lia.
    rewrite round_aux_canonical; [f_equal; lia | | lia].
    rewrite digits2_shiftl_nat, Hsz. lia.
  - (* the mantissa has trailing zeros to give up *)
    assert (t = (24 - Pos.size_nat p) + Pos.to_nat d)%nat as Ht by lia.
    rewrite Ht, <- shiftl_nat_add.
    rewrite round_aux_shifted; [f_equal; lia | | lia].
    rewrite digits2_shiftl_nat, Hsz. lia.
  - (* shift left to 24 bits *)
    rewrite Pos2Nat.inj_iter. fold (Pos.shiftl_nat (Pos.shiftl_nat p t) (Pos.to_nat d)).
    rewrite shiftl_nat_add.
    assert (t + Pos.to_nat d = 24 - Pos.size_nat p)%nat as -> by lia.
    rewrite round_aux_canonical; [reflexivity | | lia].
    rewrite digits2_shiftl_nat, Hsz. lia.
Qed.

Lemma size_nat_le_24 p : Zpos p < 2 ^ 24 -> (Pos.size_nat p <= 24)%nat.
Proof.
  intros Hp. pose proof (digits2_bounds p) as [Hlo _].
  rewrite digits2_size_nat in Hlo.
  destruct (le_lt_dec (Pos.size_nat p) 24) as [|Hgt]; [done|].
  assert (2 ^ 24 <= 2 ^ (Z.of_nat (Pos.size_nat p) - 1))
    by (apply Z.pow_le_mono_r; lia). lia.
Qed.

(** [(float)n] is exact up to 24 bits. *)
Lemma f32_of_Z_int n : 0 <= n < 2 ^ 24 -> f32_of_Z n = f32_int n.
Proof.
  intros Hn. destruct n as [|p|p]; [reflexivity | | lia].
  unfold f32_of_Z, binary_normalize.
  apply (binary_round_int p 0). apply size_nat_le_24. lia.
Qed.

(** Adding [1.0f] to an integer below [2^24 - 1] is exact. *)
Lemma f32_add_one n :
  0 <= n -> n + 1 < 2 ^ 24 -> f32_add (f32_int n) f32_one = f32_int (n + 1).
Proof.
  intros Hn Hlt. destruct n as [|p|p]; [reflexivity | | lia].
  assert (Pos.size_nat p <= 24)%nat as HL by (apply size_nat_le_24; lia).
  assert (1 <= Pos.size_nat p)%nat as HL1 by (destruct p; simpl; lia).
  unfold f32_add, f32_int at 1, f32_one, SFadd.
  rewrite Z.min_r by lia.
  assert (fst (shl_align (Pos.shiftl_nat p (24 - Pos.size_nat p))
                 (Z.of_nat (Pos.size_nat p) - 24) (-23)) = Pos.shiftl_nat p 23) as ->.
  { unfold shl_align.
    destruct (-23 - (Z.of_nat (Pos.size_nat p) - 24)) as [|d|d] eqn:Hd; simpl fst.
    - f_equal. lia.
    - lia.
    - rewrite Pos2Nat.inj_iter.
      fold (Pos.shiftl_nat (Pos.shiftl_nat p (24 - Pos.size_nat p)) (Pos.to_nat d)).
      rewrite shiftl_nat_add. f_equal. lia. }
  change (fst (shl_align 8388608 (-23) (-23))) with (Pos.shiftl_nat 1 23).
  unfold cond_Zopp.
  assert (Zpos (Pos.shiftl_nat p 23) + Zpos (Pos.shiftl_nat 1 23)
          = Zpos (Pos.shiftl_nat (p + 1) 23)) as ->.
  { rewrite !shiftl_nat_Z. lia. }
  unfold binary_normalize.
  change (-23) with (- Z.of_nat 23). rewrite binary_round_int.
  - replace (Zpos p + 1) with (Zpos (p + 1)) by lia. reflexivity.
  - apply size_nat_le_24. lia.
Qed.

Lemma f32_int_units n : 0 <= n < 2 ^ 24 -> f32_units (f32_int n) = n * 2 ^ 149.
Proof.
  intros Hn. destruct n as [|p|p]; [reflexivity | | lia].
  assert (Pos.size_nat p <= 24)%nat as HL by (apply size_nat_le_24; lia).
  unfold f32_int, f32_units, cond_Zopp. rewrite shiftl_nat_Z.
  replace (Z.of_nat (Pos.size_nat p) - 24 + 149)
    with (149 - Z.of_nat (24 - Pos.size_nat p)) by lia.
  rewrite <- Z.mul_assoc, <- Z.pow_add_r by lia. f_equal. f_equal. lia.
Qed.

Lemma f32_int_finite n : 0 <= n < 2 ^ 24 -> f32_finite (f32_int n) = true.
Proof.
  intros Hn. destruct n as [|p|p]; [reflexivity | | lia].
  assert (Pos.size_nat p <= 24)%nat as HL by (apply size_nat_le_24; lia).
  assert (1 <= Pos.size_nat p)%nat as HL1 by (destruct p; simpl; lia).
  unfold f32_int, f32_finite, bounded, canonical_mantissa.
  rewrite digits2_shiftl_nat, digits2_size_nat, fexp32.
  apply andb_true_intro. split; [apply Z.eqb_eq | apply Z.leb_le]; lia.
Qed.

(** The shape of a well-formed finite binary32 value. *)
Lemma bounded_shape m e :
  bounded 24 128 m e = true ->
  -149 <= e /\ Zpos (digits2_pos m) <= 24 /\ (-149 < e -> Zpos (digits2_pos m) = 24).
Proof.
  unfold bounded, canonical_mantissa. rewrite fexp32. intros Hb.
  apply andb_prop in Hb as [Hc _]. apply Z.eqb_eq in Hc. lia.
Qed.

(** Magnitudes of well-formed values are ordered as the pairs
    (exponent, mantissa) are. *)
Lemma magnitude_lt m1 e1 m2 e2 :
  bounded 24 128 m1 e1 = true -> bounded 24 128 m2 e2 = true -> e1 < e2 ->
  Zpos m1 * 2 ^ (e1 + 149) < Zpos m2 * 2 ^ (e2 + 149).
Proof.
  intros H1 H2 He.
  apply bounded_shape in H1 as (Ha1 & Hd1 & _).
  apply bounded_shape in H2 as (Ha2 & _ & Hd2). specialize (Hd2 ltac:(lia)).
  pose proof (digits2_bounds m1) as [_ Hm1]. pose proof (digits2_bounds m2) as [Hm2 _].
  rewrite Hd2 in Hm2. change (2 ^ (24 - 1)) with 8388608 in Hm2.
  assert (Zpos m1 < 2 ^ 24) as Hm1'.
  { eapply Z.lt_le_trans; [exact Hm1|]. apply Z.pow_le_mono_r; lia. }
  change (2 ^ 24) with 16777216 in Hm1'.
  replace (e2 + 149) with ((e1 + 149) + (e2 - e1)) by lia.
  rewrite (Z.pow_add_r 2 (e1 + 149) (e2 - e1)) by lia.
  assert (0 < 2 ^ (e1 + 149)) by (apply Z.pow_pos_nonneg; lia).
  assert (2 ^ 1 <= 2 ^ (e2 - e1)) by (apply Z.pow_le_mono_r; lia).
  change (2 ^ 1) with 2 in *.
  set (A := 2 ^ (e1 + 149)) in *. set (B := 2 ^ (e2 - e1)) in *.
  assert (A * 2 <= A * B) by nia.
  assert (8388608 * (A * B) <= Zpos m2 * (A * B)) by nia.
  assert (Zpos m1 * A < 16777216 * A) by nia.
  lia.
Qed.

Lemma magnitude_compare m1 e1 m2 e2 :
  bounded 24 128 m1 e1 = true -> bounded 24 128 m2 e2 = true ->
  match Z.compare e1 e2 with
  | Lt => Lt
  | Gt => Gt
  | Eq => Pos.compare_cont Eq m1 m2
  end = Z.compare (Zpos m1 * 2 ^ (e1 + 149)) (Zpos m2 * 2 ^ (e2 + 149)).
Proof.
  intros H1 H2. destruct (Z.compare_spec e1 e2) as [->|Hlt|Hgt].
  - pose proof (bounded_shape _ _ H2) as (Ha & _).
    assert (0 < 2 ^ (e2 + 149)) by (apply Z.pow_pos_nonneg; lia).
    change (Pos.compare_cont Eq m1 m2) with (Zpos m1 ?= Zpos m2).
    destruct (Z.compare_spec (Zpos m1) (Zpos m2)) as [Heq|Hl|Hg]; symmetry.
    + apply Z.compare_eq_iff. rewrite Heq. reflexivity.
    + apply Z.compare_lt_iff. nia.
    + apply Z.compare_gt_iff. nia.
  - symmetry. apply Z.compare_lt_iff. apply magnitude_lt; done.
  - symmetry. apply Z.compare_gt_iff. apply magnitude_lt; done.
Qed.

Lemma magnitude_compare_opp m1 e1 m2 e2 :
  bounded 24 128 m1 e1 = true -> bounded 24 128 m2 e2 = true ->
  match Z.compare e1 e2 with
  | Lt => Gt
  | Gt => Lt
  | Eq => CompOpp (Pos.compare_cont Eq m1 m2)
  end = CompOpp (Z.compare (Zpos m1 * 2 ^ (e1 + 149)) (Zpos m2 * 2 ^ (e2 + 149))).
Proof.
  intros H1 H2. rewrite <- (magnitude_compare _ _ _ _ H1 H2).
  destruct (Z.compare e1 e2); reflexivity.
Qed.

(** Comparison of finite values is comparison of their values. *)
Lemma f32_ltb_units x y :
  f32_finite x = true -> f32_finite y = true ->
  f32_ltb x y = (f32_units x <? f32_units y).
Proof.
  intros Hx Hy. unfold f32_ltb, SFltb.
  destruct x as [sx| | |sx mx ex], y as [sy| | |sy my ey]; try discriminate;
    simpl in Hx, Hy.
  - reflexivity.
  - pose proof (bounded_shape _ _ Hy) as (Ha & _).
    assert (0 < Zpos my * 2 ^ (ey + 149))
      by (apply Z.mul_pos_pos; [lia | apply Z.pow_pos_nonneg; lia]).
    unfold SFcompare, f32_units, cond_Zopp. destruct sy; symmetry;
      [apply Z.ltb_ge | apply Z.ltb_lt]; lia.
  - pose proof (bounded_shape _ _ Hx) as (Ha & _).
    assert (0 < Zpos mx * 2 ^ (ex + 149))
      by (apply Z.mul_pos_pos; [lia | apply Z.pow_pos_nonneg; lia]).
    unfold SFcompare, f32_units, cond_Zopp. destruct sx; symmetry;
      [apply Z.ltb_lt | apply Z.ltb_ge]; lia.
  - pose proof (bounded_shape _ _ Hx) as (Hax & _).
    pose proof (bounded_shape _ _ Hy) as (Hay & _).
    assert (0 < Zpos mx * 2 ^ (ex + 149))
      by (apply Z.mul_pos_pos; [lia | apply Z.pow_pos_nonneg; lia]).
    assert (0 < Zpos my * 2 ^ (ey + 149))
      by (apply Z.mul_pos_pos; [lia | apply Z.pow_pos_nonneg; lia]).
    unfold SFcompare, f32_units, cond_Zopp.
    destruct sx, sy.
    + rewrite (magnitude_compare_opp _ _ _ _ Hx Hy).
      destruct (Z.compare_spec (Zpos mx * 2 ^ (ex + 149)) (Zpos my * 2 ^ (ey + 149)));
        simpl; symmetry; [apply Z.ltb_ge | apply Z.ltb_ge | apply Z.ltb_lt]; lia.
    + symmetry. apply Z.ltb_lt. lia.
    + symmetry. apply Z.ltb_ge. lia.
    + rewrite (magnitude_compare _ _ _ _ Hx Hy).
      destruct (Z.compare_spec (Zpos mx * 2 ^ (ex + 149)) (Zpos my * 2 ^ (ey + 149)));
        simpl; symmetry; [apply Z.ltb_ge | apply Z.ltb_lt | apply Z.ltb_ge]; lia.
Qed.

(** ** The N filter *)

Lemma floor_ltb x n : (f32_floor x <? n) = (f32_units x <? n * 2 ^ 149).
Proof.
  unfold f32_floor.
  assert (0 < 2 ^ 149) as Hp by (apply Z.pow_pos_nonneg; lia).
  pose proof (Z.div_mod (f32_units x) (2 ^ 149) ltac:(lia)) as Hdm.
  pose proof (Z.mod_pos_bound (f32_units x) (2 ^ 149) Hp) as Hm.
  destruct (Z.ltb_spec (f32_units x / 2 ^ 149) n),
           (Z.ltb_spec (f32_units x) (n * 2 ^ 149)); try reflexivity; nia.
Qed.

(** [x < (float)n] for an integer [n] of at most 24 bits. *)
Lemma f32_ltb_int x n :
  f32_finite x = true -> 0 <= n < 2 ^ 24 ->
  f32_ltb x (f32_int n) = (f32_floor x <? n).
Proof.
  intros Hx Hn. rewrite f32_ltb_units by (done || apply f32_int_finite; done).
  rewrite f32_int_units, floor_ltb by done. reflexivity.
Qed.

Lemma f32_ltb_zero x : f32_finite x = true -> f32_ltb x f32_zero = (f32_floor x <? 0).
Proof. intros Hx. apply (f32_ltb_int x 0); (done || lia). Qed.

Lemma countN_nonneg rd : 0 <= countN rd.
Proof. induction rd as [|c rd IH]; simpl; [lia | destruct (c =? 4); lia]. Qed.

Lemma countN_app r1 r2 : countN (r1 ++ r2) = countN r1 + countN r2.
Proof. induction r1 as [|c r1 IH]; simpl; [lia | rewrite IH; lia]. Qed.

Lemma countN_take k rd : countN (take k rd) <= countN rd.
Proof.
  rewrite <- (take_drop k rd) at 2. rewrite countN_app.
  pose proof (countN_nonneg (drop k rd)). lia.
Qed.

(** The loop of [nFilter], entered with a count within the ceiling. *)
Lemma nFilter_loop_count maxns :
  f32_finite maxns = true ->
  forall rd n,
  0 <= n -> n + Z.of_nat (length rd) < 2 ^ 24 -> n <= f32_floor maxns ->
  nFilter_loop maxns rd (f32_int n) = (n + countN rd <=? f32_floor maxns).
Proof.
  intros Hfin. induction rd as [|c rd IH]; intros n Hn Hlen Hle.
  - simpl. rewrite Z.add_0_r. symmetry. apply Z.leb_le. done.
  - simpl length in Hlen. rewrite Nat2Z.inj_succ in Hlen.
    simpl. destruct (c =? 4).
    + rewrite f32_add_one by lia. rewrite f32_ltb_int by (done || lia).
      destruct (Z.ltb_spec (f32_floor maxns) (n + 1)) as [Hex|Hok].
      * symmetry. apply Z.leb_gt. pose proof (countN_nonneg rd). lia.
      * rewrite IH by lia. f_equal. lia.
    + rewrite IH by lia. reflexivity.
Qed.

(** C4. For a non-empty read of fewer than [2^24] bases, when the ceiling
    [nCeilConst + nCeilLinear * length], computed in [float], is a finite
    number, [nFilter] returns true exactly when the number of Ns is at most
    the floor of [max(0, ceiling)]. A negative ceiling counts as 0, so a
    read without Ns passes. *)
Theorem nFilter_ceiling :
  forall a sc (rd : BTDnaString),
  rd <> [] -> Z.of_nat (length rd) < 2 ^ 24 ->
  f32_finite (nCeil_f32 sc (Z.of_nat (length rd))) = true ->
  nFilter a sc rd
  = Ret (countN rd <=? Z.max 0 (f32_floor (nCeil_f32 sc (Z.of_nat (length rd))))) /\
  (countN rd = 0 -> nFilter a sc rd = Ret true).
Proof.
  intros a sc rd Hne Hlen Hfin.
  assert (nFilter a sc rd
          = Ret (countN rd <=? Z.max 0 (f32_floor (nCeil_f32 sc (Z.of_nat (length rd))))))
    as Heq.
  { unfold nFilter. fold (nCeil_f32 sc (Z.of_nat (length rd))).
    set (maxns := nCeil_f32 sc (Z.of_nat (length rd))) in *.
    destruct (Z.ltb_spec 0 (Z.of_nat (length rd))) as [_|Hz];
      [|destruct rd; [done | simpl in Hz; lia]].
    rewrite assert_holds. simpl. f_equal.
    rewrite f32_ltb_zero by done.
    change f32_zero with (f32_int 0).
    destruct (Z.ltb_spec (f32_floor maxns) 0) as [Hneg|Hpos].
    - rewrite nFilter_loop_count by (reflexivity || lia || (change (f32_floor (f32_int 0)) with 0; lia)).
      change (f32_floor (f32_int 0)) with 0. rewrite Z.max_l by lia. reflexivity.
    - rewrite nFilter_loop_count by (done || lia).
      rewrite Z.max_r by lia. reflexivity. }
  split; [exact Heq|]. intros Hz. rewrite Heq, Hz. f_equal. apply Z.leb_le. lia.
Qed.

(** The loops of the [ncatpair] case: every position is checked, and the
    count only grows, so the last check decides. *)
Lemma nFilterPair_loop_count maxns :
  f32_finite maxns = true ->
  forall rd ns,
  0 <= ns -> ns + Z.of_nat (length rd) < 2 ^ 24 ->
  nFilterPair_loop maxns rd ns
  = if match rd with [] => true | _ => ns + countN rd <=? f32_floor maxns end
    then Some (ns + countN rd) else None.
Proof.
  intros Hfin. induction rd as [|c rd IH]; intros ns Hns Hlen.
  - simpl. rewrite Z.add_0_r. reflexivity.
  - simpl length in Hlen. rewrite Nat2Z.inj_succ in Hlen.
    pose proof (countN_nonneg rd) as Hc.
    cbn [nFilterPair_loop countN].
    set (d := if c =? 4 then 1 else 0).
    assert (0 <= d <= 1) as Hd by (subst d; destruct (c =? 4); lia).
    assert ((if c =? 4 then usz (ns + 1) else ns) = ns + d) as ->.
    { subst d. destruct (c =? 4); [apply usz_small; lia | lia]. }
    rewrite f32_of_Z_int, f32_ltb_int by (done || lia).
    destruct (Z.ltb_spec (f32_floor maxns) (ns + d)) as [Hex|Hok].
    + destruct (Z.leb_spec (ns + (d + countN rd)) (f32_floor maxns)); [lia | reflexivity].
    + rewrite IH by lia. destruct rd as [|c' rd'].
      * simpl countN. rewrite !Z.add_0_r.
        destruct (Z.leb_spec (ns + d) (f32_floor maxns)); [reflexivity | lia].
      * rewrite !Z.add_assoc. reflexivity.
Qed.

(** C5. Two mates, both given. With [ncatpair], when the two lengths add up
    to less than [2^24] and the combined ceiling
    [nCeilConst + nCeilLinear * (len1 + len2)], computed in [float], is a
    finite number: [filt1] and [filt2] get the same value; it is true exactly
    when the running N count over mate 1 followed by mate 2 is at most the
    floor of the ceiling at every base, which for mates that are not both
    empty says that the total N count is at most that floor. Without
    [ncatpair], [filt1] is [nFilter] of mate 1 and [filt2] is [nFilter] of
    mate 2. *)
Theorem nFilterPair_combined :
  forall a sc (r1 r2 : BTDnaString),
  (ncatpair sc = true ->
   Z.of_nat (length r1) + Z.of_nat (length r2) < 2 ^ 24 ->
   f32_finite (nCeil_f32 sc (Z.of_nat (length r1) + Z.of_nat (length r2))) = true ->
   let limit := f32_floor (nCeil_f32 sc (Z.of_nat (length r1) + Z.of_nat (length r2))) in
   exists b : bool,
     nFilterPair a sc (Some r1) (Some r2) = Ret (b, b) /\
     (b = true <->
      forall k : nat, (1 <= k <= length (r1 ++ r2))%nat ->
        countN (take k (r1 ++ r2)) <= limit) /\
     (r1 ++ r2 <> [] -> b = (countN (r1 ++ r2) <=? limit))) /\
  (ncatpair sc = false ->
   nFilterPair a sc (Some r1) (Some r2)
   = (filt1 ← nFilter a sc r1; filt2 ← nFilter a sc r2; mret (filt1, filt2))).
Proof.
  intros a sc r1 r2. split; [|intros Hcat; unfold nFilterPair; rewrite Hcat; reflexivity].
  intros Hcat Hlen Hfin limit.
  set (b := match r1 ++ r2 with [] => true | _ => countN (r1 ++ r2) <=? limit end).
  assert (nFilterPair a sc (Some r1) (Some r2) = Ret (b, b)) as Heq.
  { unfold nFilterPair. rewrite Hcat.
    rewrite (usz_small (Z.of_nat (length r1) + Z.of_nat (length r2))) by lia.
    fold (nCeil_f32 sc (Z.of_nat (length r1) + Z.of_nat (length r2))).
    set (maxns := nCeil_f32 sc (Z.of_nat (length r1) + Z.of_nat (length r2))) in *.
    pose proof (countN_nonneg r1) as Hc1. pose proof (countN_nonneg r2) as Hc2.
    assert (countN r1 <= Z.of_nat (length r1)) as Hcl.
    { clear. induction r1 as [|c r IH]; simpl countN; simpl length;
        [lia | destruct (c =? 4); lia]. }
    rewrite (nFilterPair_loop_count maxns Hfin r1 0) by lia.
    rewrite Z.add_0_l. subst b. rewrite countN_app. fold limit.
    destruct r1 as [|c1 r1'].
    - simpl app. simpl countN. rewrite Z.add_0_l.
      rewrite (nFilterPair_loop_count maxns Hfin r2 0) by (simpl in Hlen; lia).
      rewrite Z.add_0_l. fold limit.
      destruct r2 as [|c2 r2']; [reflexivity|].
      destruct (countN (c2 :: r2') <=? limit); reflexivity.
    - simpl app.
      destruct (Z.leb_spec (countN (c1 :: r1')) limit) as [Hok|Hex].
      + rewrite (nFilterPair_loop_count maxns Hfin r2 (countN (c1 :: r1'))) by lia.
        fold limit. destruct r2 as [|c2 r2'].
        * change (countN []) with 0. rewrite !Z.add_0_r. cbv iota.
          destruct (Z.leb_spec (countN (c1 :: r1')) limit); [reflexivity | lia].
        * destruct (countN (c1 :: r1') + countN (c2 :: r2') <=? limit); reflexivity.
      + destruct (Z.leb_spec (countN (c1 :: r1') + countN r2) limit); [lia | reflexivity]. }
  exists b. split; [exact Heq|]. split.
  - subst b. destruct (r1 ++ r2) as [|c r] eqn:Hr.
    + split; [intros _ k Hk; simpl in Hk; lia | reflexivity].
    + rewrite Z.leb_le. split.
      * intros Hle k _. pose proof (countN_take k (c :: r)). lia.
      * intros Hall. specialize (Hall (length (c :: r)) ltac:(simpl; lia)).
        rewrite firstn_all in Hall. exact Hall.
  - intros Hne. subst b. destruct (r1 ++ r2); [done | reflexivity].
Qed.

(** C10. [nFilter] asserts that the read is not empty, after computing the
    ceiling: on the empty read a build with assertions stops at the
    assertion, and a build without them returns true. On every non-empty
    read the assertion holds and the call returns a verdict, in both
    builds and whatever the ceiling coefficients are. *)
Theorem nFilter_nonempty_precondition :
  (forall sc, nFilter true sc [] = Stop AssertionFailure) /\
  (forall sc, nFilter false sc [] = Ret true) /\
  (forall a sc c (rd : BTDnaString), exists b : bool, nFilter a sc (c :: rd) = Ret b).
Proof.
  split; [reflexivity|]. split; [reflexivity|].
  intros a sc c rd. unfold nFilter.
  destruct (Z.ltb_spec 0 (Z.of_nat (length (c :: rd)))) as [_|Hz]; [|simpl in Hz; lia].
  rewrite assert_holds. simpl. eauto.
Qed.

(** ** The statements at concrete inputs *)

Lemma demo_matrix_layout : init_layout demo_matrix.
Proof.
  unfold init_layout.
  repeat match goal with |- _ /\ _ => split end;
    try (simpl; lia); try reflexivity; try (left; reflexivity).
  apply (bool_decide_unpack _). vm_compute. reflexivity.
Qed.

Lemma demo_matrix_dims : dims_ok demo_matrix.
Proof. unfold dims_ok. simpl. lia. Qed.

Lemma elt_striped_witness :
  elt true demo_matrix 1 1 H = striped_elt demo_matrix 1 1 H /\
  (let '(sidx, lane) := striped (nvecrow_ demo_matrix) 1 in
   0 <= sidx < nvecrow_ demo_matrix /\ 0 <= lane < wperv_ demo_matrix /\
   1 = lane * nvecrow_ demo_matrix + sidx) /\
  exists v, elt true demo_matrix 1 1 H = Ret v /\
    (if wperv_ demo_matrix =? 16 then 0 <= v < 256 else - 32768 <= v < 32768).
Proof.
  apply (elt_striped true demo_matrix 1 1 H demo_matrix_layout);
    simpl; unfold H; lia.
Defined.

Lemma maxReadGaps_boundary_witness :
  exists k, 0 <= k /\
    0 <= gapped_score (21 * match_ bwaSwLike) (match_ bwaSwLike)
           (readGapOpen bwaSwLike) (readGapExtend bwaSwLike) k /\
    gapped_score (21 * match_ bwaSwLike) (match_ bwaSwLike)
      (readGapOpen bwaSwLike) (readGapExtend bwaSwLike) (k + 1) < 0 /\
    exists fuel0 : nat, forall fuel : nat, (fuel0 <= fuel)%nat ->
      maxReadGaps true fuel bwaSwLike 0 21 = Ret k.
Proof.
  apply (maxReadGaps_boundary true bwaSwLike 0 21); simpl; lia.
Defined.

Lemma maxRefGaps_no_match_loss_witness :
  exists k, 0 <= k /\
    0 <= gapped_score (15 * match_ bwaSwLike) 0
           (refGapOpen bwaSwLike) (refGapExtend bwaSwLike) k /\
    gapped_score (15 * match_ bwaSwLike) 0
      (refGapOpen bwaSwLike) (refGapExtend bwaSwLike) (k + 1) < 0 /\
    exists fuel0 : nat, forall fuel : nat, (fuel0 <= fuel)%nat ->
      maxRefGaps true fuel bwaSwLike 0 15 = Ret k /\
      ref_gaps_no_match_loss fuel bwaSwLike 0 15 = Some k.
Proof.
  apply (maxRefGaps_no_match_loss true bwaSwLike 0 15); simpl; lia.
Defined.

(** Cell (1,1) of [demo_matrix] after [setReportedThrough(1, 1)]. *)
Lemma analyzeCell_reported_through_witness :
  let m := with_masks demo_matrix [0; 0; 0; 1; 0; 0] in
  analyzeCell true demo_nextU2 demo_randFromMask demo_score m 1 1 H 0 0 73
              demo_scoring 0 0 tt demo_out
  = Ret (m, tt, mkOut false SW_BT_RDGAP_EXTEND false false true) /\
  forall m2 ct2 refc2 readc2 readq2 sc2 offsetsc2 floorsc2,
    masks_ m2 = masks_ m -> ncol_ m2 = ncol_ m ->
    analyzeCell true demo_nextU2 demo_randFromMask demo_score m2 1 1 ct2
                refc2 readc2 readq2 sc2 offsetsc2 floorsc2 tt demo_out
    = Ret (m2, tt, mkOut false SW_BT_RDGAP_EXTEND false false true).
Proof.
  intros m.
  apply (analyzeCell_reported_through demo_nextU2 demo_randFromMask demo_score
           true m 1 1 H 0 0 73 demo_scoring 0 0 tt demo_out).
  reflexivity.
Defined.

(** Cell (1,0) of [demo_matrix], type H, floor 0: no predecessor produces
    its score 1, so the mask computed from the scores is empty, and the cell
    may end an alignment. *)
Lemma analyzeCell_empty_mask_witness :
  analyzeCell true demo_nextU2 demo_randFromMask demo_score demo_matrix 1 0 H
              0 1 73 demo_scoring 0 0 tt demo_out
  = Ret (demo_matrix, tt, mkOut true SW_BT_RDGAP_EXTEND false true false).
Proof.
  apply (analyzeCell_empty_mask demo_nextU2 demo_randFromMask demo_score
           true demo_matrix 1 0 H 0 1 73 demo_scoring 0 0 tt demo_out 1 0);
    [reflexivity | lia | reflexivity | reflexivity].
Defined.

(** Cell (1,1) with matching characters: the diagonal produces its
    score 2, [origMask] is 16. With the stored H mask exhausted (initialised
    bit set, field 0) the cell is empty and must not end an alignment. *)
Example analyzeCell_exhausted_mask :
  let m := with_masks demo_matrix [0; 0; 0; 2; 0; 0] in
  origMask_of true demo_score m demo_scoring 1 1 H 0 0 73 0 0 = Ret (2, 16) /\
  mask_lookup m 1 1 H 16 = Ret 0 /\
  analyzeCell true demo_nextU2 demo_randFromMask demo_score m 1 1 H
              0 0 73 demo_scoring 0 0 tt demo_out
  = Ret (m, tt, mkOut true SW_BT_RDGAP_EXTEND false false false).
Proof. repeat split; reflexivity. Qed.

(** What the bit left by [hMaskSet] does to the backtrace: cell (1,1) with
    the stored H mask 16 (word 66, as left when another predecessor was
    taken first). [analyzeCell] returns the diagonal and writes the mask 0,
    the word is 66 again, and the next call returns the diagonal again. *)
Example analyzeCell_diagonal_not_exhausted :
  analyzeCell true demo_nextU2 demo_randFromMask demo_score
    (with_masks demo_matrix [0; 0; 0; 66; 0; 0]) 1 1 H 0 0 73
    demo_scoring 0 0 tt demo_out
  = Ret (with_masks demo_matrix [0; 0; 0; 66; 0; 0], tt,
         mkOut false SW_BT_OALL_DIAG false true false).
Proof. reflexivity. Qed.

(** Row 2 of [demo_matrix] is a barrier row for [demo_scoring]. The H cell
    (2,1) with matching characters has the diagonal as its predecessor. *)
Lemma analyzeCell_gap_barrier_witness :
  let m := initMasks demo_matrix in
  gapsAllowed m demo_scoring 2 = false /\
  (forall sc_cur origMask,
     origMaskH true demo_score m demo_scoring 2 1 H 0 0 73 0 0
       = Ret (sc_cur, origMask) ->
     origMask = 0 \/ origMask = Z.shiftl 1 4) /\
  (forall origMask mask,
     origMask = 0 \/ origMask = Z.shiftl 1 4 ->
     mask_lookup m 2 1 H origMask = Ret mask ->
     mask = Z.shiftl 1 4 \/ mask = 0) /\
  (forall m' rand' o',
     analyzeCell true demo_nextU2 demo_randFromMask demo_score m 2 1 H 0 0 73
                 demo_scoring 0 0 tt demo_out = Ret (m', rand', o') ->
     rand' = tt /\ branch o' = branch demo_out /\
     (cur o' = cur demo_out \/ empty o' = false /\ cur o' = SW_BT_OALL_DIAG)) /\
  analyzeCell true demo_nextU2 demo_randFromMask demo_score m 2 1 H 0 0 73
              demo_scoring 0 0 tt demo_out
  = Ret (with_masks demo_matrix [0; 0; 0; 0; 0; 2], tt,
         mkOut false SW_BT_OALL_DIAG false true false).
Proof.
  intros m.
  destruct (analyzeCell_gap_barrier demo_nextU2 demo_randFromMask demo_score
              true demo_matrix m demo_scoring 2 1 0 0 73 0 0 tt demo_out)
    as [_ Hbar].
  - exact demo_matrix_dims.
  - simpl. lia.
  - apply bs_init.
  - simpl. lia.
  - simpl. lia.
  - destruct (Hbar eq_refl) as (Hfresh & Hstored & Hcall).
    split; [reflexivity|]. split; [exact Hfresh|]. split; [exact Hstored|].
    split; [exact Hcall | reflexivity].
Defined.

Example gapsAllowed_demo :
  map (gapsAllowed demo_matrix demo_scoring) [0; 1; 2] = [false; true; false].
Proof. reflexivity. Qed.

(** A read of ten bases with two Ns under the scheme of the first test:
    the ceiling is 2 + 0.1 * 10 = 3. *)
Lemma nFilter_ceiling_witness :
  nFilter true bwaSwLike [0; 4; 1; 2; 3; 4; 0; 0; 0; 0]
  = Ret (countN [0; 4; 1; 2; 3; 4; 0; 0; 0; 0]
           <=? Z.max 0 (f32_floor (nCeil_f32 bwaSwLike 10))) /\
  (countN [0; 4; 1; 2; 3; 4; 0; 0; 0; 0] = 0 ->
   nFilter true bwaSwLike [0; 4; 1; 2; 3; 4; 0; 0; 0; 0] = Ret true).
Proof.
  apply (nFilter_ceiling true bwaSwLike [0; 4; 1; 2; 3; 4; 0; 0; 0; 0]);
    [discriminate | simpl; lia | reflexivity].
Defined.

(** Two mates of five bases: under the second scheme, which concatenates,
    the ceiling is 3 + 0.4 * 10 = 7; the first scheme filters each mate. *)
Lemma nFilterPair_combined_witness :
  (let limit := f32_floor (nCeil_f32 scoring_case2 (5 + 5)) in
   exists b : bool,
     nFilterPair true scoring_case2 (Some [4; 4; 4; 4; 0]) (Some [0; 4; 4; 4; 1])
       = Ret (b, b) /\
     (b = true <->
      forall k : nat, (1 <= k <= length ([4; 4; 4; 4; 0] ++ [0; 4; 4; 4; 1]))%nat ->
        countN (take k ([4; 4; 4; 4; 0] ++ [0; 4; 4; 4; 1])) <= limit) /\
     ([4; 4; 4; 4; 0] ++ [0; 4; 4; 4; 1] <> [] ->
      b = (countN ([4; 4; 4; 4; 0] ++ [0; 4; 4; 4; 1]) <=? limit))) /\
  nFilterPair true bwaSwLike (Some [4; 4; 4; 4; 0]) (Some [0; 4; 4; 4; 1])
  = (filt1 ← nFilter true bwaSwLike [4; 4; 4; 4; 0];
     filt2 ← nFilter true bwaSwLike [0; 4; 4; 4; 1]; mret (filt1, filt2)).
Proof.
  split.
  - apply (proj1 (nFilterPair_combined true scoring_case2
                    [4; 4; 4; 4; 0] [0; 4; 4; 4; 1]));
      [reflexivity | simpl; lia | reflexivity].
  - apply (proj2 (nFilterPair_combined true bwaSwLike
                    [4; 4; 4; 4; 0] [0; 4; 4; 4; 1])).
    reflexivity.
Defined.

(** The ceiling is the [float] value. With [nCeilLinear = 0.7f], which is
    below 0.7, and a read of ten bases, ten times the coefficient is below
    7, the product rounds to [7.0f], and a read with seven Ns passes. *)
Example nCeil_is_rounded :
  let sc := mkScoring 1 5 15 4 15 4 f32_zero (S754_finite false 11744051 (-24)) false in
  (f32_units (nCeilLinear sc) * 10 <? 7 * 2 ^ 149) = true /\
  f32_floor (nCeil_f32 sc 10) = 7 /\
  nFilter true sc [4; 4; 4; 4; 4; 4; 4; 0; 1; 2] = Ret true.
Proof. repeat split; reflexivity. Qed.

Example nFilterPair_case2 :
  f32_floor (nCeil_f32 scoring_case2 10) = 7 /\
  nFilterPair true scoring_case2 (Some [4; 4; 4; 4; 0]) (Some [0; 4; 4; 4; 1])
    = Ret (true, true) /\
  nFilterPair true scoring_case2 (Some [4; 4; 4; 4; 4]) (Some [0; 4; 4; 4; 1])
    = Ret (false, false) /\
  nFilter true scoring_case2 [4; 4; 4; 4; 4] = Ret true /\
  nFilter true scoring_case2 [4; 4; 4; 4; 4; 4] = Ret false.
Proof. repeat split; reflexivity. Qed.

(** * Further properties *)

(** ** The mask word: what each setter writes and what it leaves *)

Ltac bit16_cases i :=
  assert (i = 0 \/ i = 1 \/ i = 2 \/ i = 3 \/ i = 4 \/ i = 5 \/ i = 6 \/ i = 7 \/
          i = 8 \/ i = 9 \/ i = 10 \/ i = 11 \/ i = 12 \/ i = 13 \/ i = 14 \/ i = 15)
    as [->|[->|[->|[->|[->|[->|[->|[->|[->|[->|[->|[->|[->|[->|[->| ->]]]]]]]]]]]]]]]
    by lia.

Lemma updated_range w clr bits : 0 <= updated w clr bits < 2 ^ 16.
Proof. unfold updated, u16. apply Z.mod_pos_bound. lia. Qed.

Lemma cell_index_nonneg m row col : 0 <= cell_index m row col.
Proof. unfold cell_index, usz. apply Z.mod_pos_bound. lia. Qed.

Lemma mask_word_with_masks m ms row col :
  mask_word (with_masks m ms) row col = ms !! Z.to_nat (cell_index m row col).
Proof. reflexivity. Qed.

Lemma mask_word_insert m row col w x :
  mask_word m row col = Some w ->
  mask_word (with_masks m (<[Z.to_nat (cell_index m row col) := x]> (masks_ m))) row col
  = Some x.
Proof.
  intros Hw. rewrite mask_word_with_masks. apply list_lookup_insert_eq.
  eapply lookup_lt_Some; eauto.
Qed.

(** Bit [k] as the test [(w & (1 << k)) != 0] sees it. *)
Lemma land_bit_test w k : 0 <= k ->
  negb (Z.land w (Z.shiftl 1 k) =? 0) = Z.testbit w k.
Proof.
  intros Hk. destruct (Z.testbit w k) eqn:Hb.
  - destruct (Z.eqb_spec (Z.land w (Z.shiftl 1 k)) 0) as [Hz|]; [|reflexivity].
    exfalso. assert (Z.testbit (Z.land w (Z.shiftl 1 k)) k = true) as Ht.
    { rewrite Z.land_spec, Hb, Z.shiftl_spec, Z.sub_diag by lia. reflexivity. }
    rewrite Hz, Z.bits_0 in Ht. discriminate.
  - destruct (Z.eqb_spec (Z.land w (Z.shiftl 1 k)) 0) as [|Hnz]; [reflexivity|].
    exfalso. apply Hnz. apply Z.bits_inj'. intros i Hi.
    rewrite Z.land_spec, Z.bits_0, Z.shiftl_spec by lia.
    destruct (Z.eq_dec i k) as [->|Hne]; [rewrite Hb; reflexivity|].
    change 1 with (Z.ones 1). rewrite Z.testbit_ones by lia.
    destruct (Z.leb_spec 0 (i - k)), (Z.ltb_spec (i - k) 1);
      simpl; rewrite ?andb_false_r; try reflexivity; lia.
Qed.

Lemma flag_word m row col w k : 0 <= k ->
  mask_word m row col = Some w ->
  (w ← at_ (masks_ m) (cell_index m row col);
   mret (negb (Z.land w (Z.shiftl 1 k) =? 0))) = Ret (Z.testbit w k).
Proof.
  intros Hk Hw.
  rewrite (proj2 (at_Ret _ _ w)) by (split; [apply cell_index_nonneg | done]).
  simpl. rewrite land_bit_test by done. reflexivity.
Qed.

Lemma isEMaskSet_word m row col w :
  mask_word m row col = Some w -> isEMaskSet m row col = Ret (Z.testbit w 7).
Proof. apply flag_word. lia. Qed.

Lemma isFMaskSet_word m row col w :
  mask_word m row col = Some w -> isFMaskSet m row col = Ret (Z.testbit w 10).
Proof. apply flag_word. lia. Qed.

Lemma isHMaskSet_word m row col w :
  mask_word m row col = Some w -> isHMaskSet m row col = Ret (Z.testbit w 1).
Proof. apply flag_word. lia. Qed.

Lemma reportedThrough_word m row col w :
  mask_word m row col = Some w -> reportedThrough m row col = Ret (Z.testbit w 0).
Proof. apply flag_word. lia. Qed.

Ltac solve_bits_bounded Hhigh :=
  rewrite update_testbit by lia;
  rewrite ?Z.lor_spec, ?Z.shiftl_spec by lia;
  norm_bit_index;
  rewrite ?Hhigh by lia;
  repeat match goal with
  | |- context [Z.testbit ?x (Zneg ?p)] => change (Z.testbit x (Zneg p)) with false
  end;
  abstract_bits; cbv;
  repeat match goal with b : bool |- _ => destruct b end; reflexivity.

(** The bits of a word after [eMaskSet] and after [fMaskSet]. *)
Lemma eset_bits w mask i : 0 <= mask < 4 -> 0 <= i < 16 ->
  Z.testbit (updated w (Z.shiftl 7 7) (Z.lor (Z.shiftl 1 7) (s32 (Z.shiftl mask 8)))) i
  = if (7 <=? i) && (i <? 10) then (i =? 7) || Z.testbit mask (i - 8)
    else Z.testbit w i.
Proof.
  intros Hm Hi. unfold updated.
  rewrite s32_small by (rewrite Z.shiftl_mul_pow2 by lia; lia).
  assert (forall j, 2 <= j -> Z.testbit mask j = false) as Hhigh
    by (intros j Hj; apply (testbit_bounded mask 2); lia).
  bit16_cases i; solve_bits_bounded Hhigh.
Qed.

Lemma fset_bits w mask i : 0 <= mask < 4 -> 0 <= i < 16 ->
  Z.testbit (updated w (Z.shiftl 7 10) (Z.lor (Z.shiftl 1 10) (s32 (Z.shiftl mask 11)))) i
  = if (10 <=? i) && (i <? 13) then (i =? 10) || Z.testbit mask (i - 11)
    else Z.testbit w i.
Proof.
  intros Hm Hi. unfold updated.
  rewrite s32_small by (rewrite Z.shiftl_mul_pow2 by lia; lia).
  assert (forall j, 2 <= j -> Z.testbit mask j = false) as Hhigh
    by (intros j Hj; apply (testbit_bounded mask 2); lia).
  bit16_cases i; solve_bits_bounded Hhigh.
Qed.

Lemma hset_bits w mask i : 0 <= mask < 32 -> 0 <= i < 16 ->
  Z.testbit (updated w (Z.shiftl 31 1) (Z.lor (Z.shiftl 1 1) (s32 (Z.shiftl mask 2)))) i
  = if (1 <=? i) && (i <? 6) then (i =? 1) || Z.testbit mask (i - 2)
    else if i =? 6 then Z.testbit w 6 || Z.testbit mask 4
    else Z.testbit w i.
Proof.
  intros Hm Hi. unfold updated.
  rewrite s32_small by (rewrite Z.shiftl_mul_pow2 by lia; lia).
  assert (forall j, 5 <= j -> Z.testbit mask j = false) as Hhigh
    by (intros j Hj; apply (testbit_bounded mask 5); lia).
  bit16_cases i; solve_bits_bounded Hhigh.
Qed.

Lemma small_field_eq n x mask : 0 <= n ->
  0 <= mask < 2 ^ n ->
  (forall i, 0 <= i < n -> Z.testbit x i = Z.testbit mask i) ->
  Z.land x (Z.ones n) = mask.
Proof.
  intros Hn Hm Hb. apply (bits_eq_below n); [apply land_bound_r; [lia|] | lia |].
  - rewrite Z.ones_equiv. pose proof (Z.pow_pos_nonneg 2 n ltac:(lia) Hn). lia.
  - intros i Hi. rewrite Z.land_spec, Z.testbit_ones_nonneg by lia.
    destruct (Z.ltb_spec i n); [|lia]. rewrite andb_true_r. apply Hb. lia.
Qed.

Lemma eMaskSet_Ret a m row col mask w :
  mask_word m row col = Some w -> mask < 4 ->
  eMaskSet a m row col mask
  = Ret (with_masks m (<[Z.to_nat (cell_index m row col) :=
           updated w (Z.shiftl 7 7) (Z.lor (Z.shiftl 1 7) (s32 (Z.shiftl mask 8)))]>
           (masks_ m))).
Proof.
  intros Hw Hm. unfold eMaskSet.
  destruct (Z.ltb_spec mask 4); [|lia]. rewrite assert_holds. simpl.
  apply mask_update_Ret; done.
Qed.

Lemma fMaskSet_Ret a m row col mask w :
  mask_word m row col = Some w -> mask < 4 ->
  fMaskSet a m row col mask
  = Ret (with_masks m (<[Z.to_nat (cell_index m row col) :=
           updated w (Z.shiftl 7 10) (Z.lor (Z.shiftl 1 10) (s32 (Z.shiftl mask 11)))]>
           (masks_ m))).
Proof.
  intros Hw Hm. unfold fMaskSet.
  destruct (Z.ltb_spec mask 4); [|lia]. rewrite assert_holds. simpl.
  apply mask_update_Ret; done.
Qed.

Lemma efield_set w mask : 0 <= mask < 4 ->
  efield (updated w (Z.shiftl 7 7) (Z.lor (Z.shiftl 1 7) (s32 (Z.shiftl mask 8)))) = mask.
Proof.
  intros Hm. unfold efield. change 3 with (Z.ones 2).
  apply small_field_eq; [lia | lia |]. intros i Hi.
  rewrite Z.shiftr_spec, eset_bits by lia.
  assert (i = 0 \/ i = 1) as [-> | ->] by lia; reflexivity.
Qed.

Lemma ffield_set w mask : 0 <= mask < 4 ->
  ffield (updated w (Z.shiftl 7 10) (Z.lor (Z.shiftl 1 10) (s32 (Z.shiftl mask 11)))) = mask.
Proof.
  intros Hm. unfold ffield. change 3 with (Z.ones 2).
  apply small_field_eq; [lia | lia |]. intros i Hi.
  rewrite Z.shiftr_spec, fset_bits by lia.
  assert (i = 0 \/ i = 1) as [-> | ->] by lia; reflexivity.
Qed.

(** X1. [eMaskSet(row, col, mask)] with [mask] in [0,4), on a cell that has
    a mask word: the call returns in either build; afterwards
    [isEMaskSet(row, col)] holds and the E field [(masks_ >> 8) & 3] reads
    exactly [mask], whatever was stored before; every bit of the word
    outside bits 7..9 is as it was, and the word is still a 16-bit value. *)
Theorem eMaskSet_read_back a m row col mask w :
  mask_word m row col = Some w -> 0 <= mask < 4 ->
  exists m' w',
    eMaskSet a m row col mask = Ret m' /\
    mask_word m' row col = Some w' /\
    0 <= w' < 2 ^ 16 /\
    isEMaskSet m' row col = Ret true /\
    efield w' = mask /\
    (forall i, 0 <= i < 16 -> ~ 7 <= i < 10 -> Z.testbit w' i = Z.testbit w i).
Proof.
  intros Hw Hm. eexists _, _. split; [apply eMaskSet_Ret; [exact Hw | lia]|].
  split; [eapply mask_word_insert; exact Hw|].
  split; [apply updated_range|].
  split.
  { erewrite isEMaskSet_word by (eapply mask_word_insert; exact Hw).
    rewrite eset_bits by lia. reflexivity. }
  split; [apply efield_set; exact Hm|].
  intros i Hi Hout. rewrite eset_bits by lia.
  destruct (Z.leb_spec 7 i), (Z.ltb_spec i 10); simpl; try reflexivity; lia.
Qed.

Lemma eMaskSet_read_back_witness :
  exists m' w',
    eMaskSet true (with_masks demo_matrix [0; 0; 0; 5461; 0; 0]) 1 1 2 = Ret m' /\
    mask_word m' 1 1 = Some w' /\
    0 <= w' < 2 ^ 16 /\
    isEMaskSet m' 1 1 = Ret true /\
    efield w' = 2 /\
    (forall i, 0 <= i < 16 -> ~ 7 <= i < 10 -> Z.testbit w' i = Z.testbit 5461 i).
Proof.
  apply (eMaskSet_read_back true (with_masks demo_matrix [0; 0; 0; 5461; 0; 0]) 1 1 2 5461);
    [reflexivity | lia].
Defined.

(** X2. [fMaskSet(row, col, mask)] with [mask] in [0,4), on a cell that has
    a mask word: the call returns in either build; afterwards
    [isFMaskSet(row, col)] holds and the F field [(masks_ >> 11) & 3] reads
    exactly [mask]; every bit of the word outside bits 10..12 is as it was. *)
Theorem fMaskSet_read_back a m row col mask w :
  mask_word m row col = Some w -> 0 <= mask < 4 ->
  exists m' w',
    fMaskSet a m row col mask = Ret m' /\
    mask_word m' row col = Some w' /\
    0 <= w' < 2 ^ 16 /\
    isFMaskSet m' row col = Ret true /\
    ffield w' = mask /\
    (forall i, 0 <= i < 16 -> ~ 10 <= i < 13 -> Z.testbit w' i = Z.testbit w i).
Proof.
  intros Hw Hm. eexists _, _. split; [apply fMaskSet_Ret; [exact Hw | lia]|].
  split; [eapply mask_word_insert; exact Hw|].
  split; [apply updated_range|].
  split.
  { erewrite isFMaskSet_word by (eapply mask_word_insert; exact Hw).
    rewrite fset_bits by lia. reflexivity. }
  split; [apply ffield_set; exact Hm|].
  intros i Hi Hout. rewrite fset_bits by lia.
  destruct (Z.leb_spec 10 i), (Z.ltb_spec i 13); simpl; try reflexivity; lia.
Qed.

Lemma fMaskSet_read_back_witness :
  exists m' w',
    fMaskSet true (with_masks demo_matrix [0; 0; 0; 5461; 0; 0]) 1 1 1 = Ret m' /\
    mask_word m' 1 1 = Some w' /\
    0 <= w' < 2 ^ 16 /\
    isFMaskSet m' 1 1 = Ret true /\
    ffield w' = 1 /\
    (forall i, 0 <= i < 16 -> ~ 10 <= i < 13 -> Z.testbit w' i = Z.testbit 5461 i).
Proof.
  apply (fMaskSet_read_back true (with_masks demo_matrix [0; 0; 0; 5461; 0; 0]) 1 1 1 5461);
    [reflexivity | lia].
Defined.

(** X3. [hMaskSet(row, col, mask)] with [mask] in [0,32), on a cell that has
    a mask word: the call returns in either build and [isHMaskSet] holds
    afterwards; bit 0 and bits 7..15 of the word are as they were. The H
    field [(masks_ >> 2) & 31] reads [mask] together with bit 4 of the field
    stored before: it reads exactly [mask] if and only if bit 6 of the old
    word was clear or [mask] has its bit 4 set. *)
Theorem hMaskSet_read_back a m row col mask w :
  mask_word m row col = Some w -> 0 <= mask < 32 ->
  exists m' w',
    hMaskSet a m row col mask = Ret m' /\
    mask_word m' row col = Some w' /\
    0 <= w' < 2 ^ 16 /\
    isHMaskSet m' row col = Ret true /\
    hfield w' = Z.lor mask (Z.land (hfield w) 16) /\
    (hfield w' = mask <-> (Z.testbit w 6 = true -> Z.testbit mask 4 = true)) /\
    (forall i, 0 <= i < 16 -> i = 0 \/ 7 <= i -> Z.testbit w' i = Z.testbit w i).
Proof.
  intros Hw Hm. eexists _, _. split; [apply hMaskSet_Ret; [exact Hw | lia]|].
  split; [eapply mask_word_insert; exact Hw|].
  split; [apply updated_range|].
  split.
  { erewrite isHMaskSet_word by (eapply mask_word_insert; exact Hw).
    rewrite hset_bits by lia. reflexivity. }
  split; [apply hfield_updated; exact Hm|].
  split; [|intros i Hi Hout; apply hset_other_bits; assumption].
  set (w' := updated _ _ _).
  assert (forall i, 0 <= i < 5 -> Z.testbit (Z.shiftr w' 2) i
            = if i =? 4 then Z.testbit w 6 || Z.testbit mask 4 else Z.testbit mask i)
    as Hbits.
  { intros i Hi. rewrite Z.shiftr_spec by lia. unfold w'. rewrite hset_bits by lia.
    assert (i = 0 \/ i = 1 \/ i = 2 \/ i = 3 \/ i = 4) as [->|[->|[->|[->| ->]]]] by lia;
      reflexivity. }
  split.
  - intros Heq H6. rewrite <- Heq. unfold hfield. change 31 with (Z.ones 5).
    rewrite Z.land_spec, Hbits, H6 by lia. reflexivity.
  - intros Himp. unfold hfield. change 31 with (Z.ones 5).
    apply small_field_eq; [lia | lia |]. intros i Hi. rewrite Hbits by lia.
    destruct (Z.eqb_spec i 4) as [->|]; [|reflexivity].
    destruct (Z.testbit w 6); [rewrite Himp by reflexivity|]; reflexivity.
Qed.

Lemma hMaskSet_read_back_witness :
  exists m' w',
    hMaskSet true (with_masks demo_matrix [0; 0; 0; 5461; 0; 0]) 1 1 3 = Ret m' /\
    mask_word m' 1 1 = Some w' /\
    0 <= w' < 2 ^ 16 /\
    isHMaskSet m' 1 1 = Ret true /\
    hfield w' = Z.lor 3 (Z.land (hfield 5461) 16) /\
    (hfield w' = 3 <-> (Z.testbit 5461 6 = true -> Z.testbit 3 4 = true)) /\
    (forall i, 0 <= i < 16 -> i = 0 \/ 7 <= i -> Z.testbit w' i = Z.testbit 5461 i).
Proof.
  apply (hMaskSet_read_back true (with_masks demo_matrix [0; 0; 0; 5461; 0; 0]) 1 1 3 5461);
    [reflexivity | lia].
Defined.

Lemma report_bits w i : 0 <= i < 16 ->
  Z.testbit (u16 (Z.lor w (Z.shiftl 1 0))) i = (i =? 0) || Z.testbit w i.
Proof.
  intros Hi. unfold u16. rewrite Z.mod_pow2_bits_low, Z.lor_spec by lia.
  change (Z.shiftl 1 0) with (Z.ones 1). rewrite Z.testbit_ones_nonneg by lia.
  destruct (Z.ltb_spec i 1), (Z.eqb_spec i 0); try lia; simpl;
    rewrite ?orb_true_r, ?orb_false_r; reflexivity.
Qed.

Lemma setReportedThrough_Ret m row col w :
  mask_word m row col = Some w ->
  setReportedThrough m row col
  = Ret (with_masks m (<[Z.to_nat (cell_index m row col) := u16 (Z.lor w (Z.shiftl 1 0))]>
                          (masks_ m))).
Proof.
  intros Hw. unfold setReportedThrough.
  rewrite (proj2 (at_Ret _ _ w)) by (split; [apply cell_index_nonneg | exact Hw]).
  simpl. rewrite store_Ret by (try apply cell_index_nonneg; unfold mask_word in Hw; eauto).
  reflexivity.
Qed.

Lemma with_masks_twice m ms ms' : with_masks (with_masks m ms) ms' = with_masks m ms'.
Proof. reflexivity. Qed.

(** X4. [setReportedThrough(row, col)] on a cell that has a mask word: the
    call returns, [reportedThrough(row, col)] holds afterwards, bits 1..15
    of the word (the three masks and their initialised bits) are as they
    were, and a second call changes nothing. *)
Theorem setReportedThrough_read_back m row col w :
  mask_word m row col = Some w ->
  exists m' w',
    setReportedThrough m row col = Ret m' /\
    mask_word m' row col = Some w' /\
    reportedThrough m' row col = Ret true /\
    (forall i, 1 <= i < 16 -> Z.testbit w' i = Z.testbit w i) /\
    setReportedThrough m' row col = Ret m'.
Proof.
  intros Hw. eexists _, _. split; [apply setReportedThrough_Ret; exact Hw|].
  pose proof (mask_word_insert m row col w (u16 (Z.lor w (Z.shiftl 1 0))) Hw) as Hw'.
  split; [exact Hw'|]. split.
  { erewrite reportedThrough_word by exact Hw'. rewrite report_bits by lia. reflexivity. }
  split.
  { intros i Hi. rewrite report_bits by lia.
    destruct (Z.eqb_spec i 0); [lia | reflexivity]. }
  rewrite (setReportedThrough_Ret _ row col _ Hw'). f_equal.
  rewrite with_masks_twice. f_equal. simpl.
  change (cell_index (with_masks m _) row col) with (cell_index m row col).
  rewrite list_insert_insert_eq. f_equal.
  apply (bits_eq_below 16); try (unfold u16; apply Z.mod_pos_bound; lia).
  intros i Hi. rewrite !report_bits by lia. destruct (i =? 0); reflexivity.
Qed.

Lemma setReportedThrough_read_back_witness :
  exists m' w',
    setReportedThrough (with_masks demo_matrix [0; 0; 0; 5460; 0; 0]) 1 1 = Ret m' /\
    mask_word m' 1 1 = Some w' /\
    reportedThrough m' 1 1 = Ret true /\
    (forall i, 1 <= i < 16 -> Z.testbit w' i = Z.testbit 5460 i) /\
    setReportedThrough m' 1 1 = Ret m'.
Proof.
  apply (setReportedThrough_read_back (with_masks demo_matrix [0; 0; 0; 5460; 0; 0]) 1 1 5460).
  reflexivity.
Defined.

(** ** The setters and the rest of the matrix *)

Lemma with_masks_back m ms : with_masks (with_masks m ms) (masks_ m) = m.
Proof. destruct m; reflexivity. Qed.

Lemma setReportedThrough_inv m row col m' :
  setReportedThrough m row col = Ret m' ->
  exists w, masks_ m !! Z.to_nat (cell_index m row col) = Some w /\
    m' = with_masks m (<[Z.to_nat (cell_index m row col) := u16 (Z.lor w (Z.shiftl 1 0))]>
                         (masks_ m)).
Proof.
  intros Hs. destruct (mask_word m row col) as [w|] eqn:Hw.
  - exists w. split; [exact Hw|]. rewrite (setReportedThrough_Ret _ _ _ _ Hw) in Hs.
    congruence.
  - unfold setReportedThrough in Hs. apply bind_Ret in Hs as (w & Hat & _).
    apply at_Ret in Hat as [_ Hat]. unfold mask_word in Hw. congruence.
Qed.

(** A setter rewrites one word of [masks_]. *)
Lemma setter_one_word a m row col mask m' :
  hMaskSet a m row col mask = Ret m' \/ eMaskSet a m row col mask = Ret m' \/
  fMaskSet a m row col mask = Ret m' \/ setReportedThrough m row col = Ret m' ->
  exists x, m' = with_masks m (<[Z.to_nat (cell_index m row col) := x]> (masks_ m)).
Proof.
  intros [Hs|[Hs|[Hs|Hs]]].
  - apply hMaskSet_inv in Hs as (w & _ & ->). eauto.
  - apply eMaskSet_inv in Hs as (w & _ & ->). eauto.
  - apply fMaskSet_inv in Hs as (w & _ & ->). eauto.
  - apply setReportedThrough_inv in Hs as (w & _ & ->). eauto.
Qed.

(** X5. What the four setters ([hMaskSet], [eMaskSet], [fMaskSet],
    [setReportedThrough]) leave alone: every member of the matrix other than
    [masks_] (the dimensions, the strides, the vector buffer), the length of
    [masks_], and every word of it but the addressed one; with dimensions
    that fit [size_t], the word of every other cell of the matrix. *)
Theorem mask_setters_frame a m row col mask m' :
  hMaskSet a m row col mask = Ret m' \/ eMaskSet a m row col mask = Ret m' \/
  fMaskSet a m row col mask = Ret m' \/ setReportedThrough m row col = Ret m' ->
  with_masks m' (masks_ m) = m /\
  length (masks_ m') = length (masks_ m) /\
  (forall j : nat, j <> Z.to_nat (cell_index m row col) ->
     masks_ m' !! j = masks_ m !! j) /\
  (dims_ok m -> 0 <= row < nrow_ m -> 0 <= col < ncol_ m ->
   forall row' col', 0 <= row' < nrow_ m -> 0 <= col' < ncol_ m ->
     (row', col') <> (row, col) -> mask_word m' row' col' = mask_word m row' col').
Proof.
  intros Hs. apply setter_one_word in Hs as (x & ->).
  split; [apply with_masks_back|].
  split; [simpl; apply length_insert|].
  split; [intros j Hj; simpl; apply list_lookup_insert_ne; congruence|].
  intros Hd Hr Hc row' col' Hr' Hc' Hne. rewrite mask_word_with_masks.
  unfold mask_word. apply list_lookup_insert_ne. intros Heq.
  apply (cell_index_inj m row col row' col') in Heq as [-> ->]; try assumption.
  apply Hne. reflexivity.
Qed.

Lemma mask_setters_frame_witness :
  let m := with_masks demo_matrix [1; 2; 3; 0; 5; 6] in
  let m' := with_masks demo_matrix [1; 2; 3; 640; 5; 6] in
  with_masks m' (masks_ m) = m /\
  length (masks_ m') = length (masks_ m) /\
  (forall j : nat, j <> Z.to_nat (cell_index m 1 1) ->
     masks_ m' !! j = masks_ m !! j) /\
  (dims_ok m -> 0 <= 1 < nrow_ m -> 0 <= 1 < ncol_ m ->
   forall row' col', 0 <= row' < nrow_ m -> 0 <= col' < ncol_ m ->
     (row', col') <> (1, 1) -> mask_word m' row' col' = mask_word m row' col').
Proof.
  apply (mask_setters_frame true (with_masks demo_matrix [1; 2; 3; 0; 5; 6]) 1 1 2
           (with_masks demo_matrix [1; 2; 3; 640; 5; 6])).
  right; left. reflexivity.
Defined.

Lemma updated_twice_eq w c1 b1 c2 b2 c3 b3 c4 b4 :
  (forall i, 0 <= i < 16 ->
     Z.testbit (updated (updated w c1 b1) c2 b2) i
     = Z.testbit (updated (updated w c3 b3) c4 b4) i) ->
  updated (updated w c1 b1) c2 b2 = updated (updated w c3 b3) c4 b4.
Proof. intros Hb. apply (bits_eq_below 16); try apply updated_range. exact Hb. Qed.

Ltac decide_bits :=
  norm_bit_index; abstract_bits; cbv;
  repeat match goal with b : bool |- _ => destruct b end; reflexivity.

(** X6. The setters of two different fields of one cell commute: [eMaskSet]
    and [fMaskSet], [eMaskSet] and [hMaskSet], [fMaskSet] and [hMaskSet]
    give the same matrix in either order. *)
Theorem mask_setters_commute a m row col w e f h :
  mask_word m row col = Some w ->
  0 <= e < 4 -> 0 <= f < 4 -> 0 <= h < 32 ->
  (m1 ← eMaskSet a m row col e; fMaskSet a m1 row col f)
  = (m1 ← fMaskSet a m row col f; eMaskSet a m1 row col e) /\
  (m1 ← eMaskSet a m row col e; hMaskSet a m1 row col h)
  = (m1 ← hMaskSet a m row col h; eMaskSet a m1 row col e) /\
  (m1 ← fMaskSet a m row col f; hMaskSet a m1 row col h)
  = (m1 ← hMaskSet a m row col h; fMaskSet a m1 row col f).
Proof.
  intros Hw He Hf Hh.
  rewrite (eMaskSet_Ret a m row col e w), (fMaskSet_Ret a m row col f w),
    (hMaskSet_Ret a m row col h w) by (assumption || lia).
  cbn [mbind outcome_bind].
  repeat match goal with
  | |- context [eMaskSet a (with_masks m (<[_ := ?x]> _)) row col e] =>
    rewrite (eMaskSet_Ret a _ row col e x) by (try lia; eapply mask_word_insert; exact Hw)
  | |- context [fMaskSet a (with_masks m (<[_ := ?x]> _)) row col f] =>
    rewrite (fMaskSet_Ret a _ row col f x) by (try lia; eapply mask_word_insert; exact Hw)
  | |- context [hMaskSet a (with_masks m (<[_ := ?x]> _)) row col h] =>
    rewrite (hMaskSet_Ret a _ row col h x)
      by (try lia; apply (mask_word_insert m row col w x Hw))
  end.
  rewrite !with_masks_twice. cbn [masks_ with_masks].
  change (cell_index (with_masks m _) row col) with (cell_index m row col).
  rewrite !list_insert_insert_eq.
  repeat split; do 3 f_equal; apply updated_twice_eq; intros i Hi.
  - rewrite fset_bits, (eset_bits (updated _ _ _)), eset_bits, fset_bits by lia.
    bit16_cases i; decide_bits.
  - rewrite hset_bits, (eset_bits (updated _ _ _)), !eset_bits, !hset_bits by lia.
    bit16_cases i; decide_bits.
  - rewrite hset_bits, (fset_bits (updated _ _ _)), !fset_bits, !hset_bits by lia.
    bit16_cases i; decide_bits.
Qed.

Lemma mask_setters_commute_witness :
  let m := with_masks demo_matrix [0; 0; 0; 5461; 0; 0] in
  (m1 ← eMaskSet true m 1 1 2; fMaskSet true m1 1 1 1)
  = (m1 ← fMaskSet true m 1 1 1; eMaskSet true m1 1 1 2) /\
  (m1 ← eMaskSet true m 1 1 2; hMaskSet true m1 1 1 9)
  = (m1 ← hMaskSet true m 1 1 9; eMaskSet true m1 1 1 2) /\
  (m1 ← fMaskSet true m 1 1 1; hMaskSet true m1 1 1 9)
  = (m1 ← hMaskSet true m 1 1 9; fMaskSet true m1 1 1 1).
Proof.
  apply (mask_setters_commute true (with_masks demo_matrix [0; 0; 0; 5461; 0; 0])
           1 1 5461 2 1 9); [reflexivity | lia | lia | lia].
Defined.

(** ** analyzeCell: what a call may change *)

Lemma rewrites_bits_insert lo hi m row col w w' :
  mask_word m row col = Some w ->
  0 <= w' < 2 ^ 16 ->
  (forall i, 0 <= i < 16 -> ~ lo <= i < hi -> Z.testbit w' i = Z.testbit w i) ->
  rewrites_bits lo hi m
    (with_masks m (<[Z.to_nat (cell_index m row col) := w']> (masks_ m))) row col.
Proof. intros Hw Hr Hb. right. exists w, w'. auto. Qed.

Lemma eMaskSet_rewrites a m row col k m1 :
  0 <= k < 4 -> eMaskSet a m row col k = Ret m1 -> rewrites_bits 7 10 m m1 row col.
Proof.
  intros Hk Hs. apply eMaskSet_inv in Hs as (w & Hw & ->).
  apply (rewrites_bits_insert _ _ _ _ _ w); [exact Hw | apply updated_range |].
  intros i Hi Hout. rewrite eset_bits by lia.
  destruct (Z.leb_spec 7 i), (Z.ltb_spec i 10); simpl; try reflexivity; lia.
Qed.

Lemma fMaskSet_rewrites a m row col k m1 :
  0 <= k < 4 -> fMaskSet a m row col k = Ret m1 -> rewrites_bits 10 13 m m1 row col.
Proof.
  intros Hk Hs. apply fMaskSet_inv in Hs as (w & Hw & ->).
  apply (rewrites_bits_insert _ _ _ _ _ w); [exact Hw | apply updated_range |].
  intros i Hi Hout. rewrite fset_bits by lia.
  destruct (Z.leb_spec 10 i), (Z.ltb_spec i 13); simpl; try reflexivity; lia.
Qed.

Lemma hMaskSet_rewrites a m row col k m1 :
  0 <= k < 32 -> hMaskSet a m row col k = Ret m1 -> rewrites_bits 1 7 m m1 row col.
Proof.
  intros Hk Hs. apply hMaskSet_inv in Hs as (w & Hw & ->).
  apply (rewrites_bits_insert _ _ _ _ _ w); [exact Hw | apply updated_range |].
  intros i Hi Hout. apply hset_other_bits; lia.
Qed.

Lemma or_bit_bound c k mask n :
  0 <= k < n -> 0 <= mask < 2 ^ n -> 0 <= or_bit c k mask < 2 ^ n.
Proof.
  intros Hk Hm. destruct c; simpl; [|exact Hm].
  apply lor_bound; [lia | exact Hm |]. rewrite Z.shiftl_1_l.
  split; [apply Z.pow_nonneg; lia | apply Z.pow_lt_mono_r; lia].
Qed.

Lemma origMaskH_range a score m sc row col ct refc readc readq offsetsc floorsc sc_cur om :
  origMaskH a score m sc row col ct refc readc readq offsetsc floorsc = Ret (sc_cur, om) ->
  0 <= om < 32.
Proof.
  unfold origMaskH. intros Ho.
  repeat (apply bind_Ret in Ho as (? & _ & Ho)). simpl in Ho.
  injection Ho as _ <-. change 32 with (2 ^ 5).
  apply or_bit_bound; [lia|].
  destruct (gapsAllowed m sc row); [|lia].
  repeat (apply or_bit_bound; [lia|]). lia.
Qed.

Lemma working_mask_range n set m row col shift width om mask :
  0 <= n -> 0 <= om < 2 ^ n -> 0 <= width < 2 ^ n ->
  working_mask set m row col shift width om = Ret mask -> 0 <= mask < 2 ^ n.
Proof.
  intros Hn Hom Hw. unfold working_mask. destruct set.
  - intros Hm. apply bind_Ret in Hm as (w & _ & Hm). injection Hm as <-.
    apply land_bound_r; assumption.
  - intros Hm. injection Hm as <-. exact Hom.
Qed.

Section AnalyzeCellFrame.
Context {RandomSource : Type}.
Variable nextU2 : RandomSource -> Z * RandomSource.
Variable randFromMask : RandomSource -> Z -> Z * RandomSource.
Variable score : Scoring -> Z -> Z -> Z -> Z.

Lemma select2_inv setter open_ extend m row col mask origMask
    (rand : RandomSource) o m' rand' o' :
  select2 nextU2 setter open_ extend m row col mask origMask rand o
    = Ret (m', rand', o') ->
  (m' = m \/ exists k, 0 <= k < 4 /\ setter m row col k = Ret m') /\
  selection_ok rand rand' o o' /\
  (empty o = false -> empty o' = true ->
   m' = m /\ rand' = rand /\ branch o' = branch o).
Proof.
  unfold select2, selection_ok.
  destruct (mask =? 3).
  - destruct (nextU2 rand) as [u r]. destruct (negb (u =? 0)); intros Hs;
      apply bind_Ret in Hs as (m1 & Hm1 & Hs); injection Hs as <- <- <-;
      (split; [right; eexists; split; [|exact Hm1]; lia|]); simpl;
      (split; [auto 6|]); intros He He'; congruence.
  - destruct (mask =? 2); [|destruct (mask =? 1)]; intros Hs.
    + apply bind_Ret in Hs as (m1 & Hm1 & Hs); injection Hs as <- <- <-.
      (split; [right; eexists; split; [|exact Hm1]; lia|]); simpl.
      (split; [auto 6|]); intros He He'; congruence.
    + apply bind_Ret in Hs as (m1 & Hm1 & Hs); injection Hs as <- <- <-.
      (split; [right; eexists; split; [|exact Hm1]; lia|]); simpl.
      (split; [auto 6|]); intros He He'; congruence.
    + injection Hs as <- <- <-. simpl. auto 8.
Qed.

Lemma transitionH_inv a select origMask o o' :
  transitionH a select origMask o = Ret o' ->
  reportedThru o' = reportedThru o /\ branch o' = branch o /\
  (select <> -1 /\ empty o' = empty o /\ canMoveThru o' = canMoveThru o \/
   select = -1 /\ empty o' = true /\ cur o' = cur o).
Proof.
  unfold transitionH. destruct (Z.eqb_spec select (-1)) as [->|Hne]; simpl.
  - intros Ht. injection Ht as <-. simpl. auto 6.
  - destruct (select =? 4); [|destruct (select =? 0); [|destruct (select =? 1);
      [|destruct (select =? 2)]]]; intros Ht;
      try (apply bind_Ret in Ht as (_ & _ & Ht));
      injection Ht as <-; simpl; auto 6.
Qed.

(** A mask with exactly one alternative has a first alternative. *)
Lemma firsts5_of_single mask select :
  at_ alts5 mask = Ret 1 -> at_ firsts5 mask = Ret select -> select <> -1.
Proof.
  intros Ha Hf. apply at_Ret in Ha as [Hm Ha]. apply at_Ret in Hf as [_ Hf].
  assert (Z.to_nat mask < 32)%nat as Hlt by (apply lookup_lt_Some in Ha; exact Ha).
  revert Ha Hf Hlt. generalize (Z.to_nat mask) as n. intros n.
  do 32 (destruct n as [|n];
    [intros Ha Hf _; first [discriminate Ha | (injection Hf as <-; discriminate)] |]).
  simpl. lia.
Qed.

Lemma selectH_inv a m sc row col mask origMask (rand : RandomSource) o m' rand' o' :
  0 <= mask < 32 ->
  selectH a randFromMask m sc row col mask origMask rand o = Ret (m', rand', o') ->
  (m' = m \/ exists k, 0 <= k < 32 /\ hMaskSet a m row col k = Ret m') /\
  selection_ok rand rand' o o' /\
  ((forall r k, fst (randFromMask r k) <> -1) ->
   empty o = false -> empty o' = true ->
   m' = m /\ rand' = rand /\ branch o' = branch o).
Proof.
  intros Hmask Hs. unfold selectH in Hs. apply bind_Ret in Hs as (opts & Hopts & Hs).
  unfold selection_ok.
  destruct (Z.eqb_spec opts 1) as [->|_]; [|destruct (1 <? opts)].
  - apply bind_Ret in Hs as (sel & Hsel & Hs). apply bind_Ret in Hs as (_ & _ & Hs).
    apply bind_Ret in Hs as (m1 & Hm1 & Hs). apply bind_Ret in Hs as (o1 & Ho1 & Hs).
    injection Hs as <- <- <-.
    split; [right; exists 0; split; [lia | exact Hm1]|].
    pose proof (firsts5_of_single mask sel Hopts Hsel) as Hne.
    apply transitionH_inv in Ho1 as (Hr & Hb & [(_ & He & Hc) | (Hm & _)]); [|done].
    rewrite Hr, Hb, He, Hc. split; [auto 6|]. intros _ H0 H1. congruence.
  - pose proof (fun Hr : forall r k, fst (randFromMask r k) <> -1 => Hr rand mask) as Hsel.
    destruct (randFromMask rand mask) as [sel r].
    apply bind_Ret in Hs as (_ & _ & Hs). apply bind_Ret in Hs as (_ & _ & Hs).
    apply bind_Ret in Hs as (m1 & Hm1 & Hs). apply bind_Ret in Hs as (o1 & Ho1 & Hs).
    injection Hs as <- <- <-.
    split.
    { right. eexists. split; [|exact Hm1]. change 32 with (2 ^ 5).
      rewrite Z.land_comm. apply land_bound_r; lia. }
    apply transitionH_inv in Ho1 as (Hr & Hb & Hcases). simpl in Hr, Hb.
    rewrite Hr, Hb. split.
    + split; [reflexivity|]. split; [auto|].
      destruct Hcases as [(_ & He & Hc) | (_ & He & Hc)]; simpl in *; auto.
    + intros Hrf H0 H1. specialize (Hsel Hrf). simpl in Hsel.
      destruct Hcases as [(_ & He & Hc) | (Hm & _)]; simpl in *; congruence.
  - apply bind_Ret in Hs as (o1 & Ho1 & Hs). injection Hs as <- <- <-.
    split; [auto|].
    apply transitionH_inv in Ho1 as (Hr & Hb & [(Hne & _) | (_ & He & Hc)]); [done|].
    rewrite Hr, Hb. auto 8.
Qed.

Lemma analyzeCell_cases a m row col ct refc readc readq sc offsetsc floorsc
    (rand : RandomSource) o m' rand' o' :
  analyzeCell a nextU2 randFromMask score m row col ct refc readc readq
    sc offsetsc floorsc rand o = Ret (m', rand', o') ->
  exists rt, reportedThrough m row col = Ret rt /\
    (rt = true /\ m' = m /\ rand' = rand /\
       o' = mkOut (empty o) (cur o) (branch o) false true \/
     rt = false /\ row = 0 /\ m' = m /\ rand' = rand /\
       o' = mkOut false (cur o) (branch o) true false \/
     rt = false /\ row <> 0 /\
       rewrites_bits (fst (field_bits ct)) (snd (field_bits ct)) m m' row col /\
       selection_ok rand rand' (mkOut false (cur o) (branch o) true false) o' /\
       ((forall r k, fst (randFromMask r k) <> -1) -> empty o' = true ->
        m' = m /\ rand' = rand /\ branch o' = branch o)).
Proof.
  intros Ha. unfold analyzeCell in Ha.
  apply bind_Ret in Ha as (rt & Hrt & Ha). exists rt. split; [exact Hrt|].
  destruct rt; [injection Ha as <- <- <-; auto 6|].
  destruct (Z.eqb_spec row 0) as [->|Hrow]; [injection Ha as <- <- <-; auto 8|].
  right; right. split; [reflexivity|]. split; [exact Hrow|].
  apply bind_Ret in Ha as (_ & _ & Ha).
  apply bind_Ret in Ha as ([[m1 r1] o1] & Hbr & Ha).
  apply bind_Ret in Ha as (_ & _ & Ha). injection Ha as <- <- <-.
  unfold field_bits.
  change (set_empty (set_canMoveThru (set_reportedThru o false) true) false)
    with (mkOut false (cur o) (branch o) true false) in Hbr.
  destruct (ct =? E); [|destruct (ct =? F)]; cbn [fst snd].
  - unfold analyzeE in Hbr.
    apply bind_Ret in Hbr as ([sc_cur om] & _ & Hbr).
    apply bind_Ret in Hbr as (_ & _ & Hbr).
    apply bind_Ret in Hbr as (set & _ & Hbr).
    apply bind_Ret in Hbr as (mask & _ & Hbr).
    apply bind_Ret in Hbr as ([[m2 r2] o2] & Hsel & Hbr).
    apply bind_Ret in Hbr as (_ & _ & Hbr). injection Hbr as <- <- <-.
    apply select2_inv in Hsel as (Hm & Hok & Hemp).
    split; [|split; [exact Hok | intros _; apply Hemp; reflexivity]].
    destruct Hm as [-> | (k & Hk & Hm)]; [left; reflexivity|].
    eapply eMaskSet_rewrites; eauto.
  - unfold analyzeF in Hbr.
    apply bind_Ret in Hbr as ([sc_cur om] & _ & Hbr).
    apply bind_Ret in Hbr as (_ & _ & Hbr).
    apply bind_Ret in Hbr as (set & _ & Hbr).
    apply bind_Ret in Hbr as (mask & _ & Hbr).
    apply bind_Ret in Hbr as ([[m2 r2] o2] & Hsel & Hbr).
    apply bind_Ret in Hbr as (_ & _ & Hbr). injection Hbr as <- <- <-.
    apply select2_inv in Hsel as (Hm & Hok & Hemp).
    split; [|split; [exact Hok | intros _; apply Hemp; reflexivity]].
    destruct Hm as [-> | (k & Hk & Hm)]; [left; reflexivity|].
    eapply fMaskSet_rewrites; eauto.
  - unfold analyzeH in Hbr.
    apply bind_Ret in Hbr as ([sc_cur om] & Hom & Hbr).
    apply bind_Ret in Hbr as (_ & _ & Hbr).
    apply bind_Ret in Hbr as (set & _ & Hbr).
    apply bind_Ret in Hbr as (mask & Hwm & Hbr).
    apply bind_Ret in Hbr as (_ & _ & Hbr).
    apply origMaskH_range in Hom.
    apply (working_mask_range 5) in Hwm; [|lia | exact Hom | lia].
    apply selectH_inv in Hbr as (Hm & Hok & Hemp); [|exact Hwm].
    split; [|split; [exact Hok | intros Hrf; apply Hemp; [exact Hrf | reflexivity]]].
    destruct Hm as [-> | (k & Hk & Hm)]; [left; reflexivity|].
    eapply hMaskSet_rewrites; eauto.
Qed.

(** X7. A call of [analyzeCell] that returns has changed at most the bits
    of the addressed cell's mask word that belong to the cell type: bits
    7..9 for E, 10..12 for F, 1..6 for H. The vector buffer, the dimensions
    and the words of all other cells are as they were, and so is bit 0: the
    call never marks a cell as reported through, and [reportedThru] is
    what [reportedThrough(row, col)] gives before and after. *)
Theorem analyzeCell_frame a m row col ct refc readc readq sc offsetsc floorsc
    (rand : RandomSource) o m' rand' o' :
  analyzeCell a nextU2 randFromMask score m row col ct refc readc readq
    sc offsetsc floorsc rand o = Ret (m', rand', o') ->
  rewrites_bits (fst (field_bits ct)) (snd (field_bits ct)) m m' row col /\
  with_masks m' (masks_ m) = m /\
  length (masks_ m') = length (masks_ m) /\
  (forall j : nat, j <> Z.to_nat (cell_index m row col) ->
     masks_ m' !! j = masks_ m !! j) /\
  reportedThrough m row col = Ret (reportedThru o') /\
  reportedThrough m' row col = Ret (reportedThru o').
Proof.
  intros Ha. apply analyzeCell_cases in Ha as (rt & Hrt & Hcases).
  assert (rewrites_bits (fst (field_bits ct)) (snd (field_bits ct)) m m' row col /\
          reportedThru o' = rt) as [Hrw Hrep].
  { destruct Hcases as [(-> & -> & _ & ->) | [(-> & _ & -> & _ & ->) |
      (-> & _ & Hrw & (Hr & _) & _)]]; [split; [left|]; reflexivity ..|].
    split; [exact Hrw | exact Hr]. }
  split; [exact Hrw|]. rewrite Hrep.
  assert (1 <= fst (field_bits ct)) as Hlo
    by (unfold field_bits; destruct (ct =? E); [|destruct (ct =? F)]; simpl; lia).
  destruct Hrw as [-> | (w & w' & Hw & -> & Hw' & Hbits)].
  - split; [apply with_masks_id|]. auto.
  - split; [apply with_masks_back|].
    split; [simpl; apply length_insert|].
    split; [intros j Hj; simpl; apply list_lookup_insert_ne; congruence|].
    split; [exact Hrt|].
    rewrite (reportedThrough_word _ _ _ _ Hw) in Hrt.
    rewrite (reportedThrough_word _ _ _ w') by (eapply mask_word_insert; exact Hw).
    rewrite Hbits by lia. exact Hrt.
Qed.

(** X8. The out-parameters and the random source after a call of
    [analyzeCell] that returns: [branch] is never cleared; the random
    source is drawn from only by a call that leaves [branch] set; a call
    that leaves [empty] set has not assigned [cur]; a cell that is neither
    reported through nor empty can be moved through. With a [randFromMask]
    that always selects an alternative, a call that leaves [empty] set has
    changed neither the matrix nor the random source nor [branch]. *)
Theorem analyzeCell_outputs a m row col ct refc readc readq sc offsetsc floorsc
    (rand : RandomSource) o m' rand' o' :
  analyzeCell a nextU2 randFromMask score m row col ct refc readc readq
    sc offsetsc floorsc rand o = Ret (m', rand', o') ->
  (branch o = true -> branch o' = true) /\
  (rand' = rand \/ branch o' = true) /\
  (empty o' = true -> cur o' = cur o) /\
  (reportedThru o' = false -> empty o' = false -> canMoveThru o' = true) /\
  ((forall r k, fst (randFromMask r k) <> -1) -> empty o' = true ->
   m' = m /\ rand' = rand /\ branch o' = branch o).
Proof.
  intros Ha. apply analyzeCell_cases in Ha as (rt & Hrt & Hcases).
  destruct Hcases as [(-> & -> & -> & ->) | [(-> & _ & -> & -> & ->) |
    (-> & _ & _ & (Hr & Hb & He) & Hemp)]]; simpl; [auto 8 | auto 8 |].
  simpl in Hb, He.
  split; [destruct Hb as [[_ ->] | ->]; auto|].
  split; [destruct Hb as [[-> _] | ->]; auto|].
  split; [destruct He as [[-> _] | [_ ->]]; [discriminate | reflexivity]|].
  split; [|exact Hemp].
  intros _ Hne. destruct He as [[_ ->] | [He _]]; [reflexivity | congruence].
Qed.

End AnalyzeCellFrame.

(** ** analyzeCell: how a cell hands out its predecessors *)

Lemma set_word_mask_word m row col w x :
  mask_word m row col = Some w -> mask_word (set_word m row col x) row col = Some x.
Proof. apply mask_word_insert. Qed.

Lemma set_word_twice m row col x y :
  set_word (set_word m row col x) row col y = set_word m row col y.
Proof.
  unfold set_word. rewrite with_masks_twice. f_equal. simpl.
  change (cell_index (with_masks m _) row col) with (cell_index m row col).
  apply list_insert_insert_eq.
Qed.

Lemma set_word_same m row col w :
  mask_word m row col = Some w -> set_word m row col w = m.
Proof.
  intros Hw. unfold set_word. rewrite list_insert_id by exact Hw. apply with_masks_id.
Qed.

Lemma gap_word_set_facts ct w k : 0 <= k < 4 ->
  Z.testbit (gap_word_set ct w k) 0 = Z.testbit w 0 /\
  Z.testbit (gap_word_set ct w k) (gap_init_bit ct) = true /\
  gap_field ct (gap_word_set ct w k) = k.
Proof.
  intros Hk. unfold gap_word_set, gap_init_bit, gap_field. destruct (ct =? E).
  - rewrite !eset_bits by lia. rewrite efield_set by lia. auto.
  - rewrite !fset_bits by lia. rewrite ffield_set by lia. auto.
Qed.

Ltac out_step :=
  cbn [mbind outcome_bind mret outcome_ret fst snd negb orb andb
       empty canMoveThru branch cur reportedThru
       set_branch set_cur set_empty set_canMoveThru set_reportedThru].

Section Predecessors.
Context {RandomSource : Type}.
Variable nextU2 : RandomSource -> Z * RandomSource.
Variable randFromMask : RandomSource -> Z -> Z * RandomSource.
Variable score : Scoring -> Z -> Z -> Z -> Z.

(** The scores [analyzeCell] reads do not depend on the mask words. *)
Lemma origMask_of_set_word a m row col x sc r c ct refc readc readq offsetsc floorsc :
  origMask_of a score (set_word m row col x) sc r c ct refc readc readq offsetsc floorsc
  = origMask_of a score m sc r c ct refc readc readq offsetsc floorsc.
Proof. reflexivity. Qed.

Ltac gap_select setter_Ret a m row col w Hw Hnz :=
  unfold select2;
  match goal with |- context [?mask =? 3] =>
    destruct (mask =? 3);
    [match goal with |- context [nextU2 ?rand] =>
       let u := fresh "u" in let r := fresh "r" in
       destruct (nextU2 rand) as [u r]; out_step; destruct (u =? 0)
     end; out_step;
     rewrite (setter_Ret a m row col _ w Hw) by lia; repeat (out_step; rewrite ?assert_holds); reflexivity|];
    destruct (mask =? 2);
    [rewrite (setter_Ret a m row col _ w Hw) by lia; repeat (out_step; rewrite ?assert_holds); reflexivity|];
    destruct (mask =? 1);
    [rewrite (setter_Ret a m row col _ w Hw) by lia; repeat (out_step; rewrite ?assert_holds); reflexivity|];
    out_step; rewrite Hnz; repeat (out_step; rewrite ?assert_holds); reflexivity
  end.

(** One call on a gap cell that is not reported through and has a
    predecessor by the scores, in terms of the cell's word. *)
Lemma gap_cell_call a m row col ct refc readc readq sc offsetsc floorsc
    (rand : RandomSource) o w sc_cur om :
  ct = E \/ ct = F -> 0 < row ->
  mask_word m row col = Some w -> Z.testbit w 0 = false ->
  origMask_of a score m sc row col ct refc readc readq offsetsc floorsc
    = Ret (sc_cur, om) ->
  0 < om ->
  analyzeCell a nextU2 randFromMask score m row col ct refc readc readq
    sc offsetsc floorsc rand o
  = Ret (let mask := if Z.testbit w (gap_init_bit ct) then gap_field ct w else om in
         if mask =? 3 then
           (set_word m row col (gap_word_set ct w (if fst (nextU2 rand) =? 0 then 1 else 2)),
            snd (nextU2 rand),
            found (if fst (nextU2 rand) =? 0 then gap_extend ct else gap_open ct) true)
         else if mask =? 2 then
           (set_word m row col (gap_word_set ct w 0), rand, found (gap_extend ct) (branch o))
         else if mask =? 1 then
           (set_word m row col (gap_word_set ct w 0), rand, found (gap_open ct) (branch o))
         else (m, rand, exhausted o)).
Proof.
  intros Hct Hrow Hw H0 Hom Hpos. unfold analyzeCell.
  rewrite (reportedThrough_word _ _ _ _ Hw), H0. out_step.
  destruct (Z.eqb_spec row 0); [lia|].
  destruct (Z.ltb_spec 0 row); [|lia]. rewrite assert_holds. out_step.
  assert ((0 <? om) || (sc_cur <=? match_ sc) = true) as Hassert
    by (destruct (Z.ltb_spec 0 om); [reflexivity | lia]).
  assert ((om =? 0) = false) as Hnz by (apply Z.eqb_neq; lia).
  pose proof (cell_index_nonneg m row col) as Hidx.
  cbv zeta.
  destruct Hct as [-> | ->]; unfold origMask_of in Hom;
    unfold gap_init_bit, gap_field, gap_word_set, gap_open, gap_extend.
  - change (E =? E) with true in *. change (E =? H) with false. cbv iota in Hom |- *.
    unfold analyzeE. rewrite Hom. out_step. rewrite Hassert, assert_holds.
    out_step. rewrite (isEMaskSet_word _ _ _ _ Hw).
    out_step. unfold working_mask.
    rewrite (proj2 (at_Ret _ _ w)) by (split; [exact Hidx | exact Hw]).
    destruct (Z.testbit w 7); out_step; fold (efield w);
      gap_select eMaskSet_Ret a m row col w Hw Hnz.
  - change (F =? E) with false in *. change (F =? F) with true in *.
    change (F =? H) with false. cbv iota in Hom |- *.
    unfold analyzeF. rewrite Hom. out_step. rewrite Hassert, assert_holds.
    out_step. rewrite (isFMaskSet_word _ _ _ _ Hw).
    out_step. unfold working_mask.
    rewrite (proj2 (at_Ret _ _ w)) by (split; [exact Hidx | exact Hw]).
    destruct (Z.testbit w 10); out_step; fold (ffield w);
      gap_select fMaskSet_Ret a m row col w Hw Hnz.
Qed.

(** X9. A gap cell (E or F) below row 0 that is not reported through, whose
    mask has not been stored yet and which has exactly one predecessor by
    the scores ([origMask] 1: the gap open from H, or 2: the gap
    extension): the first call of [analyzeCell] returns that transition,
    without a draw from the random source and without setting [branch];
    every later call on the resulting matrix finds the cell exhausted
    ([empty] set, [canMoveThru] clear) and changes nothing. *)
Theorem gap_cell_single_predecessor a m row col ct refc readc readq sc offsetsc floorsc
    (rand : RandomSource) o w sc_cur om :
  ct = E \/ ct = F -> 0 < row ->
  mask_word m row col = Some w -> Z.testbit w 0 = false ->
  Z.testbit w (gap_init_bit ct) = false ->
  origMask_of a score m sc row col ct refc readc readq offsetsc floorsc
    = Ret (sc_cur, om) ->
  om = 1 \/ om = 2 ->
  exists m1,
    analyzeCell a nextU2 randFromMask score m row col ct refc readc readq
      sc offsetsc floorsc rand o
    = Ret (m1, rand, found (if om =? 1 then gap_open ct else gap_extend ct) (branch o)) /\
    forall (rand2 : RandomSource) o2,
      analyzeCell a nextU2 randFromMask score m1 row col ct refc readc readq
        sc offsetsc floorsc rand2 o2
      = Ret (m1, rand2, exhausted o2).
Proof.
  intros Hct Hrow Hw H0 Hinit Hom Hone.
  exists (set_word m row col (gap_word_set ct w 0)). split.
  - rewrite (gap_cell_call a m row col ct refc readc readq sc offsetsc floorsc
               rand o w sc_cur om) by (assumption || lia).
    rewrite Hinit. cbv zeta. destruct Hone as [-> | ->]; reflexivity.
  - intros rand2 o2.
    destruct (gap_word_set_facts ct w 0 ltac:(lia)) as (Hb0 & Hbi & Hf).
    rewrite (gap_cell_call a _ row col ct refc readc readq sc offsetsc floorsc
               rand2 o2 (gap_word_set ct w 0) sc_cur om);
      [| assumption | assumption | eapply set_word_mask_word; exact Hw
       | congruence | rewrite origMask_of_set_word; exact Hom | lia].
    rewrite Hbi, Hf. reflexivity.
Qed.

(** X10. A gap cell (E or F) below row 0 that is not reported through,
    whose mask has not been stored yet and which has both predecessors by
    the scores ([origMask] 3): the first call draws once from the random
    source, sets [branch] and returns the gap open if the draw is not 0
    and the gap extension if it is; the second call returns the other
    transition, without a draw and without setting [branch]; every later
    call finds the cell exhausted and changes nothing. Each predecessor is
    handed out exactly once. *)
Theorem gap_cell_two_predecessors a m row col ct refc readc readq sc offsetsc floorsc
    (rand : RandomSource) o w sc_cur :
  ct = E \/ ct = F -> 0 < row ->
  mask_word m row col = Some w -> Z.testbit w 0 = false ->
  Z.testbit w (gap_init_bit ct) = false ->
  origMask_of a score m sc row col ct refc readc readq offsetsc floorsc
    = Ret (sc_cur, 3) ->
  exists m1 m2,
    analyzeCell a nextU2 randFromMask score m row col ct refc readc readq
      sc offsetsc floorsc rand o
    = Ret (m1, snd (nextU2 rand),
           found (if fst (nextU2 rand) =? 0 then gap_extend ct else gap_open ct) true) /\
    (forall (rand2 : RandomSource) o2,
       analyzeCell a nextU2 randFromMask score m1 row col ct refc readc readq
         sc offsetsc floorsc rand2 o2
       = Ret (m2, rand2,
              found (if fst (nextU2 rand) =? 0 then gap_open ct else gap_extend ct)
                (branch o2))) /\
    (forall (rand3 : RandomSource) o3,
       analyzeCell a nextU2 randFromMask score m2 row col ct refc readc readq
         sc offsetsc floorsc rand3 o3
       = Ret (m2, rand3, exhausted o3)).
Proof.
  intros Hct Hrow Hw H0 Hinit Hom.
  set (k := if fst (nextU2 rand) =? 0 then 1 else 2).
  assert (0 <= k < 4 /\ (k = 1 \/ k = 2)) as [Hk Hk12]
    by (unfold k; destruct (fst (nextU2 rand) =? 0); lia).
  set (w1 := gap_word_set ct w k).
  set (w2 := gap_word_set ct w1 0).
  destruct (gap_word_set_facts ct w k Hk) as (Hb0 & Hbi & Hf). fold w1 in Hb0, Hbi, Hf.
  destruct (gap_word_set_facts ct w1 0 ltac:(lia)) as (Hc0 & Hci & Hcf).
  fold w2 in Hc0, Hci, Hcf.
  exists (set_word m row col w1), (set_word m row col w2). split; [|split].
  - rewrite (gap_cell_call a m row col ct refc readc readq sc offsetsc floorsc
               rand o w sc_cur 3) by (assumption || lia).
    rewrite Hinit. reflexivity.
  - intros rand2 o2.
    rewrite (gap_cell_call a _ row col ct refc readc readq sc offsetsc floorsc
               rand2 o2 w1 sc_cur 3);
      [| assumption | assumption | eapply set_word_mask_word; exact Hw
       | congruence | rewrite origMask_of_set_word; exact Hom | lia].
    rewrite Hbi, Hf, !set_word_twice. fold w2. cbv zeta. unfold k.
    destruct (fst (nextU2 rand) =? 0); reflexivity.
  - intros rand3 o3.
    rewrite (gap_cell_call a _ row col ct refc readc readq sc offsetsc floorsc
               rand3 o3 w2 sc_cur 3);
      [| assumption | assumption | eapply set_word_mask_word; exact Hw
       | congruence | rewrite origMask_of_set_word; exact Hom | lia].
    rewrite Hci, Hcf. reflexivity.
Qed.

Lemma tables_single k : 0 <= k < 5 ->
  at_ alts5 (Z.shiftl 1 k) = Ret 1 /\ at_ firsts5 (Z.shiftl 1 k) = Ret k.
Proof.
  intros Hk.
  assert (k = 0 \/ k = 1 \/ k = 2 \/ k = 3 \/ k = 4) as [->|[->|[->|[->| ->]]]] by lia;
    split; reflexivity.
Qed.

Lemma transitionH_found a k origMask o : 0 <= k < 5 ->
  transitionH a k origMask o = Ret (set_cur o (h_transition k)).
Proof.
  intros Hk.
  assert (k = 0 \/ k = 1 \/ k = 2 \/ k = 3 \/ k = 4) as [->|[->|[->|[->| ->]]]] by lia;
    try reflexivity.
  destruct a; reflexivity.
Qed.

(** The prologue of a call on an H cell that is not reported through, up to
    the selection. *)
Lemma h_cell_call a m row col refc readc readq sc offsetsc floorsc
    (rand : RandomSource) o w sc_cur om :
  0 < row ->
  mask_word m row col = Some w -> Z.testbit w 0 = false ->
  origMaskH a score m sc row col H refc readc readq offsetsc floorsc
    = Ret (sc_cur, om) ->
  0 < om ->
  forall mask, mask = (if Z.testbit w 1 then hfield w else om) ->
  gapsAllowed m sc row || (mask =? Z.shiftl 1 4) || (mask =? 0) = true ->
  analyzeCell a nextU2 randFromMask score m row col H refc readc readq
    sc offsetsc floorsc rand o
  = selectH a randFromMask m sc row col mask om rand (found (cur o) (branch o)).
Proof.
  intros Hrow Hw H0 Hom Hpos mask Hmask Hgap. unfold analyzeCell.
  rewrite (reportedThrough_word _ _ _ _ Hw), H0. out_step.
  destruct (Z.eqb_spec row 0); [lia|].
  destruct (Z.ltb_spec 0 row); [|lia]. rewrite assert_holds. out_step.
  change (H =? E) with false. change (H =? F) with false. change (H =? H) with true.
  cbv iota. unfold analyzeH. rewrite Hom. out_step.
  assert ((0 <? om) || (sc_cur <=? match_ sc) = true) as ->
    by (destruct (Z.ltb_spec 0 om); [reflexivity | lia]).
  rewrite assert_holds. out_step. rewrite (isHMaskSet_word _ _ _ _ Hw). out_step.
  assert (working_mask (Z.testbit w 1) m row col 2 31 om = Ret mask) as ->.
  { unfold working_mask. rewrite Hmask. destruct (Z.testbit w 1); [|reflexivity].
    rewrite (proj2 (at_Ret _ _ w)) by (split; [apply cell_index_nonneg | exact Hw]).
    reflexivity. }
  out_step. rewrite Hgap, assert_holds. out_step.
  change (set_empty (set_canMoveThru (set_reportedThru o false) true) false)
    with (found (cur o) (branch o)).
  destruct (selectH a randFromMask m sc row col mask om rand (found (cur o) (branch o)))
    as [[[m1 r1] o1]|]; [|reflexivity].
  out_step. rewrite orb_true_r, assert_holds. reflexivity.
Qed.

(** The call on an H cell whose working mask is the single alternative [k],
    and on one whose working mask is empty. *)
Lemma h_cell_single a m row col refc readc readq sc offsetsc floorsc
    (rand : RandomSource) o w sc_cur om k :
  0 < row ->
  mask_word m row col = Some w -> Z.testbit w 0 = false ->
  origMaskH a score m sc row col H refc readc readq offsetsc floorsc
    = Ret (sc_cur, om) ->
  0 < om -> 0 <= k < 5 ->
  (if Z.testbit w 1 then hfield w else om) = Z.shiftl 1 k ->
  gapsAllowed m sc row = true \/ k = 4 ->
  analyzeCell a nextU2 randFromMask score m row col H refc readc readq
    sc offsetsc floorsc rand o
  = Ret (set_word m row col (h_word_set w 0), rand, found (h_transition k) (branch o)).
Proof.
  intros Hrow Hw H0 Hom Hpos Hk Hmask Hgap.
  rewrite (h_cell_call a m row col refc readc readq sc offsetsc floorsc rand o w sc_cur om
             Hrow Hw H0 Hom Hpos (Z.shiftl 1 k))
    by first [ symmetry; exact Hmask
             | destruct Hgap as [-> | ->];
               [reflexivity | destruct (gapsAllowed m sc row); reflexivity] ].
  unfold selectH.
  destruct (tables_single k Hk) as [-> ->]. out_step.
  change (1 =? 1) with true. cbv iota.
  assert ((0 <=? Z.shiftl 1 k) = true) as ->
    by (apply Z.leb_le, Z.shiftl_nonneg; lia).
  rewrite assert_holds. out_step.
  rewrite (hMaskSet_Ret a m row col 0 w Hw) by lia. out_step.
  rewrite transitionH_found by exact Hk. reflexivity.
Qed.

Lemma h_cell_empty a m row col refc readc readq sc offsetsc floorsc
    (rand : RandomSource) o w sc_cur om :
  0 < row ->
  mask_word m row col = Some w -> Z.testbit w 0 = false ->
  origMaskH a score m sc row col H refc readc readq offsetsc floorsc
    = Ret (sc_cur, om) ->
  0 < om ->
  (if Z.testbit w 1 then hfield w else om) = 0 ->
  analyzeCell a nextU2 randFromMask score m row col H refc readc readq
    sc offsetsc floorsc rand o
  = Ret (m, rand, exhausted o).
Proof.
  intros Hrow Hw H0 Hom Hpos Hmask.
  rewrite (h_cell_call a m row col refc readc readq sc offsetsc floorsc rand o w sc_cur om
             Hrow Hw H0 Hom Hpos 0)
    by first [ symmetry; exact Hmask | apply orb_true_r ].
  unfold selectH.
  change (at_ alts5 0) with (Ret 0). out_step.
  change (0 =? 1) with false. change (1 <? 0) with false. cbv iota.
  unfold transitionH. change (negb (-1 =? -1)) with false. cbv iota. out_step.
  assert ((om =? 0) = false) as -> by (apply Z.eqb_neq; lia). reflexivity.
Qed.

Lemma origMaskH_set_word a m row col x sc r c ct refc readc readq offsetsc floorsc :
  origMaskH a score (set_word m row col x) sc r c ct refc readc readq offsetsc floorsc
  = origMaskH a score m sc r c ct refc readc readq offsetsc floorsc.
Proof. reflexivity. Qed.

Lemma h_word_set_facts w mask : 0 <= mask < 32 ->
  Z.testbit (h_word_set w mask) 0 = Z.testbit w 0 /\
  Z.testbit (h_word_set w mask) 1 = true /\
  hfield (h_word_set w mask) = Z.lor mask (Z.land (hfield w) 16).
Proof.
  intros Hm. unfold h_word_set. rewrite !hset_bits by lia.
  rewrite hfield_updated by exact Hm. auto.
Qed.

Lemma hfield_bit w j : 0 <= j < 5 -> Z.testbit (hfield w) j = Z.testbit w (j + 2).
Proof.
  intros Hj. unfold hfield. change 31 with (Z.ones 5).
  rewrite Z.land_spec, Z.shiftr_spec, Z.testbit_ones_nonneg by lia.
  destruct (Z.ltb_spec j 5); [|lia]. apply andb_true_r.
Qed.

Lemma stale_bit_clear w : Z.testbit w 6 = false -> Z.land (hfield w) 16 = 0.
Proof.
  intros H6. apply Z.bits_inj'. intros i Hi. rewrite Z.land_spec, Z.bits_0.
  destruct (Z.eq_dec i 4) as [->|Hne].
  - rewrite hfield_bit by lia. change (4 + 2) with 6. rewrite H6. reflexivity.
  - change 16 with (Z.shiftl 1 4). rewrite Z.shiftl_spec by lia.
    change 1 with (Z.ones 1). rewrite Z.testbit_ones by lia.
    destruct (Z.leb_spec 0 (i - 4)), (Z.ltb_spec (i - 4) 1);
      simpl; rewrite ?andb_false_r; try reflexivity; lia.
Qed.

(** X11. An H cell below row 0 that is not reported through, whose mask has
    not been stored yet (and whose word has bit 6 clear), with exactly one
    predecessor by the scores ([origMask] has the single bit [k]): the
    first call of [analyzeCell] returns the transition of bit [k] (0: ref
    open, 1: read open, 2: ref extend, 3: read extend, 4: diagonal) without
    a draw from the random source and without setting [branch]; every
    later call finds the cell exhausted ([empty] set, [canMoveThru] clear)
    and changes nothing. *)
Theorem h_cell_single_predecessor a m row col refc readc readq sc offsetsc floorsc
    (rand : RandomSource) o w sc_cur k :
  0 < row ->
  mask_word m row col = Some w -> Z.testbit w 0 = false ->
  Z.testbit w 1 = false -> Z.testbit w 6 = false ->
  0 <= k < 5 ->
  origMaskH a score m sc row col H refc readc readq offsetsc floorsc
    = Ret (sc_cur, Z.shiftl 1 k) ->
  exists m1,
    analyzeCell a nextU2 randFromMask score m row col H refc readc readq
      sc offsetsc floorsc rand o
    = Ret (m1, rand, found (h_transition k) (branch o)) /\
    forall (rand2 : RandomSource) o2,
      analyzeCell a nextU2 randFromMask score m1 row col H refc readc readq
        sc offsetsc floorsc rand2 o2
      = Ret (m1, rand2, exhausted o2).
Proof.
  intros Hrow Hw H0 H1 H6 Hk Hom.
  assert (0 < Z.shiftl 1 k) as Hpos
    by (rewrite Z.shiftl_1_l; apply Z.pow_pos_nonneg; lia).
  exists (set_word m row col (h_word_set w 0)). split.
  - apply (h_cell_single a m row col refc readc readq sc offsetsc floorsc rand o w
             sc_cur (Z.shiftl 1 k) k); try assumption.
    + rewrite H1. reflexivity.
    + destruct (gapsAllowed m sc row) eqn:Hga; [left; reflexivity | right].
      destruct (origMaskH_barrier _ _ _ _ _ _ _ _ _ _ _ _ _ _ Hga Hom) as [Hz | H16].
      * lia.
      * assert (k = 0 \/ k = 1 \/ k = 2 \/ k = 3 \/ k = 4) as [->|[->|[->|[->| ->]]]]
          by lia; try discriminate H16; reflexivity.
  - intros rand2 o2.
    destruct (h_word_set_facts w 0 ltac:(lia)) as (Hb0 & Hb1 & Hf).
    rewrite stale_bit_clear in Hf by exact H6.
    apply (h_cell_empty a _ row col refc readc readq sc offsetsc floorsc rand2 o2
             (h_word_set w 0) sc_cur (Z.shiftl 1 k)); try assumption.
    + eapply set_word_mask_word; exact Hw.
    + congruence.
    + rewrite Hb1. exact Hf.
Qed.

(** X12. An H cell below row 0 that is not reported through and whose
    stored mask is the diagonal alone (initialised bit set, H field 16),
    with a predecessor by the scores: a call of [analyzeCell] returns the
    diagonal transition and leaves the matrix exactly as it was, so every
    further call does the same; the cell is never found exhausted.
    [hMaskSet(row, col, 0)] does not clear bit 6 of the word. *)
Theorem h_cell_diagonal_stays a m row col refc readc readq sc offsetsc floorsc
    (rand : RandomSource) o w sc_cur om :
  0 < row ->
  mask_word m row col = Some w -> 0 <= w < 2 ^ 16 ->
  Z.testbit w 0 = false -> Z.testbit w 1 = true -> hfield w = 16 ->
  origMaskH a score m sc row col H refc readc readq offsetsc floorsc
    = Ret (sc_cur, om) ->
  0 < om ->
  analyzeCell a nextU2 randFromMask score m row col H refc readc readq
    sc offsetsc floorsc rand o
  = Ret (m, rand, found SW_BT_OALL_DIAG (branch o)).
Proof.
  intros Hrow Hw Hrange H0 H1 Hf Hom Hpos.
  assert ((if Z.testbit w 1 then hfield w else om) = Z.shiftl 1 4) as Hmask
    by (rewrite H1, Hf; reflexivity).
  rewrite (h_cell_single a m row col refc readc readq sc offsetsc floorsc rand o w
             sc_cur om 4 Hrow Hw H0 Hom Hpos ltac:(lia) Hmask (or_intror eq_refl)).
  assert (h_word_set w 0 = w) as ->; [|rewrite set_word_same by exact Hw; reflexivity].
  apply (bits_eq_below 16); [apply updated_range | exact Hrange |].
  intros i Hi. unfold h_word_set. rewrite hset_bits by lia.
  assert (forall j, 0 <= j < 5 -> Z.testbit w (j + 2) = Z.testbit 16 j) as Hbits
    by (intros j Hj; rewrite <- hfield_bit, Hf by lia; reflexivity).
  assert (Z.testbit w 2 = false) as W2 by exact (Hbits 0 ltac:(lia)).
  assert (Z.testbit w 3 = false) as W3 by exact (Hbits 1 ltac:(lia)).
  assert (Z.testbit w 4 = false) as W4 by exact (Hbits 2 ltac:(lia)).
  assert (Z.testbit w 5 = false) as W5 by exact (Hbits 3 ltac:(lia)).
  assert (Z.testbit w 6 = true) as W6 by exact (Hbits 4 ltac:(lia)).
  bit16_cases i; rewrite ?H1, ?W2, ?W3, ?W4, ?W5, ?W6; decide_bits.
Qed.

End Predecessors.

Lemma analyzeCell_frame_witness :
  let m := demo_gap_matrix in
  let m' := with_masks demo_gap_matrix [0; 0; 0; 384; 0; 0] in
  let o' := found SW_BT_RDGAP_EXTEND true in
  rewrites_bits (fst (field_bits E)) (snd (field_bits E)) m m' 1 1 /\
  with_masks m' (masks_ m) = m /\
  length (masks_ m') = length (masks_ m) /\
  (forall j : nat, j <> Z.to_nat (cell_index m 1 1) ->
     masks_ m' !! j = masks_ m !! j) /\
  reportedThrough m 1 1 = Ret (reportedThru o') /\
  reportedThrough m' 1 1 = Ret (reportedThru o').
Proof.
  apply (analyzeCell_frame demo_nextU2 demo_randFromMask demo_score true
           demo_gap_matrix 1 1 E 0 0 73 demo_scoring 0 (-1) tt demo_out
           (with_masks demo_gap_matrix [0; 0; 0; 384; 0; 0]) tt
           (found SW_BT_RDGAP_EXTEND true)).
  reflexivity.
Defined.

Lemma analyzeCell_outputs_witness :
  let m := demo_gap_matrix in
  let m' := with_masks demo_gap_matrix [0; 0; 0; 384; 0; 0] in
  let o' := found SW_BT_RDGAP_EXTEND true in
  (branch demo_out = true -> branch o' = true) /\
  (tt = tt \/ branch o' = true) /\
  (empty o' = true -> cur o' = cur demo_out) /\
  (reportedThru o' = false -> empty o' = false -> canMoveThru o' = true) /\
  ((forall r k, fst (demo_randFromMask r k) <> -1) -> empty o' = true ->
   m' = m /\ tt = tt /\ branch o' = branch demo_out).
Proof.
  apply (analyzeCell_outputs demo_nextU2 demo_randFromMask demo_score true
           demo_gap_matrix 1 1 E 0 0 73 demo_scoring 0 (-1) tt demo_out
           (with_masks demo_gap_matrix [0; 0; 0; 384; 0; 0]) tt
           (found SW_BT_RDGAP_EXTEND true)).
  reflexivity.
Defined.

Lemma gap_cell_single_predecessor_witness :
  exists m1,
    analyzeCell true demo_nextU2 demo_randFromMask demo_score demo_gap_matrix
      1 0 F 0 0 73 demo_scoring 0 8 tt demo_out
    = Ret (m1, tt, found (if 1 =? 1 then gap_open F else gap_extend F)
                     (branch demo_out)) /\
    forall (rand2 : unit) o2,
      analyzeCell true demo_nextU2 demo_randFromMask demo_score m1
        1 0 F 0 0 73 demo_scoring 0 8 rand2 o2
      = Ret (m1, rand2, exhausted o2).
Proof.
  apply (gap_cell_single_predecessor demo_nextU2 demo_randFromMask demo_score true
           demo_gap_matrix 1 0 F 0 0 73 demo_scoring 0 8 tt demo_out 0 4 1);
    [right; reflexivity | lia | reflexivity | reflexivity | reflexivity
     | reflexivity | left; reflexivity].
Defined.

Lemma gap_cell_two_predecessors_witness :
  exists m1 m2,
    analyzeCell true demo_nextU2 demo_randFromMask demo_score demo_gap_matrix
      1 1 E 0 0 73 demo_scoring 0 (-1) tt demo_out
    = Ret (m1, snd (demo_nextU2 tt),
           found (if fst (demo_nextU2 tt) =? 0 then gap_extend E else gap_open E) true) /\
    (forall (rand2 : unit) o2,
       analyzeCell true demo_nextU2 demo_randFromMask demo_score m1
         1 1 E 0 0 73 demo_scoring 0 (-1) rand2 o2
       = Ret (m2, rand2,
              found (if fst (demo_nextU2 tt) =? 0 then gap_open E else gap_extend E)
                (branch o2))) /\
    (forall (rand3 : unit) o3,
       analyzeCell true demo_nextU2 demo_randFromMask demo_score m2
         1 1 E 0 0 73 demo_scoring 0 (-1) rand3 o3
       = Ret (m2, rand3, exhausted o3)).
Proof.
  apply (gap_cell_two_predecessors demo_nextU2 demo_randFromMask demo_score true
           demo_gap_matrix 1 1 E 0 0 73 demo_scoring 0 (-1) tt demo_out 0 4);
    [left; reflexivity | lia | reflexivity | reflexivity | reflexivity | reflexivity].
Defined.

Lemma h_cell_single_predecessor_witness :
  exists m1,
    analyzeCell true demo_nextU2 demo_randFromMask demo_score (initMasks demo_matrix)
      2 1 H 0 0 73 demo_scoring 0 0 tt demo_out
    = Ret (m1, tt, found (h_transition 4) (branch demo_out)) /\
    forall (rand2 : unit) o2,
      analyzeCell true demo_nextU2 demo_randFromMask demo_score m1
        2 1 H 0 0 73 demo_scoring 0 0 rand2 o2
      = Ret (m1, rand2, exhausted o2).
Proof.
  apply (h_cell_single_predecessor demo_nextU2 demo_randFromMask demo_score true
           (initMasks demo_matrix) 2 1 0 0 73 demo_scoring 0 0 tt demo_out 0 2 4);
    [lia | reflexivity | reflexivity | reflexivity | reflexivity | lia | reflexivity].
Defined.

Lemma h_cell_diagonal_stays_witness :
  analyzeCell true demo_nextU2 demo_randFromMask demo_score
    (with_masks demo_matrix [0; 0; 0; 66; 0; 0]) 1 1 H 0 0 73 demo_scoring 0 0 tt demo_out
  = Ret (with_masks demo_matrix [0; 0; 0; 66; 0; 0], tt,
         found SW_BT_OALL_DIAG (branch demo_out)).
Proof.
  apply (h_cell_diagonal_stays demo_nextU2 demo_randFromMask demo_score true
           (with_masks demo_matrix [0; 0; 0; 66; 0; 0]) 1 1 0 0 73 demo_scoring 0 0
           tt demo_out 66 2 16);
    [lia | reflexivity | lia | reflexivity | reflexivity | reflexivity
     | reflexivity | lia].
Defined.

(** ** The gap barrier *)

(** X13. [gapsAllowed] of [analyzeCell], for a row of the matrix: it is the
    same for a row and for its mirror image [nrow_ - 1 - row]; with
    [gapbar = 0] gaps are allowed in every row; in a matrix of at most
    [2 * gapbar] rows they are allowed in none; and a negative [gapbar],
    which the casts to [size_t] turn into a huge barrier, allows them in
    none either. *)
Theorem gapsAllowed_rows m sc row :
  0 <= row < nrow_ m -> nrow_ m < 2 ^ 63 -> - 2 ^ 31 <= gapbar sc < 2 ^ 31 ->
  gapsAllowed m sc row = gapsAllowed m sc (nrow_ m - 1 - row) /\
  (gapbar sc = 0 -> gapsAllowed m sc row = true) /\
  (nrow_ m <= 2 * gapbar sc -> gapsAllowed m sc row = false) /\
  (gapbar sc < 0 -> gapsAllowed m sc row = false).
Proof.
  intros Hr Hn Hg.
  assert (forall r, 0 <= r < nrow_ m ->
            gapsAllowed m sc r
            = negb ((r <? usz (gapbar sc)) || (nrow_ m - r - 1 <? usz (gapbar sc)))) as Hdef.
  { intros r Hr'. unfold gapsAllowed.
    rewrite (usz_small (nrow_ m - r)) by lia.
    rewrite (usz_small (nrow_ m - r - 1)) by lia. reflexivity. }
  rewrite !Hdef by lia.
  replace (nrow_ m - (nrow_ m - 1 - row) - 1) with row by lia.
  replace (nrow_ m - 1 - row) with (nrow_ m - row - 1) by lia.
  split; [rewrite orb_comm; reflexivity|].
  assert (0 <= gapbar sc -> usz (gapbar sc) = gapbar sc) as Hpos
    by (intros; apply usz_small; lia).
  assert (gapbar sc < 0 -> usz (gapbar sc) = 2 ^ 64 + gapbar sc) as Hneg.
  { intros Hlt. unfold usz. symmetry. apply (Z.mod_unique_pos _ _ (-1)); lia. }
  split; [|split].
  - intros H0. rewrite Hpos by lia.
    destruct (Z.ltb_spec row (gapbar sc)), (Z.ltb_spec (nrow_ m - row - 1) (gapbar sc));
      simpl; try reflexivity; lia.
  - intros Hsmall. rewrite Hpos by lia.
    destruct (Z.ltb_spec row (gapbar sc)), (Z.ltb_spec (nrow_ m - row - 1) (gapbar sc));
      simpl; try reflexivity; lia.
  - intros Hlt. rewrite Hneg by lia.
    destruct (Z.ltb_spec row (2 ^ 64 + gapbar sc)); simpl; [reflexivity | lia].
Qed.

Lemma gapsAllowed_rows_witness :
  gapsAllowed demo_matrix demo_scoring 0
    = gapsAllowed demo_matrix demo_scoring (nrow_ demo_matrix - 1 - 0) /\
  (gapbar demo_scoring = 0 -> gapsAllowed demo_matrix demo_scoring 0 = true) /\
  (nrow_ demo_matrix <= 2 * gapbar demo_scoring ->
   gapsAllowed demo_matrix demo_scoring 0 = false) /\
  (gapbar demo_scoring < 0 -> gapsAllowed demo_matrix demo_scoring 0 = false).
Proof.
  apply (gapsAllowed_rows demo_matrix demo_scoring 0);
    [simpl; lia | simpl; lia | simpl; lia].
Defined.

(** ** The vector accessors and the element accessors *)

Lemma layout_facts m row :
  init_layout m -> 0 <= row < nrow_ m ->
  0 < nvecrow_ m /\ 0 <= row mod nvecrow_ m < nvecrow_ m /\
  0 <= row / nvecrow_ m < wperv_ m /\
  row = nvecrow_ m * (row / nvecrow_ m) + row mod nvecrow_ m.
Proof.
  intros (Hin & Hw & Hnr & Hnc & HS & Hcs & Hrs & Hlen & Hsz & Hbytes) Hrow.
  assert (0 < wperv_ m) as Hwpos by (destruct Hw; lia).
  destruct (nvecrow_bounds (nrow_ m) (wperv_ m) Hnr Hwpos) as [HSpos HSw].
  rewrite <- HS in HSpos, HSw.
  pose proof (Z.mod_pos_bound row (nvecrow_ m) HSpos) as Hmod.
  pose proof (Z.div_mod row (nvecrow_ m) ltac:(lia)) as Hdm.
  split; [exact HSpos|]. split; [exact Hmod|]. split; [|exact Hdm].
  split; [apply Z.div_pos; lia | apply Z.div_lt_upper_bound; nia].
Qed.

(** The vector number both accessor families compute, without wrap-around. *)
Lemma vec_at_layout a m ok row col slot :
  init_layout m -> ok = true ->
  0 <= row < nvecrow_ m -> 0 <= col < ncol_ m -> 0 <= slot < 4 ->
  vec_at a m ok row col slot = Ret (vector_at (nvecrow_ m) col row slot).
Proof.
  intros Hl -> Hrow Hcol Hslot.
  destruct Hl as (Hin & Hw & Hnr & Hnc & HS & Hcs & Hrs & Hlen & Hsz & Hbytes).
  unfold vec_at, ptr, rowstride, colstride, vector_at.
  destruct (Z.ltb_spec row (nvecrow_ m)); [|lia].
  rewrite Hin, !assert_holds. cbn [mbind outcome_bind mret outcome_ret].
  rewrite Hcs, Hrs.
  rewrite (usz_small (row * 4)) by nia.
  rewrite (usz_small (col * (nvecrow_ m * 4))) by nia.
  f_equal. lia.
Qed.

Lemma elt_layout a m row col mat :
  init_layout m -> 0 <= row < nrow_ m -> 0 <= col < ncol_ m -> 0 <= mat < 3 ->
  elt a m row col mat
  = read_word (bufal_ m) (wperv_ m)
      (lane_byte (wperv_ m)
         (vector_at (nvecrow_ m) col (row mod nvecrow_ m) mat) (row / nvecrow_ m)).
Proof.
  intros Hl Hrow Hcol Hmat.
  destruct (layout_facts m row Hl Hrow) as (HSpos & Hmod & Hlane & Hdm).
  destruct Hl as (Hin & Hw & Hnr & Hnc & HS & Hcs & Hrs & Hlen & Hsz & Hbytes).
  unfold elt, read_word, lane_byte, vector_at.
  rewrite Hin, assert_holds. cbn [mbind outcome_bind].
  destruct (Z.ltb_spec row (nrow_ m)); [|lia]. rewrite assert_holds. cbn [mbind outcome_bind].
  destruct (Z.ltb_spec col (ncol_ m)); [|lia]. rewrite assert_holds. cbn [mbind outcome_bind].
  destruct (Z.ltb_spec mat 3); [|lia]. rewrite assert_holds. cbn [mbind outcome_bind].
  destruct (Z.eqb_spec (nvecrow_ m) 0); [lia|].
  rewrite Hcs, Hrs. set (S := nvecrow_ m) in *. cbv zeta.
  rewrite (usz_small (col * (S * 4))) by nia.
  rewrite (usz_small (row mod S * 4)) by nia.
  rewrite (usz_small (col * (S * 4) + row mod S * 4)) by nia.
  rewrite (usz_small (col * (S * 4) + row mod S * 4 + mat)) by nia.
  destruct (Z.eqb_spec (wperv_ m) 16) as [H16|H16].
  - rewrite H16. change (16 / 16) with 1. rewrite Z.mul_1_l. reflexivity.
  - destruct Hw as [?|Hw8]; [lia|]. rewrite Hw8, assert_holds.
    cbn [mbind outcome_bind]. change (16 / 8) with 2. reflexivity.
Qed.

(** X14. In a matrix laid out by [init], for a cell [(row, col)] with
    [col < nveccol_]: [evec], [fvec], [hvec] and [tmpvec] at vector row
    [row mod nvecrow_] return, in either build, four consecutive vectors
    that lie inside the buffer, and [eelt], [felt], [helt] of the cell read
    lane [row / nvecrow_] of the first three: the word that starts
    [(16 / wperv_) * lane] bytes into the vector. [evecUnsafe] and
    [tmpvecUnsafe] return what [evec] and [tmpvec] return there; one column
    after the last, at [nveccol_], they still return, three vectors apart,
    where [evec] stops at its assertion. *)
Theorem vector_accessors_agree a m row col :
  init_layout m -> 0 <= row < nrow_ m -> 0 <= col < ncol_ m -> col < nveccol_ m ->
  let r := row mod nvecrow_ m in
  let lane := row / nvecrow_ m in
  let read v := read_word (bufal_ m) (wperv_ m) (lane_byte (wperv_ m) v lane) in
  (exists v,
     evec a m r col = Ret v /\ fvec a m r col = Ret (v + 1) /\
     hvec a m r col = Ret (v + 2) /\ tmpvec a m r col = Ret (v + 3) /\
     evecUnsafe a m r col = Ret v /\ tmpvecUnsafe a m r col = Ret (v + 3) /\
     eelt a m row col = read v /\ felt a m row col = read (v + 1) /\
     helt a m row col = read (v + 2) /\
     0 <= v /\ 16 * (v + 4) <= Z.of_nat (length (bufal_ m))) /\
  evec true m r (nveccol_ m) = Stop AssertionFailure /\
  (exists v, evecUnsafe a m r (nveccol_ m) = Ret v /\
             tmpvecUnsafe a m r (nveccol_ m) = Ret (v + 3)).
Proof.
  intros Hl Hrow Hcol Hvc r lane read.
  destruct (layout_facts m row Hl Hrow) as (HSpos & Hmod & Hlane & Hdm).
  split; [|split].
  - exists (vector_at (nvecrow_ m) col r 0).
    assert ((col <? nveccol_ m) = true) as Hok by (apply Z.ltb_lt; lia).
    assert ((col <=? nveccol_ m) = true) as Hok' by (apply Z.leb_le; lia).
    assert (forall s, vector_at (nvecrow_ m) col r 0 + s = vector_at (nvecrow_ m) col r s)
      as Hv by (intros s; unfold vector_at; lia).
    unfold evec, fvec, hvec, tmpvec, evecUnsafe, tmpvecUnsafe, eelt, felt, helt, read.
    rewrite !Hv.
    rewrite !(vec_at_layout a m _ r col) by (try assumption; unfold E, F, H, TMP; lia).
    rewrite !elt_layout by (try assumption; unfold E, F, H; lia).
    repeat (split; [reflexivity|]).
    destruct Hl as (Hin & Hw & Hnr & Hnc & HS & Hcs & Hrs & Hlen & Hsz & Hbytes).
    unfold vector_at. fold r. rewrite Hcs in Hlen. split; nia.
  - unfold evec, vec_at. fold r.
    destruct (Z.ltb_spec r (nvecrow_ m)); [|lia]. rewrite Z.ltb_irrefl. reflexivity.
  - destruct Hl as (Hin & _). unfold evecUnsafe, tmpvecUnsafe, vec_at, ptr. fold r.
    destruct (Z.ltb_spec r (nvecrow_ m)); [|lia].
    rewrite Z.leb_refl, Hin, !assert_holds. cbn [mbind outcome_bind mret outcome_ret].
    eexists. split; [reflexivity|]. unfold E, TMP. f_equal. lia.
Qed.

Lemma vector_accessors_agree_witness :
  let r := 2 mod nvecrow_ demo_matrix in
  let lane := 2 / nvecrow_ demo_matrix in
  let read v := read_word (bufal_ demo_matrix) (wperv_ demo_matrix)
                  (lane_byte (wperv_ demo_matrix) v lane) in
  (exists v,
     evec true demo_matrix r 1 = Ret v /\ fvec true demo_matrix r 1 = Ret (v + 1) /\
     hvec true demo_matrix r 1 = Ret (v + 2) /\ tmpvec true demo_matrix r 1 = Ret (v + 3) /\
     evecUnsafe true demo_matrix r 1 = Ret v /\
     tmpvecUnsafe true demo_matrix r 1 = Ret (v + 3) /\
     eelt true demo_matrix 2 1 = read v /\ felt true demo_matrix 2 1 = read (v + 1) /\
     helt true demo_matrix 2 1 = read (v + 2) /\
     0 <= v /\ 16 * (v + 4) <= Z.of_nat (length (bufal_ demo_matrix))) /\
  evec true demo_matrix r (nveccol_ demo_matrix) = Stop AssertionFailure /\
  (exists v, evecUnsafe true demo_matrix r (nveccol_ demo_matrix) = Ret v /\
             tmpvecUnsafe true demo_matrix r (nveccol_ demo_matrix) = Ret (v + 3)).
Proof.
  apply (vector_accessors_agree true demo_matrix 2 1);
    [exact demo_matrix_layout | simpl; lia | simpl; lia | simpl; lia].
Defined.

(** X15. In a matrix laid out by [init], the vectors the accessors address
    do not overlap: two calls of the accessors ([evec], [fvec], [hvec],
    [tmpvec] and the two unsafe variants, whose common body is [vec_at])
    for vector rows below [nvecrow_], columns below [ncol_] and quartet
    slots return the same vector only for the same row, column and slot. *)
Theorem vectors_do_not_alias a m ok ok' row col slot row' col' slot' v :
  init_layout m ->
  0 <= row < nvecrow_ m -> 0 <= col < ncol_ m -> 0 <= slot < 4 ->
  0 <= row' < nvecrow_ m -> 0 <= col' < ncol_ m -> 0 <= slot' < 4 ->
  vec_at a m ok row col slot = Ret v -> vec_at a m ok' row' col' slot' = Ret v ->
  row = row' /\ col = col' /\ slot = slot'.
Proof.
  intros Hl Hrow Hcol Hslot Hrow' Hcol' Hslot' Hv Hv'.
  assert (forall o r c s, 0 <= r < nvecrow_ m -> 0 <= c < ncol_ m -> 0 <= s < 4 ->
            vec_at a m o r c s = Ret v -> v = vector_at (nvecrow_ m) c r s) as Hval.
  { intros o r c s Hr Hc Hs Hret.
    destruct Hl as (Hin & Hw & Hnr & Hnc & HS & Hcs & Hrs & Hlen & Hsz & Hbytes).
    unfold vec_at in Hret. apply bind_Ret in Hret as (_ & _ & Hret).
    apply bind_Ret in Hret as (_ & _ & Hret).
    apply bind_Ret in Hret as (p & Hp & Hret).
    unfold ptr in Hp. apply bind_Ret in Hp as (_ & _ & Hp). injection Hp as <-.
    injection Hret as <-. unfold rowstride, colstride, vector_at. rewrite Hcs, Hrs.
    rewrite (usz_small (r * 4)) by nia.
    rewrite (usz_small (c * (nvecrow_ m * 4))) by nia. lia. }
  apply Hval in Hv; [|assumption ..]. apply Hval in Hv'; [|assumption ..].
  unfold vector_at in Hv, Hv'. set (S := nvecrow_ m) in *.
  rewrite (Z.mul_assoc col S 4) in Hv. rewrite (Z.mul_assoc col' S 4) in Hv'.
  assert (col * S + row = col' * S + row' /\ slot = slot') as [Heq Hs] by lia.
  assert (col = col') as Hc by nia.
  split; [|split; [exact Hc | exact Hs]]. subst col'. lia.
Qed.

Lemma vectors_do_not_alias_witness :
  0 = 0 /\ 1 = 1 /\ 2 = 2.
Proof.
  apply (vectors_do_not_alias true demo_matrix true true 0 1 2 0 1 2 6);
    [exact demo_matrix_layout | simpl; lia | simpl; lia | lia | simpl; lia
     | simpl; lia | lia | reflexivity | reflexivity].
Defined.

(** X16. [eltptr] against [elt], in a matrix laid out by [init] and for a
    cell of the matrix: [elt] reads the word that starts [(16 / wperv_) *
    lane] bytes into the cell's vector, [lane] being [row / nvecrow_];
    [eltptr] returns the address [lane] whole vectors (16 bytes each)
    further than that vector, since it adds [rowelt] to a [__m128i*]. The
    two coincide exactly for the rows below [nvecrow_], those in lane 0. *)
Theorem eltptr_vs_elt a m row col mat :
  init_layout m -> 0 <= row < nrow_ m -> 0 <= col < ncol_ m -> 0 <= mat < 3 ->
  let lane := row / nvecrow_ m in
  let v := vector_at (nvecrow_ m) col (row mod nvecrow_ m) mat in
  elt a m row col mat
    = read_word (bufal_ m) (wperv_ m) (lane_byte (wperv_ m) v lane) /\
  eltptr a m row col mat = Ret (16 * (v + lane)) /\
  (16 * (v + lane) = lane_byte (wperv_ m) v lane <-> row < nvecrow_ m).
Proof.
  intros Hl Hrow Hcol Hmat lane v.
  split; [apply elt_layout; assumption|].
  destruct (layout_facts m row Hl Hrow) as (HSpos & Hmod & Hlane & Hdm).
  destruct Hl as (Hin & Hw & Hnr & Hnc & HS & Hcs & Hrs & Hlen & Hsz & Hbytes).
  split.
  - unfold eltptr, v, lane, vector_at.
    rewrite Hin, assert_holds. cbn [mbind outcome_bind].
    destruct (Z.ltb_spec row (nrow_ m)); [|lia]. rewrite assert_holds.
    cbn [mbind outcome_bind].
    destruct (Z.ltb_spec col (ncol_ m)); [|lia]. rewrite assert_holds.
    cbn [mbind outcome_bind].
    destruct (Z.ltb_spec mat 3); [|lia]. rewrite assert_holds. cbn [mbind outcome_bind].
    destruct (Z.eqb_spec (nvecrow_ m) 0); [lia|].
    rewrite Hcs, Hrs. set (S := nvecrow_ m) in *. cbv zeta.
    rewrite (usz_small (col * (S * 4))) by nia.
    rewrite (usz_small (row mod S * 4)) by nia.
    rewrite (usz_small (col * (S * 4) + row mod S * 4)) by nia.
    rewrite (usz_small (col * (S * 4) + row mod S * 4 + mat)) by nia.
    reflexivity.
  - unfold lane_byte. fold lane in Hlane, Hdm.
    assert (16 / wperv_ m = 1 \/ 16 / wperv_ m = 2) as Hwidth
      by (destruct Hw as [-> | ->]; [left | right]; reflexivity).
    split.
    + intros Heq.
      assert (lane = 0) as Hz by (destruct Hwidth as [Hd | Hd]; rewrite Hd in Heq; lia).
      rewrite Hz in Hdm. lia.
    + intros Hlt. assert (lane = 0) as Hz by (unfold lane; apply Z.div_small; lia).
      rewrite Hz. lia.
Qed.

Lemma eltptr_vs_elt_witness :
  let lane := 2 / nvecrow_ demo_matrix in
  let v := vector_at (nvecrow_ demo_matrix) 1 (2 mod nvecrow_ demo_matrix) H in
  elt true demo_matrix 2 1 H
    = read_word (bufal_ demo_matrix) (wperv_ demo_matrix)
        (lane_byte (wperv_ demo_matrix) v lane) /\
  eltptr true demo_matrix 2 1 H = Ret (16 * (v + lane)) /\
  (16 * (v + lane) = lane_byte (wperv_ demo_matrix) v lane <-> 2 < nvecrow_ demo_matrix).
Proof.
  apply (eltptr_vs_elt true demo_matrix 2 1 H);
    [exact demo_matrix_layout | simpl; lia | simpl; lia | unfold H; lia].
Defined.

(** ** The gap bounds of [scoring.cpp] *)

(** X17. [maxReadGaps] and [maxRefGaps] outside their precondition, that is
    when the all-match score, as the code computes it, is below [minsc]: a
    build with assertions stops at [assert_geq(sc, minsc)]; a build without
    them does not enter the loop and returns -1. *)
Theorem gap_bounds_precondition sc minsc rdlen fuel :
  s64 (usz (rdlen * usz (match_ sc))) < minsc ->
  maxReadGaps true fuel sc minsc rdlen = Stop AssertionFailure /\
  maxRefGaps true fuel sc minsc rdlen = Stop AssertionFailure /\
  maxReadGaps false (S fuel) sc minsc rdlen = Ret (-1) /\
  maxRefGaps false (S fuel) sc minsc rdlen = Ret (-1).
Proof.
  intros Hlt. unfold maxReadGaps, maxRefGaps. cbv zeta.
  destruct (Z.leb_spec minsc (s64 (usz (rdlen * usz (match_ sc))))) as [|_]; [lia|].
  repeat split; try reflexivity.
  - cbn [assert_ andb negb mbind outcome_bind maxReadGaps_loop].
    destruct (Z.leb_spec minsc (s64 (usz (rdlen * usz (match_ sc))))) as [|_]; [lia|].
    reflexivity.
  - cbn [assert_ andb negb mbind outcome_bind maxRefGaps_loop].
    destruct (Z.leb_spec minsc (s64 (usz (rdlen * usz (match_ sc))))) as [|_]; [lia|].
    reflexivity.
Qed.

Lemma gap_bounds_precondition_witness :
  maxReadGaps true 5 bwaSwLike 11 10 = Stop AssertionFailure /\
  maxRefGaps true 5 bwaSwLike 11 10 = Stop AssertionFailure /\
  maxReadGaps false 6 bwaSwLike 11 10 = Ret (-1) /\
  maxRefGaps false 6 bwaSwLike 11 10 = Ret (-1).
Proof.
  apply (gap_bounds_precondition bwaSwLike 11 10 5). apply Z.ltb_lt. reflexivity.
Defined.

Lemma gap_bound_nonneg start loss open_ extend minsc :
  0 < loss + extend -> 0 <= gap_bound start loss open_ extend minsc.
Proof.
  intros Hc. unfold gap_bound. destruct (Z.ltb_spec (start - loss - open_) minsc); [lia|].
  pose proof (Z.div_pos (start - loss - open_ - minsc) (loss + extend)). lia.
Qed.

(** The count at the boundary is the closed form. *)
Lemma gap_boundary_closed start loss open_ extend minsc k :
  0 < loss + extend -> minsc <= start -> 0 <= k ->
  minsc <= gapped_score start loss open_ extend k ->
  gapped_score start loss open_ extend (k + 1) < minsc ->
  k = gap_bound start loss open_ extend minsc.
Proof.
  intros Hc Hstart Hk Hfeas Hinf. unfold gap_bound, gapped_score in *.
  destruct (Z.leb_spec (k + 1) 0); [lia|].
  destruct (Z.leb_spec k 0).
  - assert (k = 0) as -> by lia.
    destruct (Z.ltb_spec (start - loss - open_) minsc); lia.
  - destruct (Z.ltb_spec (start - loss - open_) minsc); [nia|].
    assert ((start - loss - open_ - minsc) / (loss + extend) = k - 1); [|lia].
    symmetry. apply (Z.div_unique_pos _ _ _
      (start - loss - open_ - minsc - (loss + extend) * (k - 1))); nia.
Qed.

Lemma gap_loop_closed loss open_ extend minsc start :
  0 <= loss -> 0 <= open_ -> 0 <= extend -> 0 < loss + extend ->
  minsc <= start ->
  gap_bound start loss open_ extend minsc <= start - minsc + 1 /\
  forall fuel : nat, (Z.to_nat (start - minsc + 1) + 2 <= fuel)%nat ->
    gap_loop fuel loss open_ extend minsc start true 0
    = Some (gap_bound start loss open_ extend minsc + 1).
Proof.
  intros Hl Ho He Hc Hstart.
  destruct (gap_loop_result loss open_ extend minsc start Hl Ho He Hc Hstart)
    as (k & Hk & Hkb & Hfeas & Hinf & Hloop).
  rewrite <- (gap_boundary_closed start loss open_ extend minsc k) by assumption.
  split; [exact Hkb | exact Hloop].
Qed.

Lemma maxReadGaps_value a sc minsc rdlen k fuel :
  0 <= match_ sc -> 0 <= readGapOpen sc -> 0 <= readGapExtend sc ->
  0 <= rdlen -> minsc <= rdlen * match_ sc -> rdlen * match_ sc < 2 ^ 63 ->
  - 2 ^ 63 + match_ sc + readGapOpen sc + readGapExtend sc <= minsc ->
  0 <= k -> k + 1 < 2 ^ 31 ->
  gap_loop fuel (match_ sc) (readGapOpen sc) (readGapExtend sc) minsc
    (rdlen * match_ sc) true 0 = Some (k + 1) ->
  maxReadGaps a fuel sc minsc rdlen = Ret k.
Proof.
  intros Hm Ho He Hlen Hpre Hs Hmin Hk Hk31 Hloop. unfold maxReadGaps.
  assert (match_ sc <= rdlen * match_ sc \/ rdlen = 0) as Hmr by nia.
  rewrite (usz_small (match_ sc)) by (destruct Hmr; [lia | subst; lia]).
  rewrite (usz_small (rdlen * match_ sc)) by nia.
  rewrite (s64_small (rdlen * match_ sc)) by nia.
  destruct (Z.leb_spec minsc (rdlen * match_ sc)); [|lia].
  rewrite assert_holds. simpl.
  rewrite (maxReadGaps_loop_refines sc minsc Hm Ho He Hmin fuel _ _ _ (k + 1));
    [| lia | lia | lia | auto].
  simpl. destruct (Z.ltb_spec 0 (k + 1)); [|lia].
  rewrite assert_holds. simpl. replace (k + 1 - 1) with k by lia.
  rewrite s32_small by lia. reflexivity.
Qed.

Lemma maxRefGaps_value a sc minsc rdlen k fuel :
  0 <= match_ sc < 2 ^ 31 -> 0 <= refGapOpen sc -> 0 <= refGapExtend sc ->
  0 <= rdlen -> minsc <= rdlen * match_ sc -> rdlen * match_ sc < 2 ^ 63 ->
  - 2 ^ 63 + refGapOpen sc + refGapExtend sc <= minsc ->
  0 <= k -> k + 1 < 2 ^ 31 ->
  gap_loop fuel 0 (refGapOpen sc) (refGapExtend sc) minsc
    (rdlen * match_ sc) true 0 = Some (k + 1) ->
  maxRefGaps a fuel sc minsc rdlen = Ret k.
Proof.
  intros Hm Ho He Hlen Hpre Hs Hmin Hk Hk31 Hloop. unfold maxRefGaps.
  rewrite (usz_small (match_ sc)) by lia.
  rewrite (usz_small (rdlen * match_ sc)) by nia.
  rewrite (s64_small (rdlen * match_ sc)) by nia.
  destruct (Z.leb_spec minsc (rdlen * match_ sc)); [|lia].
  rewrite assert_holds. simpl.
  rewrite (maxRefGaps_loop_refines sc minsc Ho He Hmin fuel _ _ _ (k + 1));
    [| lia | lia | lia | auto].
  simpl. destruct (Z.ltb_spec 0 (k + 1)); [|lia].
  rewrite assert_holds. simpl. replace (k + 1 - 1) with k by lia.
  rewrite s32_small by lia. reflexivity.
Qed.

(** X18. [maxReadGaps] in closed form. Under its precondition, with
    non-negative match bonus and read-gap costs, a positive cost
    [match + readGapExtend] of a further gap, and arguments that keep the
    [int64_t] score and the [int] counter in range, the call returns 0 when
    [rdlen * match - match - readGapOpen < minsc] and otherwise
    [(rdlen * match - match - readGapOpen - minsc) / (match + readGapExtend)
    + 1]. *)
Theorem maxReadGaps_closed_form a sc minsc rdlen :
  0 <= match_ sc -> 0 <= readGapOpen sc -> 0 <= readGapExtend sc ->
  0 < match_ sc + readGapExtend sc ->
  0 <= rdlen ->
  minsc <= rdlen * match_ sc ->
  rdlen * match_ sc < 2 ^ 63 ->
  - 2 ^ 63 + match_ sc + readGapOpen sc + readGapExtend sc <= minsc ->
  rdlen * match_ sc - minsc < 2 ^ 31 - 2 ->
  exists fuel0 : nat, forall fuel : nat, (fuel0 <= fuel)%nat ->
    maxReadGaps a fuel sc minsc rdlen
    = Ret (gap_bound (rdlen * match_ sc) (match_ sc) (readGapOpen sc)
             (readGapExtend sc) minsc).
Proof.
  intros Hm Ho He Hc Hlen Hpre Hs Hmin Hcnt.
  destruct (gap_loop_closed (match_ sc) (readGapOpen sc) (readGapExtend sc) minsc
              (rdlen * match_ sc) Hm Ho He Hc Hpre) as [Hb Hloop].
  exists (Z.to_nat (rdlen * match_ sc - minsc + 1) + 2)%nat. intros fuel Hf.
  pose proof (gap_bound_nonneg (rdlen * match_ sc) (match_ sc) (readGapOpen sc)
                (readGapExtend sc) minsc Hc).
  apply maxReadGaps_value; try assumption; try lia. apply Hloop. exact Hf.
Qed.

Lemma maxReadGaps_closed_form_witness :
  exists fuel0 : nat, forall fuel : nat, (fuel0 <= fuel)%nat ->
    maxReadGaps true fuel scoring_case2 0 14
    = Ret (gap_bound (14 * match_ scoring_case2) (match_ scoring_case2)
             (readGapOpen scoring_case2) (readGapExtend scoring_case2) 0).
Proof.
  apply (maxReadGaps_closed_form true scoring_case2 0 14); simpl; lia.
Defined.

(** X19. [maxRefGaps] in closed form. Under its precondition, with
    non-negative costs, a positive [refGapExtend], and arguments that keep
    the [int64_t] score and the [int] counter in range, the call returns 0
    when [rdlen * match - refGapOpen < minsc] and otherwise
    [(rdlen * match - refGapOpen - minsc) / refGapExtend + 1]: the match
    bonus enters only through the all-match score. *)
Theorem maxRefGaps_closed_form a sc minsc rdlen :
  0 <= match_ sc < 2 ^ 31 -> 0 <= refGapOpen sc -> 0 < refGapExtend sc ->
  0 <= rdlen ->
  minsc <= rdlen * match_ sc ->
  rdlen * match_ sc < 2 ^ 63 ->
  - 2 ^ 63 + refGapOpen sc + refGapExtend sc <= minsc ->
  rdlen * match_ sc - minsc < 2 ^ 31 - 2 ->
  exists fuel0 : nat, forall fuel : nat, (fuel0 <= fuel)%nat ->
    maxRefGaps a fuel sc minsc rdlen
    = Ret (gap_bound (rdlen * match_ sc) 0 (refGapOpen sc) (refGapExtend sc) minsc).
Proof.
  intros Hm Ho He Hlen Hpre Hs Hmin Hcnt.
  destruct (gap_loop_closed 0 (refGapOpen sc) (refGapExtend sc) minsc
              (rdlen * match_ sc) ltac:(lia) Ho ltac:(lia) ltac:(lia) Hpre) as [Hb Hloop].
  exists (Z.to_nat (rdlen * match_ sc - minsc + 1) + 2)%nat. intros fuel Hf.
  pose proof (gap_bound_nonneg (rdlen * match_ sc) 0 (refGapOpen sc)
                (refGapExtend sc) minsc ltac:(lia)).
  apply maxRefGaps_value; try assumption; try lia. apply Hloop. exact Hf.
Qed.

Lemma maxRefGaps_closed_form_witness :
  exists fuel0 : nat, forall fuel : nat, (fuel0 <= fuel)%nat ->
    maxRefGaps true fuel scoring_case2 0 14
    = Ret (gap_bound (14 * match_ scoring_case2) 0
             (refGapOpen scoring_case2) (refGapExtend scoring_case2) 0).
Proof.
  apply (maxRefGaps_closed_form true scoring_case2 0 14); simpl; lia.
Defined.

Lemma gap_bound_le start loss open_ extend open' extend' minsc :
  0 <= loss -> 0 < extend' -> extend' <= extend -> open' <= open_ ->
  gap_bound start loss open_ extend minsc <= gap_bound start 0 open' extend' minsc.
Proof.
  intros Hl He Hee Hoo. unfold gap_bound.
  destruct (Z.ltb_spec (start - loss - open_) minsc).
  - destruct (Z.ltb_spec (start - 0 - open') minsc); [lia|].
    pose proof (Z.div_pos (start - 0 - open' - minsc) (0 + extend')). lia.
  - destruct (Z.ltb_spec (start - 0 - open') minsc); [lia|].
    apply Z.add_le_mono_r.
    transitivity ((start - loss - open_ - minsc) / (0 + extend')).
    + apply Z.div_le_compat_l; lia.
    + apply Z.div_le_mono; lia.
Qed.

(** X20. The two bounds compared: when a read gap costs at least what a
    reference gap costs (open and extension), [maxReadGaps] never returns
    more than [maxRefGaps] for the same floor and read length. *)
Theorem maxReadGaps_le_maxRefGaps a sc minsc rdlen :
  0 <= match_ sc < 2 ^ 31 -> 0 <= refGapOpen sc -> 0 < refGapExtend sc ->
  refGapOpen sc <= readGapOpen sc -> refGapExtend sc <= readGapExtend sc ->
  0 <= rdlen ->
  minsc <= rdlen * match_ sc ->
  rdlen * match_ sc < 2 ^ 63 ->
  - 2 ^ 63 + match_ sc + readGapOpen sc + readGapExtend sc <= minsc ->
  rdlen * match_ sc - minsc < 2 ^ 31 - 2 ->
  exists kread kref, kread <= kref /\
    exists fuel0 : nat, forall fuel : nat, (fuel0 <= fuel)%nat ->
      maxReadGaps a fuel sc minsc rdlen = Ret kread /\
      maxRefGaps a fuel sc minsc rdlen = Ret kref.
Proof.
  intros Hm Ho He Hoo Hee Hlen Hpre Hs Hmin Hcnt.
  exists (gap_bound (rdlen * match_ sc) (match_ sc) (readGapOpen sc)
            (readGapExtend sc) minsc),
         (gap_bound (rdlen * match_ sc) 0 (refGapOpen sc) (refGapExtend sc) minsc).
  split; [apply gap_bound_le; lia|].
  destruct (gap_loop_closed (match_ sc) (readGapOpen sc) (readGapExtend sc) minsc
              (rdlen * match_ sc) ltac:(lia) ltac:(lia) ltac:(lia) ltac:(lia) Hpre)
    as [Hb Hloop].
  destruct (gap_loop_closed 0 (refGapOpen sc) (refGapExtend sc) minsc
              (rdlen * match_ sc) ltac:(lia) Ho ltac:(lia) ltac:(lia) Hpre)
    as [Hb' Hloop'].
  pose proof (gap_bound_nonneg (rdlen * match_ sc) (match_ sc) (readGapOpen sc)
                (readGapExtend sc) minsc ltac:(lia)).
  pose proof (gap_bound_nonneg (rdlen * match_ sc) 0 (refGapOpen sc)
                (refGapExtend sc) minsc ltac:(lia)).
  exists (Z.to_nat (rdlen * match_ sc - minsc + 1) + 2)%nat. intros fuel Hf. split.
  - apply maxReadGaps_value; try assumption; try lia. apply Hloop. exact Hf.
  - apply maxRefGaps_value; try assumption; try lia. apply Hloop'. exact Hf.
Qed.

Lemma maxReadGaps_le_maxRefGaps_witness :
  exists kread kref, kread <= kref /\
    exists fuel0 : nat, forall fuel : nat, (fuel0 <= fuel)%nat ->
      maxReadGaps true fuel scoring_case2 0 14 = Ret kread /\
      maxRefGaps true fuel scoring_case2 0 14 = Ret kref.
Proof.
  apply (maxReadGaps_le_maxRefGaps true scoring_case2 0 14); simpl; lia.
Defined.

(** ** The N filters of [scoring.cpp] *)

Lemma f32_ltb_unbounded x y : f32_unbounded x = true -> f32_ltb x y = false.
Proof.
  destruct x as [| [] | |]; try discriminate; intros _;
    destruct y as [| [] | |]; reflexivity.
Qed.

Lemma nFilter_loop_unbounded maxns : f32_unbounded maxns = true ->
  forall rd ns, nFilter_loop maxns rd ns = true.
Proof.
  intros Hu. induction rd as [|c rd IH]; intros ns; [reflexivity|].
  simpl. destruct (c =? 4); [|apply IH].
  rewrite f32_ltb_unbounded by exact Hu. apply IH.
Qed.

Lemma nFilterPair_loop_unbounded maxns : f32_unbounded maxns = true ->
  forall rd ns, exists ns', nFilterPair_loop maxns rd ns = Some ns'.
Proof.
  intros Hu. induction rd as [|c rd IH]; intros ns; [simpl; eauto|].
  cbn [nFilterPair_loop]. rewrite f32_ltb_unbounded by exact Hu. apply IH.
Qed.

Lemma nFilter_loop_zero_ceiling rd :
  nFilter_loop f32_zero rd f32_zero = (countN rd =? 0).
Proof.
  induction rd as [|c rd IH]; [reflexivity|].
  cbn [nFilter_loop countN]. destruct (c =? 4).
  - change (f32_ltb f32_zero (f32_add f32_zero f32_one)) with true. cbv iota.
    pose proof (countN_nonneg rd). symmetry. apply Z.eqb_neq. lia.
  - rewrite IH. reflexivity.
Qed.

(** X21. [nFilter] and [nFilterPair] when the ceiling computed in [float]
    is not a finite number. A NaN or plus infinity is not below 0 and no
    count is above it: [nFilter] passes every non-empty read, and with
    [ncatpair] [nFilterPair] passes every pair, whatever the number of Ns.
    Minus infinity is below 0, so [nFilter] replaces it by 0 and passes
    exactly the reads without Ns. *)
Theorem nonfinite_ceiling a sc (rd r2 : BTDnaString) :
  rd <> [] ->
  (f32_unbounded (nCeil_f32 sc (Z.of_nat (length rd))) = true ->
   nFilter a sc rd = Ret true) /\
  (nCeil_f32 sc (Z.of_nat (length rd)) = S754_infinity true ->
   nFilter a sc rd = Ret (countN rd =? 0)) /\
  (ncatpair sc = true ->
   f32_unbounded (nCeil_f32 sc (usz (Z.of_nat (length rd) + Z.of_nat (length r2)))) = true ->
   nFilterPair a sc (Some rd) (Some r2) = Ret (true, true)).
Proof.
  intros Hne.
  assert ((0 <? Z.of_nat (length rd)) = true) as Hlen
    by (apply Z.ltb_lt; destruct rd; [done | simpl; lia]).
  split; [|split].
  - intros Hu. unfold nFilter. fold (nCeil_f32 sc (Z.of_nat (length rd))).
    rewrite Hlen, assert_holds. cbn [mbind outcome_bind mret outcome_ret].
    rewrite (f32_ltb_unbounded _ _ Hu).
    rewrite nFilter_loop_unbounded by exact Hu. reflexivity.
  - intros Hinf. unfold nFilter. fold (nCeil_f32 sc (Z.of_nat (length rd))).
    rewrite Hlen, assert_holds, Hinf. cbn [mbind outcome_bind mret outcome_ret].
    change (f32_ltb (S754_infinity true) f32_zero) with true. cbv iota.
    rewrite nFilter_loop_zero_ceiling. reflexivity.
  - intros Hcat Hu. unfold nFilterPair. rewrite Hcat.
    fold (nCeil_f32 sc (usz (Z.of_nat (length rd) + Z.of_nat (length r2)))).
    destruct (nFilterPair_loop_unbounded _ Hu rd 0) as [ns ->].
    destruct (nFilterPair_loop_unbounded _ Hu r2 ns) as [ns' ->]. reflexivity.
Qed.

Lemma nonfinite_ceiling_witness :
  (f32_unbounded (nCeil_f32 scoring_no_ceiling (Z.of_nat (length [4; 4; 4]))) = true ->
   nFilter true scoring_no_ceiling [4; 4; 4] = Ret true) /\
  (nCeil_f32 scoring_no_ceiling (Z.of_nat (length [4; 4; 4])) = S754_infinity true ->
   nFilter true scoring_no_ceiling [4; 4; 4] = Ret (countN [4; 4; 4] =? 0)) /\
  (ncatpair scoring_no_ceiling = true ->
   f32_unbounded (nCeil_f32 scoring_no_ceiling
                    (usz (Z.of_nat (length [4; 4; 4]) + Z.of_nat (length [4; 4])))) = true ->
   nFilterPair true scoring_no_ceiling (Some [4; 4; 4]) (Some [4; 4]) = Ret (true, true)).
Proof.
  apply (nonfinite_ceiling true scoring_no_ceiling [4; 4; 4] [4; 4]). discriminate.
Defined.

(** The unbounded ceiling is reached: with [nCeilConst] plus infinity, a read
    of three Ns passes. *)
Example nFilter_no_ceiling :
  f32_unbounded (nCeil_f32 scoring_no_ceiling 3) = true /\
  nFilter true scoring_no_ceiling [4; 4; 4] = Ret true /\
  nFilterPair true scoring_no_ceiling (Some [4; 4; 4]) (Some [4; 4]) = Ret (true, true).
Proof. repeat split; reflexivity. Qed.

(** The verdict of the [ncatpair] case. *)
Lemma nFilterPair_cat_value a sc (r1 r2 : BTDnaString) :
  ncatpair sc = true ->
  Z.of_nat (length r1) + Z.of_nat (length r2) < 2 ^ 24 ->
  f32_finite (nCeil_f32 sc (Z.of_nat (length r1) + Z.of_nat (length r2))) = true ->
  let b := match r1 ++ r2 with
           | [] => true
           | _ => countN (r1 ++ r2)
                  <=? f32_floor (nCeil_f32 sc (Z.of_nat (length r1) + Z.of_nat (length r2)))
           end in
  nFilterPair a sc (Some r1) (Some r2) = Ret (b, b).
Proof.
  intros Hcat Hlen Hfin b. subst b.
  set (limit := f32_floor (nCeil_f32 sc (Z.of_nat (length r1) + Z.of_nat (length r2)))).
  unfold nFilterPair. rewrite Hcat.
  rewrite (usz_small (Z.of_nat (length r1) + Z.of_nat (length r2))) by lia.
  fold (nCeil_f32 sc (Z.of_nat (length r1) + Z.of_nat (length r2))).
  set (maxns := nCeil_f32 sc (Z.of_nat (length r1) + Z.of_nat (length r2))) in *.
  pose proof (countN_nonneg r1) as Hc1. pose proof (countN_nonneg r2) as Hc2.
  assert (countN r1 <= Z.of_nat (length r1)) as Hcl.
  { clear. induction r1 as [|c r IH]; simpl countN; simpl length;
      [lia | destruct (c =? 4); lia]. }
  rewrite (nFilterPair_loop_count maxns Hfin r1 0) by lia.
  rewrite Z.add_0_l. rewrite countN_app. fold limit.
  destruct r1 as [|c1 r1'].
  - simpl app. simpl countN. rewrite Z.add_0_l.
    rewrite (nFilterPair_loop_count maxns Hfin r2 0) by (simpl in Hlen; lia).
    rewrite Z.add_0_l. fold limit.
    destruct r2 as [|c2 r2']; [reflexivity|].
    destruct (countN (c2 :: r2') <=? limit); reflexivity.
  - simpl app.
    destruct (Z.leb_spec (countN (c1 :: r1')) limit) as [Hok|Hex].
    + rewrite (nFilterPair_loop_count maxns Hfin r2 (countN (c1 :: r1'))) by lia.
      fold limit. destruct r2 as [|c2 r2'].
      * change (countN []) with 0. rewrite !Z.add_0_r. cbv iota.
        destruct (Z.leb_spec (countN (c1 :: r1')) limit); [reflexivity | lia].
      * destruct (countN (c1 :: r1') + countN (c2 :: r2') <=? limit); reflexivity.
    + destruct (Z.leb_spec (countN (c1 :: r1') + countN r2) limit); [lia | reflexivity].
Qed.

Lemma nFilter_outcomes a sc rd :
  nFilter a sc rd = Stop AssertionFailure \/ exists b, nFilter a sc rd = Ret b.
Proof.
  unfold nFilter. cbv zeta.
  destruct (assert_ a (0 <? Z.of_nat (length rd))) as [[]|f] eqn:Ha.
  - right. eexists. reflexivity.
  - left. unfold assert_ in Ha. destruct (a && negb (0 <? Z.of_nat (length rd)));
      [injection Ha as <-; reflexivity | discriminate].
Qed.

(** X22. [nFilterPair] treats the two mates alike: with the mates
    exchanged, the two verdicts are exchanged, and the call stops exactly
    when it stopped before. A null mate gets [false], and the other mate,
    if there is one, the verdict of [nFilter], with or without [ncatpair].
    (For two mates with [ncatpair], under the conditions of the combined
    filter: lengths that add up to less than [2^24] and a finite
    ceiling.) *)
Theorem nFilterPair_swap a sc (rd1 rd2 : option BTDnaString) :
  (forall r1 r2, rd1 = Some r1 -> rd2 = Some r2 -> ncatpair sc = true ->
     Z.of_nat (length r1) + Z.of_nat (length r2) < 2 ^ 24 /\
     f32_finite (nCeil_f32 sc (Z.of_nat (length r1) + Z.of_nat (length r2))) = true) ->
  nFilterPair a sc rd2 rd1
  = (p ← nFilterPair a sc rd1 rd2; mret (snd p, fst p)) /\
  nFilterPair a sc None rd2
  = (b ← match rd2 with Some r2 => nFilter a sc r2 | None => mret false end;
     mret (false, b)).
Proof.
  intros Hcat. split.
  - destruct rd1 as [r1|], rd2 as [r2|]; try destruct (ncatpair sc) eqn:Hc.
    + destruct (Hcat r1 r2 eq_refl eq_refl eq_refl) as [Hlen Hfin].
      rewrite (nFilterPair_cat_value a sc r1 r2 Hc Hlen Hfin).
      rewrite (nFilterPair_cat_value a sc r2 r1 Hc)
        by (rewrite (Z.add_comm (Z.of_nat (length r2))); assumption).
      cbn [mbind outcome_bind mret outcome_ret fst snd].
      rewrite (Z.add_comm (Z.of_nat (length r2))), !countN_app,
        (Z.add_comm (countN r2)).
      destruct r1, r2; reflexivity.
    + unfold nFilterPair. rewrite Hc.
      destruct (nFilter_outcomes a sc r1) as [-> | [b1 ->]],
               (nFilter_outcomes a sc r2) as [-> | [b2 ->]]; reflexivity.
    + unfold nFilterPair.
      destruct (nFilter_outcomes a sc r1) as [-> | [b1 ->]]; reflexivity.
    + unfold nFilterPair.
      destruct (nFilter_outcomes a sc r1) as [-> | [b1 ->]]; reflexivity.
    + unfold nFilterPair.
      destruct (nFilter_outcomes a sc r2) as [-> | [b2 ->]]; reflexivity.
    + unfold nFilterPair.
      destruct (nFilter_outcomes a sc r2) as [-> | [b2 ->]]; reflexivity.
    + reflexivity.
    + reflexivity.
  - unfold nFilterPair. destruct rd2 as [r2|]; reflexivity.
Qed.

Lemma nFilterPair_swap_witness :
  nFilterPair true scoring_case2 (Some [0; 4; 4; 4; 1]) (Some [4; 4; 4; 4; 0])
  = (p ← nFilterPair true scoring_case2 (Some [4; 4; 4; 4; 0]) (Some [0; 4; 4; 4; 1]);
     mret (snd p, fst p)) /\
  nFilterPair true scoring_case2 None (Some [0; 4; 4; 4; 1])
  = (b ← match Some [0; 4; 4; 4; 1] with
         | Some r2 => nFilter true scoring_case2 r2
         | None => mret false
         end;
     mret (false, b)).
Proof.
  apply (nFilterPair_swap true scoring_case2 (Some [4; 4; 4; 4; 0]) (Some [0; 4; 4; 4; 1])).
  intros r1 r2 [= <-] [= <-] _. split; [simpl; lia | reflexivity].
Defined.

Lemma nFilter_loop_noN maxns : forall rd ns,
  countN rd = 0 -> nFilter_loop maxns rd ns = true.
Proof.
  induction rd as [|c rd IH]; intros ns Hz; [reflexivity|].
  cbn [nFilter_loop countN] in *. pose proof (countN_nonneg rd).
  destruct (c =? 4); [lia|]. apply IH. lia.
Qed.

(** X23. A negative ceiling. In the [ncatpair] case [nFilterPair] compares
    the count with the ceiling as computed, without the replacement by 0
    that [nFilter] makes: when the combined ceiling is a finite number
    below 0, every pair of mates that are not both empty is rejected, Ns or
    no Ns. Without [ncatpair] each mate goes through [nFilter], and two
    non-empty mates without Ns pass whatever the ceilings are. *)
Theorem nFilterPair_negative_ceiling a sc (r1 r2 : BTDnaString) :
  r1 ++ r2 <> [] ->
  Z.of_nat (length r1) + Z.of_nat (length r2) < 2 ^ 24 ->
  f32_finite (nCeil_f32 sc (Z.of_nat (length r1) + Z.of_nat (length r2))) = true ->
  f32_floor (nCeil_f32 sc (Z.of_nat (length r1) + Z.of_nat (length r2))) < 0 ->
  (ncatpair sc = true -> nFilterPair a sc (Some r1) (Some r2) = Ret (false, false)) /\
  (ncatpair sc = false -> r1 <> [] -> r2 <> [] -> countN r1 = 0 -> countN r2 = 0 ->
   nFilterPair a sc (Some r1) (Some r2) = Ret (true, true)).
Proof.
  intros Hne Hlen Hfin Hneg. split.
  - intros Hcat. rewrite (nFilterPair_cat_value a sc r1 r2 Hcat Hlen Hfin).
    pose proof (countN_nonneg (r1 ++ r2)).
    destruct (r1 ++ r2) as [|c r]; [done|].
    destruct (Z.leb_spec (countN (c :: r))
                (f32_floor (nCeil_f32 sc (Z.of_nat (length r1) + Z.of_nat (length r2)))));
      [lia | reflexivity].
  - intros Hcat H1 H2 Hc1 Hc2. unfold nFilterPair. rewrite Hcat.
    assert (forall rd, rd <> [] -> countN rd = 0 -> nFilter a sc rd = Ret true) as Hpass.
    { intros rd Hrd Hc. unfold nFilter. cbv zeta.
      assert ((0 <? Z.of_nat (length rd)) = true) as ->
        by (apply Z.ltb_lt; destruct rd; [done | simpl; lia]).
      rewrite assert_holds. cbn [mbind outcome_bind mret outcome_ret].
      rewrite nFilter_loop_noN by exact Hc. reflexivity. }
    rewrite !Hpass by assumption. reflexivity.
Qed.

Lemma nFilterPair_negative_ceiling_witness :
  (ncatpair scoring_negative_ceiling = true ->
   nFilterPair true scoring_negative_ceiling (Some [0; 1]) (Some [2; 3])
   = Ret (false, false)) /\
  (ncatpair scoring_negative_ceiling = false -> [0; 1] <> [] -> [2; 3] <> [] ->
   countN [0; 1] = 0 -> countN [2; 3] = 0 ->
   nFilterPair true scoring_negative_ceiling (Some [0; 1]) (Some [2; 3])
   = Ret (true, true)).
Proof.
  apply (nFilterPair_negative_ceiling true scoring_negative_ceiling [0; 1] [2; 3]);
    [discriminate | simpl; lia | reflexivity | apply Z.ltb_lt; reflexivity].
Defined.

(** The two modes on the same mates without Ns, ceiling -1: rejected
    together, accepted one by one. *)
Example negative_ceiling_modes :
  nFilterPair true scoring_negative_ceiling (Some [0; 1]) (Some [2; 3])
    = Ret (false, false) /\
  nFilterPair true (mkScoring 1 5 15 4 15 4 (S754_finite true 8388608 (-23)) f32_zero false)
    (Some [0; 1]) (Some [2; 3]) = Ret (true, true) /\
  nFilter true scoring_negative_ceiling [0; 1] = Ret true.
Proof. repeat split; reflexivity. Qed.

(** Minus infinity as the ceiling: only reads without Ns pass. *)
Example nFilter_minus_infinity :
  let sc := mkScoring 1 5 15 4 15 4 (S754_infinity true) f32_zero false in
  nCeil_f32 sc 2 = S754_infinity true /\
  nFilter true sc [0; 1] = Ret true /\ nFilter true sc [0; 4] = Ret false.
Proof. repeat split; reflexivity. Qed.

(** ** struct SSEMetrics *)

Lemma u64_add_comm a b : u64 (a + b) = u64 (b + a).
Proof. rewrite Z.add_comm. reflexivity. Qed.

Lemma u64_add_assoc a b c : u64 (u64 (a + b) + c) = u64 (a + u64 (b + c)).
Proof.
  unfold u64. rewrite Zplus_mod_idemp_l, Zplus_mod_idemp_r, Z.add_assoc. reflexivity.
Qed.

Lemma u64_range a : 0 <= u64 a < 2 ^ 64.
Proof. unfold u64. apply Z.mod_pos_bound. lia. Qed.

Lemma u64_add_0 a : 0 <= a < 2 ^ 64 -> u64 (a + 0) = a.
Proof. intros Ha. unfold u64. rewrite Z.add_0_r. apply Z.mod_small. exact Ha. Qed.

(** X24. [SSEMetrics::merge] adds counter by counter in [uint64_t]: merging
    is commutative and associative, wrap-around included; the result holds
    [uint64_t] values; merging freshly reset (or cleared) metrics into
    metrics changes nothing, and merging metrics into freshly reset ones
    copies them. *)
Theorem SSEMetrics_merge_laws x y z :
  SSEMetrics_ok x ->
  SSEMetrics_merge x y = SSEMetrics_merge y x /\
  SSEMetrics_merge (SSEMetrics_merge x y) z = SSEMetrics_merge x (SSEMetrics_merge y z) /\
  SSEMetrics_ok (SSEMetrics_merge y z) /\
  SSEMetrics_merge x (SSEMetrics_reset y) = x /\
  SSEMetrics_merge (SSEMetrics_clear y) x = x.
Proof.
  intros Hx.
  assert (SSEMetrics_merge x (SSEMetrics_reset y) = x) as Hneutral.
  { destruct x. unfold SSEMetrics_ok in Hx. cbn [dp dpsat dpfail dpsucc col cell inner
      fixup gathcell gathsol bt btfail btsucc btcell] in Hx.
    repeat (apply Forall_cons in Hx as [? Hx]).
    unfold SSEMetrics_merge, SSEMetrics_reset.
    cbn [dp dpsat dpfail dpsucc col cell inner fixup gathcell gathsol bt btfail
         btsucc btcell].
    rewrite !u64_add_0 by assumption. reflexivity. }
  split; [|split; [|split; [|split]]].
  - unfold SSEMetrics_merge. f_equal; apply u64_add_comm.
  - unfold SSEMetrics_merge.
    cbn [dp dpsat dpfail dpsucc col cell inner fixup gathcell gathsol bt btfail
         btsucc btcell].
    f_equal; apply u64_add_assoc.
  - unfold SSEMetrics_ok, SSEMetrics_merge.
    cbn [dp dpsat dpfail dpsucc col cell inner fixup gathcell gathsol bt btfail
         btsucc btcell].
    repeat (apply Forall_cons; split; [apply u64_range|]). apply Forall_nil. done.
  - exact Hneutral.
  - unfold SSEMetrics_clear. rewrite <- Hneutral at 2.
    unfold SSEMetrics_merge. f_equal; apply u64_add_comm.
Qed.

Lemma SSEMetrics_merge_laws_witness :
  let x := mkSSEMetrics 1 2 3 4 5 6 7 8 9 10 11 12 13 (2 ^ 64 - 1) in
  let y := mkSSEMetrics 1 1 1 1 1 1 1 1 1 1 1 1 1 1 in
  let z := mkSSEMetrics 0 0 0 0 0 0 0 0 0 0 0 0 0 (2 ^ 64 - 1) in
  SSEMetrics_merge x y = SSEMetrics_merge y x /\
  SSEMetrics_merge (SSEMetrics_merge x y) z = SSEMetrics_merge x (SSEMetrics_merge y z) /\
  SSEMetrics_ok (SSEMetrics_merge y z) /\
  SSEMetrics_merge x (SSEMetrics_reset y) = x /\
  SSEMetrics_merge (SSEMetrics_clear y) x = x.
Proof.
  apply (SSEMetrics_merge_laws
           (mkSSEMetrics 1 2 3 4 5 6 7 8 9 10 11 12 13 (2 ^ 64 - 1))
           (mkSSEMetrics 1 1 1 1 1 1 1 1 1 1 1 1 1 1)
           (mkSSEMetrics 0 0 0 0 0 0 0 0 0 0 0 0 0 (2 ^ 64 - 1))).
  unfold SSEMetrics_ok. cbn [dp dpsat dpfail dpsucc col cell inner fixup gathcell
    gathsol bt btfail btsucc btcell].
  repeat (apply Forall_cons; split; [lia|]). apply Forall_nil. done.
Defined.

(** ** analyzeCell: an H cell with the diagonal and one gap alternative *)

(** With the diagonal alone stored, [hMaskSet(row, col, 0)] writes the word
    back as it was. *)
Lemma h_word_stale w :
  0 <= w < 2 ^ 16 -> Z.testbit w 1 = true -> hfield w = 16 -> h_word_set w 0 = w.
Proof.
  intros Hrange H1 Hf.
  apply (bits_eq_below 16); [apply updated_range | exact Hrange |].
  intros i Hi. unfold h_word_set. rewrite hset_bits by lia.
  assert (forall j, 0 <= j < 5 -> Z.testbit w (j + 2) = Z.testbit 16 j) as Hbits
    by (intros j Hj; rewrite <- hfield_bit, Hf by lia; reflexivity).
  assert (Z.testbit w 2 = false) as W2 by exact (Hbits 0 ltac:(lia)).
  assert (Z.testbit w 3 = false) as W3 by exact (Hbits 1 ltac:(lia)).
  assert (Z.testbit w 4 = false) as W4 by exact (Hbits 2 ltac:(lia)).
  assert (Z.testbit w 5 = false) as W5 by exact (Hbits 3 ltac:(lia)).
  assert (Z.testbit w 6 = true) as W6 by exact (Hbits 4 ltac:(lia)).
  bit16_cases i; rewrite ?H1, ?W2, ?W3, ?W4, ?W5, ?W6; decide_bits.
Qed.

Section DiagonalAndGap.
Context {RandomSource : Type}.
Variable nextU2 : RandomSource -> Z * RandomSource.
Variable randFromMask : RandomSource -> Z -> Z * RandomSource.
Variable score : Scoring -> Z -> Z -> Z -> Z.

(** The call on an H cell whose working mask has several alternatives, in a
    row where gaps are allowed. *)
Lemma h_cell_branch a m row col refc readc readq sc offsetsc floorsc
    (rand : RandomSource) o w sc_cur om mask opts sel rand' :
  0 < row ->
  mask_word m row col = Some w -> Z.testbit w 0 = false ->
  origMaskH a score m sc row col H refc readc readq offsetsc floorsc
    = Ret (sc_cur, om) ->
  0 < om ->
  mask = (if Z.testbit w 1 then hfield w else om) ->
  gapsAllowed m sc row = true ->
  0 <= mask < 32 -> at_ alts5 mask = Ret opts -> 1 < opts ->
  randFromMask rand mask = (sel, rand') -> 0 <= sel < 5 ->
  analyzeCell a nextU2 randFromMask score m row col H refc readc readq
    sc offsetsc floorsc rand o
  = Ret (set_word m row col
           (h_word_set w (Z.land mask (Z.lnot (s32 (Z.shiftl 1 sel))))),
         rand', found (h_transition sel) true).
Proof.
  intros Hrow Hw H0 Hom Hpos Hmask Hga Hrange Hopts Hmany Hsel Hselr.
  rewrite (h_cell_call nextU2 randFromMask score a m row col refc readc readq sc
             offsetsc floorsc rand o w sc_cur om Hrow Hw H0 Hom Hpos mask Hmask)
    by (rewrite Hga; reflexivity).
  unfold selectH. rewrite Hopts. out_step.
  destruct (Z.eqb_spec opts 1); [lia|]. destruct (Z.ltb_spec 1 opts); [|lia].
  rewrite Hsel.
  assert ((0 <=? mask) = true) as -> by (apply Z.leb_le; lia).
  rewrite assert_holds. out_step. rewrite Hga. cbn [orb]. rewrite assert_holds. out_step.
  assert (0 <= Z.land mask (Z.lnot (s32 (Z.shiftl 1 sel))) < 32) as Hm'.
  { rewrite Z.land_comm. change 32 with (2 ^ 5). apply land_bound_r; lia. }
  rewrite (hMaskSet_Ret a m row col _ w Hw) by lia. out_step.
  rewrite transitionH_found by exact Hselr. reflexivity.
Qed.

(** X25. An H cell below row 0, in a row where gaps are allowed, that is not
    reported through, whose mask has not been stored yet (bits 1 and 6 of
    its word are clear), and whose predecessors by the scores are the
    diagonal and one gap alternative [k] ([origMask] is [16 + 2^k],
    [k < 4]). The first call draws from [randFromMask].
    If the draw is the diagonal: the first call returns the diagonal and
    sets [branch], the second returns the transition of [k], and every
    later call finds the cell exhausted.
    If the draw is [k]: the first call returns the transition of [k] and
    sets [branch]; every later call returns the diagonal and leaves the
    matrix as it is, so the cell is never found exhausted: the stored
    diagonal bit is bit 6 of the word, which [hMaskSet] does not clear. *)
Theorem h_cell_diagonal_and_gap a m row col refc readc readq sc offsetsc floorsc
    (rand : RandomSource) o w sc_cur k sel rand1 :
  0 < row -> gapsAllowed m sc row = true ->
  mask_word m row col = Some w -> 0 <= w < 2 ^ 16 ->
  Z.testbit w 0 = false -> Z.testbit w 1 = false -> Z.testbit w 6 = false ->
  0 <= k < 4 ->
  origMaskH a score m sc row col H refc readc readq offsetsc floorsc
    = Ret (sc_cur, 16 + Z.shiftl 1 k) ->
  randFromMask rand (16 + Z.shiftl 1 k) = (sel, rand1) ->
  (sel = 4 ->
   exists m1 m2,
     analyzeCell a nextU2 randFromMask score m row col H refc readc readq
       sc offsetsc floorsc rand o
     = Ret (m1, rand1, found SW_BT_OALL_DIAG true) /\
     (forall (rand2 : RandomSource) o2,
        analyzeCell a nextU2 randFromMask score m1 row col H refc readc readq
          sc offsetsc floorsc rand2 o2
        = Ret (m2, rand2, found (h_transition k) (branch o2))) /\
     (forall (rand3 : RandomSource) o3,
        analyzeCell a nextU2 randFromMask score m2 row col H refc readc readq
          sc offsetsc floorsc rand3 o3
        = Ret (m2, rand3, exhausted o3))) /\
  (sel = k ->
   exists m1,
     analyzeCell a nextU2 randFromMask score m row col H refc readc readq
       sc offsetsc floorsc rand o
     = Ret (m1, rand1, found (h_transition k) true) /\
     forall (rand2 : RandomSource) o2,
       analyzeCell a nextU2 randFromMask score m1 row col H refc readc readq
         sc offsetsc floorsc rand2 o2
       = Ret (m1, rand2, found SW_BT_OALL_DIAG (branch o2))).
Proof.
  intros Hrow Hga Hw Hrange H0 H1 H6 Hk Hom Hsel.
  set (om := 16 + Z.shiftl 1 k) in *.
  assert (0 < om /\ 0 <= om < 32 /\ at_ alts5 om = Ret 2) as (Hpos & Hor & Halts)
    by (unfold om;
        assert (k = 0 \/ k = 1 \/ k = 2 \/ k = 3) as [->|[->|[-> | ->]]] by lia;
        repeat split; (reflexivity || apply Z.leb_le; reflexivity ||
                       apply Z.ltb_lt; reflexivity)).
  assert (Z.land om (Z.lnot (s32 (Z.shiftl 1 4))) = Z.shiftl 1 k /\
          Z.land om (Z.lnot (s32 (Z.shiftl 1 k))) = 16) as [Hrem4 Hremk]
    by (unfold om;
        assert (k = 0 \/ k = 1 \/ k = 2 \/ k = 3) as [->|[->|[-> | ->]]] by lia;
        split; reflexivity).
  assert (forall x, 0 <= x < 32 ->
            Z.testbit (h_word_set w x) 0 = false /\
            Z.testbit (h_word_set w x) 1 = true /\ hfield (h_word_set w x) = x) as Hset.
  { intros x Hx. destruct (h_word_set_facts w x Hx) as (Hb0 & Hb1 & Hf).
    rewrite stale_bit_clear, Z.lor_0_r in Hf by exact H6.
    split; [congruence | auto]. }
  split.
  - intros ->.
    destruct (Hset (Z.shiftl 1 k)) as (Hb0 & Hb1 & Hf).
    { rewrite Z.shiftl_1_l. split; [apply Z.pow_nonneg; lia|].
      change 32 with (2 ^ 5). apply Z.pow_lt_mono_r; lia. }
    set (w1 := h_word_set w (Z.shiftl 1 k)) in *.
    assert (Z.testbit w1 6 = false) as Hw16.
    { change 6 with (4 + 2).
      rewrite <- (hfield_bit w1 4), Hf, Z.shiftl_1_l, Z.pow2_bits_eqb by lia.
      apply Z.eqb_neq. lia. }
    destruct (h_word_set_facts w1 0 ltac:(lia)) as (Hc0 & Hc1 & Hcf).
    rewrite stale_bit_clear in Hcf by exact Hw16.
    exists (set_word m row col w1), (set_word m row col (h_word_set w1 0)).
    split; [|split].
    + rewrite (h_cell_branch a m row col refc readc readq sc offsetsc floorsc rand o w
                 sc_cur om om 2 4 rand1); try assumption; try lia.
      * rewrite Hrem4. reflexivity.
      * rewrite H1. reflexivity.
    + intros rand2 o2.
      rewrite (h_cell_single nextU2 randFromMask score a _ row col refc readc readq sc
                 offsetsc floorsc rand2 o2 w1 sc_cur om k);
        [rewrite set_word_twice; reflexivity | assumption
         | eapply set_word_mask_word; exact Hw | exact Hb0
         | rewrite origMaskH_set_word; exact Hom | exact Hpos | lia
         | rewrite Hb1; exact Hf | left; exact Hga].
    + intros rand3 o3.
      apply (h_cell_empty nextU2 randFromMask score a _ row col refc readc readq sc
               offsetsc floorsc rand3 o3 (h_word_set w1 0) sc_cur om);
        [assumption | eapply set_word_mask_word; exact Hw | congruence
         | rewrite origMaskH_set_word; exact Hom | exact Hpos
         | rewrite Hc1; exact Hcf].
  - intros ->.
    destruct (Hset 16 ltac:(lia)) as (Hb0 & Hb1 & Hf).
    set (w1 := h_word_set w 16) in *.
    exists (set_word m row col w1). split.
    + rewrite (h_cell_branch a m row col refc readc readq sc offsetsc floorsc rand o w
                 sc_cur om om 2 k rand1); try assumption; try lia.
      * rewrite Hremk. reflexivity.
      * rewrite H1. reflexivity.
    + intros rand2 o2.
      rewrite (h_cell_single nextU2 randFromMask score a _ row col refc readc readq sc
                 offsetsc floorsc rand2 o2 w1 sc_cur om 4);
        [| assumption | eapply set_word_mask_word; exact Hw | exact Hb0
         | rewrite origMaskH_set_word; exact Hom | exact Hpos | lia
         | rewrite Hb1; exact Hf | right; reflexivity].
      rewrite set_word_twice, h_word_stale; [reflexivity | apply updated_range | auto ..].
Qed.

End DiagonalAndGap.

Lemma h_cell_diagonal_and_gap_witness :
  (0 = 4 ->
   exists m1 m2,
     analyzeCell true demo_nextU2 demo_randFromMask demo_score demo_branch_matrix
       1 1 H 0 0 73 demo_scoring 0 0 tt demo_out
     = Ret (m1, tt, found SW_BT_OALL_DIAG true) /\
     (forall (rand2 : unit) o2,
        analyzeCell true demo_nextU2 demo_randFromMask demo_score m1
          1 1 H 0 0 73 demo_scoring 0 0 rand2 o2
        = Ret (m2, rand2, found (h_transition 0) (branch o2))) /\
     (forall (rand3 : unit) o3,
        analyzeCell true demo_nextU2 demo_randFromMask demo_score m2
          1 1 H 0 0 73 demo_scoring 0 0 rand3 o3
        = Ret (m2, rand3, exhausted o3))) /\
  (0 = 0 ->
   exists m1,
     analyzeCell true demo_nextU2 demo_randFromMask demo_score demo_branch_matrix
       1 1 H 0 0 73 demo_scoring 0 0 tt demo_out
     = Ret (m1, tt, found (h_transition 0) true) /\
     forall (rand2 : unit) o2,
       analyzeCell true demo_nextU2 demo_randFromMask demo_score m1
         1 1 H 0 0 73 demo_scoring 0 0 rand2 o2
       = Ret (m1, rand2, found SW_BT_OALL_DIAG (branch o2))).
Proof.
  apply (h_cell_diagonal_and_gap demo_nextU2 demo_randFromMask demo_score true
           demo_branch_matrix 1 1 0 0 73 demo_scoring 0 0 tt demo_out 0 2 0 0 tt);
    [lia | reflexivity | reflexivity | lia | reflexivity | reflexivity | reflexivity
     | lia | reflexivity | reflexivity].
Defined.

(** Three calls on that cell with a [randFromMask] that draws the gap
    alternative: the reference-gap open, then the diagonal twice, the
    matrix unchanged by the second and third call. *)
Example h_cell_diagonal_again :
  let call m := analyzeCell true demo_nextU2 demo_randFromMask demo_score m
                  1 1 H 0 0 73 demo_scoring 0 0 tt demo_out in
  let m1 := with_masks demo_branch_matrix [0; 0; 0; 66; 0; 0] in
  call demo_branch_matrix = Ret (m1, tt, found SW_BT_OALL_REF_OPEN true) /\
  call m1 = Ret (m1, tt, found SW_BT_OALL_DIAG false).
Proof. split; reflexivity. Qed.

(** ** The gap bounds without a cost for a further gap *)

Lemma s64_idem z : s64 (s64 z) = s64 z.
Proof.
  apply s64_small. unfold s64.
  pose proof (Z.mod_pos_bound (z + 2 ^ 63) (2 ^ 64) ltac:(lia)). lia.
Qed.

Lemma maxReadGaps_loop_stuck sc minsc :
  match_ sc = 0 -> readGapExtend sc = 0 ->
  forall (fuel : nat) s num, minsc <= s64 s ->
  maxReadGaps_loop fuel sc minsc (s64 s) false num = Stop OutOfFuel.
Proof.
  intros Hm He. induction fuel as [|fuel IH]; intros s num Hs; [reflexivity|].
  cbn [maxReadGaps_loop]. destruct (Z.leb_spec minsc (s64 s)); [|lia].
  rewrite Hm, He, !Z.sub_0_r, !s64_idem. apply IH. exact Hs.
Qed.

Lemma maxRefGaps_loop_stuck sc minsc :
  refGapExtend sc = 0 ->
  forall (fuel : nat) s num, minsc <= s64 s ->
  maxRefGaps_loop fuel sc minsc (s64 s) false num = Stop OutOfFuel.
Proof.
  intros He. induction fuel as [|fuel IH]; intros s num Hs; [reflexivity|].
  cbn [maxRefGaps_loop]. destruct (Z.leb_spec minsc (s64 s)); [|lia].
  rewrite He, !Z.sub_0_r, !s64_idem. apply IH. exact Hs.
Qed.

Lemma maxRefGaps_no_exit a sc minsc rdlen :
  refGapExtend sc = 0 ->
  minsc <= s64 (usz (rdlen * usz (match_ sc))) ->
  minsc <= s64 (s64 (usz (rdlen * usz (match_ sc))) - refGapOpen sc) ->
  forall fuel : nat, maxRefGaps a fuel sc minsc rdlen = Stop OutOfFuel.
Proof.
  intros He Hstart Hfirst fuel. unfold maxRefGaps.
  set (start := s64 (usz (rdlen * usz (match_ sc)))) in *.
  destruct (Z.leb_spec minsc start); [|lia]. rewrite assert_holds.
  cbn [mbind outcome_bind]. destruct fuel as [|fuel]; [reflexivity|].
  cbn [maxRefGaps_loop]. destruct (Z.leb_spec minsc start); [|lia].
  rewrite maxRefGaps_loop_stuck by assumption. reflexivity.
Qed.

Lemma maxReadGaps_no_exit a sc minsc rdlen :
  match_ sc = 0 -> readGapExtend sc = 0 ->
  minsc <= s64 (usz (rdlen * usz (match_ sc))) ->
  minsc <= s64 (s64 (usz (rdlen * usz (match_ sc))) - readGapOpen sc) ->
  forall fuel : nat, maxReadGaps a fuel sc minsc rdlen = Stop OutOfFuel.
Proof.
  intros Hm He Hstart Hfirst fuel. unfold maxReadGaps.
  set (start := s64 (usz (rdlen * usz (match_ sc)))) in *.
  destruct (Z.leb_spec minsc start); [|lia]. rewrite assert_holds.
  cbn [mbind outcome_bind]. destruct fuel as [|fuel]; [reflexivity|].
  cbn [maxReadGaps_loop]. destruct (Z.leb_spec minsc start); [|lia].
  rewrite Hm, Z.sub_0_r.
  assert (s64 start = start) as -> by (unfold start; apply s64_idem).
  rewrite maxReadGaps_loop_stuck by assumption. reflexivity.
Qed.

(** X26. The loops of the gap bounds end only because a further gap costs
    something. With [refGapExtend = 0], when the score after the first
    reference gap is still at least [minsc], the condition of the loop of
    [maxRefGaps] holds in every later iteration: the call returns for no
    number of iterations. The same holds of [maxReadGaps] with [match = 0]
    and [readGapExtend = 0]. *)
Theorem gap_bounds_without_exit a sc minsc rdlen :
  minsc <= s64 (usz (rdlen * usz (match_ sc))) ->
  (refGapExtend sc = 0 ->
   minsc <= s64 (s64 (usz (rdlen * usz (match_ sc))) - refGapOpen sc) ->
   forall fuel : nat, maxRefGaps a fuel sc minsc rdlen = Stop OutOfFuel) /\
  (match_ sc = 0 -> readGapExtend sc = 0 ->
   minsc <= s64 (s64 (usz (rdlen * usz (match_ sc))) - readGapOpen sc) ->
   forall fuel : nat, maxReadGaps a fuel sc minsc rdlen = Stop OutOfFuel).
Proof.
  intros Hstart. split.
  - intros He Hfirst. apply maxRefGaps_no_exit; assumption.
  - intros Hm He Hfirst. apply maxReadGaps_no_exit; assumption.
Qed.

Lemma gap_bounds_without_exit_witness :
  let sc := mkScoring 0 5 15 0 5 0 f32_zero f32_zero false in
  (refGapExtend sc = 0 ->
   -20 <= s64 (s64 (usz (10 * usz (match_ sc))) - refGapOpen sc) ->
   forall fuel : nat, maxRefGaps true fuel sc (-20) 10 = Stop OutOfFuel) /\
  (match_ sc = 0 -> readGapExtend sc = 0 ->
   -20 <= s64 (s64 (usz (10 * usz (match_ sc))) - readGapOpen sc) ->
   forall fuel : nat, maxReadGaps true fuel sc (-20) 10 = Stop OutOfFuel).
Proof.
  apply (gap_bounds_without_exit true (mkScoring 0 5 15 0 5 0 f32_zero f32_zero false)
           (-20) 10).
  apply Z.leb_le. reflexivity.
Defined.

(** A scheme with match bonus 1, reference-gap open cost 5 and extension
    cost 0, read length 10, floor 0: the first gap fits, so none is the
    last. *)
Example maxRefGaps_free_extension :
  forall fuel : nat,
  maxRefGaps true fuel (mkScoring 1 5 15 4 5 0 f32_zero f32_zero false) 0 10
  = Stop OutOfFuel.
Proof.
  apply maxRefGaps_no_exit;
    [reflexivity | apply Z.leb_le; reflexivity | apply Z.leb_le; reflexivity].
Qed.

(** ** The mask array during the backtraces *)

Section BacktraceStates.
Context {RandomSource : Type}.
Variable nextU2 : RandomSource -> Z * RandomSource.
Variable randFromMask : RandomSource -> Z -> Z * RandomSource.
Variable score : Scoring -> Z -> Z -> Z -> Z.

(** X27. In every state reached from [initMasks] by calls of [analyzeCell]
    and of [setReportedThrough] on cells of the matrix (dimensions that fit
    [size_t]): [masks_] has one word per cell, every word is a 16-bit
    value, the vector buffer and the dimensions are those of the start, and
    for every cell within [nrow()] and [ncol()] the word exists, so that
    [reportedThrough(row, col)] returns: no access
    [masks_[row * ncol_ + col]] of a further call is out of range. *)
Theorem backtrace_state_masks a sc m0 m :
  dims_ok m0 ->
  backtrace_state a nextU2 randFromMask score sc m0 m ->
  Z.of_nat (length (masks_ m)) = nrow_ m0 * ncol_ m0 /\
  Forall (fun w => 0 <= w < 2 ^ 16) (masks_ m) /\
  with_masks m (masks_ m0) = m0 /\
  (forall row col, 0 <= row < nrow m -> 0 <= col < ncol m ->
     exists w, mask_word m row col = Some w /\
               reportedThrough m row col = Ret (Z.testbit w 0)).
Proof.
  intros Hd Hbs. unfold nrow, ncol.
  assert (Z.of_nat (length (masks_ m)) = nrow_ m0 * ncol_ m0 /\
          Forall (fun w => 0 <= w < 2 ^ 16) (masks_ m) /\
          with_masks m (masks_ m0) = m0) as (Hlen & Hall & Hrest).
  { induction Hbs as
      [ | m row col ct refc readc readq offsetsc floorsc rand o m' rand' o' _ IH Hr Hc Ha
        | m row col m' _ IH Hr Hc Hs ].
    - unfold initMasks. cbn [masks_ with_masks]. rewrite repeat_length.
      destruct Hd as (Hn & Hc & _).
      split; [apply Z2Nat.id, Z.mul_nonneg_nonneg; assumption|].
      split; [|apply with_masks_back].
      apply Forall_forall. intros w Hw.
      apply list_elem_of_In, repeat_spec in Hw. subst w. lia.
    - destruct IH as (Hlen & Hall & Hrest).
      apply analyzeCell_cases in Ha as (rt & _ & Hcases).
      destruct Hcases as [(_ & -> & _) | [(_ & _ & -> & _) | (_ & _ & Hrw & _)]];
        [auto | auto |].
      destruct Hrw as [-> | (w & w' & Hw & -> & Hw' & _)]; [auto|].
      cbn [masks_ with_masks]. rewrite length_insert.
      split; [exact Hlen|]. split; [|rewrite with_masks_twice; exact Hrest].
      apply Forall_insert; assumption.
    - destruct IH as (Hlen & Hall & Hrest).
      apply setReportedThrough_inv in Hs as (w & Hw & ->).
      cbn [masks_ with_masks]. rewrite length_insert.
      split; [exact Hlen|]. split; [|rewrite with_masks_twice; exact Hrest].
      apply Forall_insert; [assumption|]. unfold u16. apply Z.mod_pos_bound. lia. }
  split; [exact Hlen|]. split; [exact Hall|]. split; [exact Hrest|].
  intros row col Hr Hc.
  assert (nrow_ m = nrow_ m0 /\ ncol_ m = ncol_ m0) as [Hn Hc']
    by (rewrite <- Hrest; split; reflexivity).
  assert (dims_ok m) as Hdm by (unfold dims_ok in *; rewrite Hn, Hc'; exact Hd).
  destruct (cell_index_small m row col Hdm Hr Hc) as [Hidx Hlt].
  destruct (lookup_lt_is_Some_2 (masks_ m) (Z.to_nat (cell_index m row col))) as [w Hw].
  { pose proof (cell_index_nonneg m row col) as Hnn.
    rewrite Hidx in *. rewrite <- Hn, <- Hc' in Hlen. lia. }
  exists w. split; [exact Hw|]. apply reportedThrough_word. exact Hw.
Qed.

End BacktraceStates.

Lemma backtrace_state_masks_witness :
  let m0 := demo_matrix in
  let m := with_masks demo_matrix [0; 0; 0; 0; 0; 2] in
  Z.of_nat (length (masks_ m)) = nrow_ m0 * ncol_ m0 /\
  Forall (fun w => 0 <= w < 2 ^ 16) (masks_ m) /\
  with_masks m (masks_ m0) = m0 /\
  (forall row col, 0 <= row < nrow m -> 0 <= col < ncol m ->
     exists w, mask_word m row col = Some w /\
               reportedThrough m row col = Ret (Z.testbit w 0)).
Proof.
  apply (backtrace_state_masks demo_nextU2 demo_randFromMask demo_score true
           demo_scoring demo_matrix (with_masks demo_matrix [0; 0; 0; 0; 0; 2]));
    [exact demo_matrix_dims|].
  apply (bs_analyze true demo_nextU2 demo_randFromMask demo_score demo_scoring
           demo_matrix (initMasks demo_matrix) 2 1 H 0 0 73 0 0 tt demo_out
           (with_masks demo_matrix [0; 0; 0; 0; 0; 2]) tt
           (mkOut false SW_BT_OALL_DIAG false true false));
    [apply bs_init | simpl; lia | simpl; lia | reflexivity].
Defined.
